(** * Sector opportunity analyzer: the normalisation and scoring engine

    A shallow embedding of [analysis/signals.go], of the scoring engine
    ([NewSectorScorer], [CalculateScores], [GetSummaryReport],
    [RunAnalysis]), of the configuration constants they read, of
    [parseWeights] of the HTTP handlers and of the parts of the fetchers
    that do not talk to the network (the series loop of
    [fetchYahooHistory], [sortTimeSeries]), followed by the properties of
    the engine.

    Conventions of the embedding.
    - [float64] is Rocq's primitive binary64 float ([PrimFloat.float]); every
      arithmetic operation and comparison of the Go code is the IEEE 754
      operation of the same name, so NaN, infinities and rounding are those
      of the program.
    - A Go [map[string]V] is an association list with pairwise distinct keys
      ([gomap V]); the order of the list is the order in which a [range]
      statement visits the map.  Go leaves that order unspecified, so a
      statement quantified over every [gomap] covers every order.
    - Go [int] values (lengths, indices) are in [Z]; [int64] sums wrap around.
    - A run-time panic (index out of range, gonum's length check) is [None]
      in the [panics] monad.
    - A [time.Time] is the instant it denotes, in [Z]; the formatted
      current time and the numbers parsed from a query string are
      parameters of the functions that read them.
    - Floating-point expressions are evaluated operation by operation, each
      result rounded to binary64, as the amd64 compiler does (Go allows a
      multiplication and an addition to be fused on other targets).
    - Bounds on scores are stated over the real numbers: [to_R x] is the
      real a finite float [x] denotes, and the rounding of each operation
      is derived from its IEEE 754 specification ([SpecFloat]). *)

From Stdlib Require Import Reals Lra Psatz Zfloor.
From Stdlib Require Import List String ZArith Bool Lia Floats Permutation Sorted.
Import ListNotations.

#[local] Set Warnings "-inexact-float".
Local Open Scope string_scope.
Local Open Scope list_scope.

(* ================================================================== *)
(** ** Run-time panics *)

Definition panics (A : Type) : Type := option A.

Definition ret {A} (a : A) : panics A := Some a.

Definition bind {A B} (c : panics A) (k : A -> panics B) : panics B :=
  match c with
  | Some a => k a
  | None => None
  end.

Notation "x <- c ;; k" := (bind c (fun x => k))
  (at level 61, c at next level, right associativity).

Fixpoint foldM {A B} (f : B -> A -> panics B) (l : list A) (b : B) : panics B :=
  match l with
  | [] => ret b
  | a :: l' => b' <- f b a ;; foldM f l' b'
  end.

(** [len(s)] and [s[i]] of a slice; [s[i]] panics outside [0 <= i < len(s)]. *)
Definition len {A} (s : list A) : Z := Z.of_nat (List.length s).

Definition index {A} (s : list A) (i : Z) : panics A :=
  if (i <? 0)%Z then None else nth_error s (Z.to_nat i).

(** [s[i] = v]; panics outside [0 <= i < len(s)]. *)
Definition assign {A} (s : list A) (i : Z) (v : A) : panics (list A) :=
  if (i <? 0)%Z || (len s <=? i)%Z then None
  else ret (firstn (Z.to_nat i) s ++ v :: skipn (S (Z.to_nat i)) s).

(** [s[i], s[j] = s[j], s[i]] *)
Definition swap {A} (s : list A) (i j : Z) : panics (list A) :=
  a <- index s j ;;
  b <- index s i ;;
  s' <- assign s i a ;;
  assign s' j b.

(** The values [lo, lo+1, ..., hi-1] of [for i := lo; i < hi; i++]. *)
Definition zrange (lo hi : Z) : list Z :=
  map (fun k => (lo + Z.of_nat k)%Z) (seq 0 (Z.to_nat (hi - lo))).

(** The values [lo, lo+step, ...] below [hi] of [for i := lo; i < hi; i += step]. *)
Definition zstride (lo step hi : Z) : list Z :=
  map (fun k => (lo + step * Z.of_nat k)%Z)
      (seq 0 (Z.to_nat ((hi - lo + step - 1) / step))).

(* ================================================================== *)
(** ** Go maps with string keys *)

Module GoMap.

Definition gomap (V : Type) : Type := list (string * V).

Section Ops.
Context {V : Type}.

(** [v, ok := m[k]] *)
Fixpoint lookup (k : string) (m : gomap V) : option V :=
  match m with
  | [] => None
  | (k', v) :: m' => if String.eqb k k' then Some v else lookup k m'
  end.

(** [m[k] = v] *)
Fixpoint insert (k : string) (v : V) (m : gomap V) : gomap V :=
  match m with
  | [] => [(k, v)]
  | (k', v') :: m' =>
      if String.eqb k k' then (k, v) :: m' else (k', v') :: insert k v m'
  end.

Definition keys (m : gomap V) : list string := map fst m.

(** A list is a map when no key occurs twice. *)
Definition wf (m : gomap V) : Prop := NoDup (keys m).

Definition mem (k : string) (m : gomap V) : bool :=
  match lookup k m with
  | Some _ => true
  | None => false
  end.

End Ops.
End GoMap.
Import GoMap.

(* ================================================================== *)
(** ** float64 and package math *)

Module Float64.
Local Open Scope float_scope.

(** [float64(n)] for an integer [n]: the nearest binary64 value. *)
Definition of_int (z : Z) : float :=
  SF2Prim (binary_normalize prec emax z 0 false).

(** [math.Round]: the nearest integer, halves away from zero;
    [Round(±0) = ±0], [Round(±Inf) = ±Inf], [Round(NaN) = NaN].  A finite
    non-zero [x] is [±m * 2^e]: for [e >= 0] it is an integer already,
    otherwise [m] is divided by [2^-e] and the quotient is moved up when the
    remainder is at least one half. *)
Definition math_Round (x : float) : float :=
  match Prim2SF x with
  | S754_finite s m e =>
      if (0 <=? e)%Z then x
      else
        let d := (2 ^ (- e))%Z in
        let q := (Zpos m / d)%Z in
        let r := (Zpos m mod d)%Z in
        let n := if (d <=? 2 * r)%Z then (q + 1)%Z else q in
        SF2Prim (binary_normalize prec emax (if s then (- n)%Z else n) 0 s)
  | _ => x
  end.

Definition math_Abs (x : float) : float := abs x.
Definition math_Sqrt (x : float) : float := sqrt x.
Definition math_IsNaN (x : float) : bool := is_nan x.

(** [x > y] of Go. *)
Definition gtb (x y : float) : bool := y <? x.

(** [int64] addition: two's complement wrap-around. *)
Definition wrap64 (z : Z) : Z :=
  ((z + 2 ^ 63) mod 2 ^ 64 - 2 ^ 63)%Z.

End Float64.
Import Float64.

(* ================================================================== *)
(** ** gonum.org/v1/gonum/stat (the three functions the engine calls,
       with [weights == nil]) *)

Module stat.
Local Open Scope float_scope.

(** [floats.Sum]: [sum += v] from [0], as the portable implementation
    adds.  (The amd64 assembly of gonum adds in another order, which can
    change the last bits of an inexact sum; the concrete inputs below have
    exact sums.) *)
Definition floats_Sum (x : list float) : float :=
  fold_left (fun sum v => sum + v) x 0.

(** [stat.Mean(x, nil) = floats.Sum(x) / float64(len(x))]. *)
Definition Mean (x : list float) : float :=
  floats_Sum x / of_int (len x).

(** [stat.Variance(x, nil)]: the unbiased sample variance, by the corrected
    two-pass algorithm: with [d = v - mean], [ss = sum d*d] and
    [compensation = sum d], it is
    [(ss - compensation*compensation/n) / (n - 1)]. *)
Definition Variance (x : list float) : float :=
  let mean := Mean x in
  let '(ss, compensation) :=
    fold_left (fun '(ss, compensation) v =>
                 let d := v - mean in
                 (ss + d * d, compensation + d))
              x (0, 0) in
  let unnormalisedVariance := ss - compensation * compensation / of_int (len x) in
  unnormalisedVariance / (of_int (len x) - 1).

(** [stat.StdDev(x, nil)]: the sample standard deviation,
    [math.Sqrt(Variance(x, nil))]. *)
Definition StdDev (x : list float) : float := math_Sqrt (Variance x).

(** [stat.Correlation(x, y, nil)]: Pearson's correlation by the same
    two-pass scheme; panics when the lengths differ. *)
Definition Correlation (x y : list float) : panics float :=
  if negb (len x =? len y)%Z then None
  else
    let xu := Mean x in
    let yu := Mean y in
    let '(sxx, syy, sxy, xcompensation, ycompensation) :=
      fold_left (fun '(sxx, syy, sxy, xcompensation, ycompensation) '(xv, yv) =>
                   let xd := xv - xu in
                   let yd := yv - yu in
                   (sxx + xd * xd, syy + yd * yd, sxy + xd * yd,
                    xcompensation + xd, ycompensation + yd))
                (combine x y) (0, 0, 0, 0, 0) in
    let sxx := sxx - xcompensation * xcompensation / of_int (len x) in
    let syy := syy - ycompensation * ycompensation / of_int (len x) in
    ret ((sxy - xcompensation * ycompensation / of_int (len x))
         / math_Sqrt (sxx * syy)).

End stat.

(* ================================================================== *)
(** ** Package sort (the function the engine calls) *)

Module sort.

(** The inner loop of the insertion sort of package sort,
    [for j := i; j > a && less(j, j-1); j-- { swap(j, j-1) }]:
    [before] is [data[a..i-1]] read from position [i-1] down to [a], and [x]
    is [data[i]]. *)
Fixpoint sift {A} (less : A -> A -> bool) (x : A) (before : list A) : list A :=
  match before with
  | [] => [x]
  | y :: rest => if less x y then y :: sift less x rest else x :: before
  end.

(** [insertionSortLessFunc(data, 0, len(data))]. *)
Definition insertionSort {A} (less : A -> A -> bool) (l : list A) : list A :=
  rev (fold_left (fun before x => sift less x before) l []).

(** [sort.Slice(x, less)].  Package sort (pdqsort, since Go 1.19) sorts a
    slice of at most 12 elements by insertion sort alone; the engine sorts
    the 11 records of the configured sectors. *)
Definition Slice {A} (less : A -> A -> bool) (x : list A) : list A :=
  insertionSort less x.

End sort.
Import sort.

(* ================================================================== *)
(** ** Package config *)

Module config.
Local Open Scope float_scope.

Definition SectorNames : list string :=
  [ "Information Technology";
    "Financials";
    "Energy";
    "Health Care";
    "Consumer Discretionary";
    "Consumer Staples";
    "Industrials";
    "Materials";
    "Utilities";
    "Real Estate";
    "Communication Services" ].

Definition DefaultWeights : gomap float :=
  [ ("momentum", 0.25);
    ("valuation", 0.20);
    ("growth", 0.20);
    ("innovation", 0.20);
    ("macro", 0.15) ].

Definition MomentumPeriods : list Z := [3; 6; 12]%Z.

End config.

(* ================================================================== *)
(** ** Package data *)

Module data.

Record PriceBar := {
  Date : Z;
  Open : float;
  High : float;
  Low : float;
  Close : float;
  Volume : Z
}.

Definition PriceSeries := list PriceBar.
Definition SectorPrices := gomap PriceSeries.

Record SectorInfo := {
  ForwardPE : option float;
  TrailingPE : option float;
  DividendYield : option float;
  AvgVolume : option Z;
  MarketCap : option float
}.

Record TimeSeries := {
  Dates : list Z;
  Values : list float
}.

Definition MacroData := gomap TimeSeries.
Definition EmploymentData := gomap TimeSeries.
Definition RDData := gomap float.

Module AllData.
Record t := {
  SectorPrices : SectorPrices;
  SectorInfo : gomap SectorInfo;
  MacroData : MacroData;
  EmploymentData : EmploymentData;
  RDData : RDData;
  FetchedAt : Z
}.
End AllData.

End data.

(* ================================================================== *)
(** ** Package data: fetchers.go (the parts that do not talk to the
       network) *)

Module fetchers.
Local Open Scope float_scope.

(** The first element of [result.Indicators.Quote] of a decoded Yahoo
    Finance chart: five parallel arrays. *)
Module Quote.
Record t := {
  Open : list float;
  High : list float;
  Low : list float;
  Close : list float;
  Volume : list Z
}.
End Quote.

(** [if i < len(a) { field = a[i] }] on a field that holds its zero value. *)
Definition at_or {A} (a : list A) (i : Z) (zero : A) : panics A :=
  if (i <? len a)%Z then index a i else ret zero.

(** The loop of [fetchYahooHistory] that builds the price series from the
    timestamps and the quote of the decoded response; [time.Unix(ts, 0)] is
    the instant [ts]. *)
Definition price_bars (timestamps : list Z) (quote : Quote.t)
  : panics data.PriceSeries :=
  foldM (fun series '(i, ts) =>
           if (i >=? len (Quote.Close quote))%Z then ret series
           else
             close <- index (Quote.Close quote) i ;;
             if close =? 0 then ret series
             else
               open <- at_or (Quote.Open quote) i 0 ;;
               high <- at_or (Quote.High quote) i 0 ;;
               low <- at_or (Quote.Low quote) i 0 ;;
               volume <- at_or (Quote.Volume quote) i 0%Z ;;
               ret (series ++ [{| data.Date := ts;
                                  data.Open := open;
                                  data.High := high;
                                  data.Low := low;
                                  data.Close := close;
                                  data.Volume := volume |}]))
        (combine (zrange 0 (len timestamps)) timestamps) [].

(** The body of the inner loop of [sortTimeSeries]: the observations at
    [j] and [j + 1] change places when the first is after the second;
    [a.After(b)] on instants is [b < a]. *)
Definition bubble_step (ts : data.TimeSeries) (j : Z) : panics data.TimeSeries :=
  a <- index (data.Dates ts) j ;;
  b <- index (data.Dates ts) (j + 1) ;;
  if (b <? a)%Z then
    dates <- swap (data.Dates ts) j (j + 1) ;;
    values <- swap (data.Values ts) j (j + 1) ;;
    ret {| data.Dates := dates; data.Values := values |}
  else ret ts.

(** sortTimeSeries sorts a time series by date ascending (a bubble sort).
    The Go function sorts in place; here the sorted series is returned. *)
Definition sortTimeSeries (ts : data.TimeSeries) : panics data.TimeSeries :=
  let n := len (data.Dates ts) in
  foldM (fun ts i => foldM bubble_step (zrange 0 (n - i - 1)) ts)
        (zrange 0 (n - 1)) ts.

End fetchers.

(* ================================================================== *)
(** ** Package analysis: signals.go *)

Module analysis.
Local Open Scope float_scope.

(** The [range] loop of [NormalizeScore] that finds the extreme values; the
    state is [(minVal, maxVal, first)]. *)
Definition minmax (values : gomap float) : float * float * bool :=
  fold_left (fun '(minVal, maxVal, first) '(_, v) =>
               if (first : bool) then (v, v, false)
               else
                 let minVal := if v <? minVal then v else minVal in
                 let maxVal := if gtb v maxVal then v else maxVal in
                 (minVal, maxVal, false))
            values (0, 0, true).

(** [for k := range values { result[k] = 50.0 }] *)
Definition all_fifty (values : gomap float) : gomap float :=
  fold_left (fun result '(k, _) => insert k 50 result) values [].

(** NormalizeScore normalizes values to 0-100 scale using min-max
    normalization. *)
Definition NormalizeScore (values : gomap float) (higherIsBetter : bool)
  : gomap float :=
  if (len values =? 0)%Z then []
  else
    let '(minVal, maxVal, _) := minmax values in
    if maxVal =? minVal then all_fifty values
    else
      fold_left (fun result '(sector, val) =>
                   let score := ((val - minVal) / (maxVal - minVal)) * 100 in
                   let score := if negb higherIsBetter then 100 - score else score in
                   insert sector (math_Round (score * 100) / 100) result)
                values [].

(** The body of the last loop of [NormalizeScoreZScore] for one value. *)
Definition zscore_of (mean std : float) (higherIsBetter : bool) (val : float)
  : float :=
  let z := (val - mean) / std in
  let score := 50 + (z * 15) in
  let score := if score <? 0 then 0 else score in
  let score := if gtb score 100 then 100 else score in
  let score := if negb higherIsBetter then 100 - score else score in
  math_Round (score * 100) / 100.

(** NormalizeScoreZScore normalizes values using z-score, then converts to
    0-100. *)
Definition NormalizeScoreZScore (values : gomap float) (higherIsBetter : bool)
  : gomap float :=
  if (len values =? 0)%Z then []
  else
    let vals := fold_left (fun vals '(_, v) => vals ++ [v]) values [] in
    let mean := stat.Mean vals in
    let std := stat.StdDev vals in
    if std =? 0 then all_fifty values
    else
      fold_left (fun result '(sector, val) =>
                   insert sector (zscore_of mean std higherIsBetter val) result)
                values [].

Definition periodKey (months : Z) : string :=
  if (months =? 3)%Z then "3mo"
  else if (months =? 6)%Z then "6mo"
  else if (months =? 12)%Z then "12mo"
  else "".

(** CalculatePriceReturns calculates price returns for multiple periods. *)
Definition CalculatePriceReturns (prices : data.SectorPrices)
  : panics (gomap (gomap float)) :=
  foldM (fun returns '(sector, series) =>
           if (sector =? "_benchmark")%string || (len series <? 20)%Z
           then ret returns
           else
             sectorReturns <-
               foldM (fun sectorReturns months =>
                        let tradingDays := (months * 21)%Z in
                        if (len series >=? tradingDays)%Z then
                          startBar <- index series (len series - tradingDays) ;;
                          endBar <- index series (len series - 1) ;;
                          let startPrice := data.Close startBar in
                          let endPrice := data.Close endBar in
                          let r := ((endPrice - startPrice) / startPrice) * 100 in
                          ret (insert (periodKey months) r sectorReturns)
                        else ret sectorReturns)
                     config.MomentumPeriods [] ;;
             if (len sectorReturns >? 0)%Z
             then ret (insert sector sectorReturns returns)
             else ret returns)
        prices [].

(** CalculateRelativeStrength calculates relative strength vs benchmark. *)
Definition CalculateRelativeStrength (prices : data.SectorPrices)
  (periodMonths : Z) : panics (gomap float) :=
  match lookup "_benchmark" prices with
  | None => ret []
  | Some benchmarkSeries =>
      if (len benchmarkSeries =? 0)%Z then ret []
      else
        let tradingDays := (periodMonths * 21)%Z in
        if (len benchmarkSeries <? tradingDays)%Z then ret []
        else
          bLast <- index benchmarkSeries (len benchmarkSeries - 1) ;;
          bFirst <- index benchmarkSeries (len benchmarkSeries - tradingDays) ;;
          let benchmarkReturn := (data.Close bLast / data.Close bFirst - 1) * 100 in
          foldM (fun relStrength '(sector, series) =>
                   if (sector =? "_benchmark")%string
                      || (len series <? tradingDays)%Z
                   then ret relStrength
                   else
                     sLast <- index series (len series - 1) ;;
                     sFirst <- index series (len series - tradingDays) ;;
                     let sectorReturn :=
                       (data.Close sLast / data.Close sFirst - 1) * 100 in
                     ret (insert sector (sectorReturn - benchmarkReturn) relStrength))
                prices []
  end.

(** [for i := lo; i < len(series); i++ { sum += series[i].Volume }] *)
Definition volume_sum (series : data.PriceSeries) (lo : Z) : panics Z :=
  foldM (fun sum i =>
           bar <- index series i ;;
           ret (wrap64 (sum + data.Volume bar)))
        (zrange lo (len series)) 0%Z.

(** CalculateVolumeTrend calculates volume trend (short-term avg vs
    long-term avg). *)
Definition CalculateVolumeTrend (prices : data.SectorPrices)
  (shortPeriod longPeriod : Z) : panics (gomap float) :=
  foldM (fun trends '(sector, series) =>
           if (sector =? "_benchmark")%string || (len series <? longPeriod)%Z
           then ret trends
           else
             shortSum <- volume_sum series (len series - shortPeriod) ;;
             let shortAvg := of_int shortSum / of_int shortPeriod in
             longSum <- volume_sum series (len series - longPeriod) ;;
             let longAvg := of_int longSum / of_int longPeriod in
             if gtb longAvg 0 then
               let trend := ((shortAvg - longAvg) / longAvg) * 100 in
               ret (insert sector trend trends)
             else ret trends)
        prices [].

Definition getOrDefault (m : gomap float) (key : string) (def : float) : float :=
  match lookup key m with
  | Some v => v
  | None => def
  end.

Definition defaultScores : gomap float :=
  fold_left (fun scores sector => insert sector 50 scores) config.SectorNames [].

(** The loop "fill missing sectors" shared by four calculators. *)
Definition fill_missing (scores : gomap float) (def : float) : gomap float :=
  fold_left (fun scores sector =>
               if negb (mem sector scores) then insert sector def scores
               else scores)
            config.SectorNames scores.

(** CalculateMomentumScore calculates combined momentum score. *)
Definition CalculateMomentumScore (prices : data.SectorPrices)
  : panics (gomap float) :=
  returns <- CalculatePriceReturns prices ;;
  relStrength <- CalculateRelativeStrength prices 12 ;;
  volumeTrend <- CalculateVolumeTrend prices 20 50 ;;
  let returns12mo :=
    fold_left (fun returns12mo '(sector, rets) =>
                 match lookup "12mo" rets with
                 | Some r => insert sector r returns12mo
                 | None => returns12mo
                 end)
              returns [] in
  let normReturns := NormalizeScoreZScore returns12mo true in
  let normRelStrength := NormalizeScoreZScore relStrength true in
  let normVolume := NormalizeScoreZScore volumeTrend true in
  ret (fold_left (fun momentumScores sector =>
                    let retScore := getOrDefault normReturns sector 50 in
                    let rsScore := getOrDefault normRelStrength sector 50 in
                    let volScore := getOrDefault normVolume sector 50 in
                    let combined :=
                      (0.50 * retScore) + (0.35 * rsScore) + (0.15 * volScore) in
                    insert sector (math_Round (combined * 100) / 100) momentumScores)
                 config.SectorNames []).

(** CalculateValuationScore calculates valuation score based on P/E ratios. *)
Definition CalculateValuationScore (sectorPE : gomap float)
  (sectorInfo : gomap data.SectorInfo) : gomap float :=
  let peMap :=
    fold_left (fun peMap '(sector, pe) =>
                 if gtb pe 0 then insert sector pe peMap else peMap)
              sectorPE [] in
  let peMap :=
    fold_left (fun peMap '(sector, info) =>
                 match data.ForwardPE info with
                 | Some fpe =>
                     if negb (mem sector peMap) && gtb fpe 0
                     then insert sector fpe peMap else peMap
                 | None => peMap
                 end)
              sectorInfo peMap in
  if (len peMap =? 0)%Z then defaultScores
  else fill_missing (NormalizeScoreZScore peMap false) 50.

(** CalculateEmploymentGrowth calculates YoY employment growth by sector. *)
Definition CalculateEmploymentGrowth (employment : data.EmploymentData)
  : panics (gomap float) :=
  foldM (fun growthRates '(sector, ts) =>
           let values := data.Values ts in
           if (len values <? 13)%Z then ret growthRates
           else
             current <- index values (len values - 1) ;;
             yearAgo <- index values (len values - 13) ;;
             if gtb yearAgo 0 then
               let growth := ((current - yearAgo) / yearAgo) * 100 in
               ret (insert sector growth growthRates)
             else ret growthRates)
        employment [].

(** CalculateGrowthScore calculates growth score based on employment trends. *)
Definition CalculateGrowthScore (employment : data.EmploymentData)
  : panics (gomap float) :=
  growth <- CalculateEmploymentGrowth employment ;;
  if (len growth =? 0)%Z then ret defaultScores
  else ret (fill_missing (NormalizeScoreZScore growth true) 50).

(** The filter loop of [CalculateInnovationScore]. *)
Definition validRD (rdData : data.RDData) : gomap float :=
  fold_left (fun validRD '(sector, rd) =>
               if gtb rd 0 then insert sector rd validRD else validRD)
            rdData [].

(** CalculateInnovationScore calculates innovation score based on R&D
    intensity. *)
Definition CalculateInnovationScore (rdData : data.RDData) : gomap float :=
  if (len rdData =? 0)%Z then defaultScores
  else
    if (len (validRD rdData) =? 0)%Z then defaultScores
    else fill_missing (NormalizeScoreZScore (validRD rdData) true) 30.

(** monthlyChanges calculates month-over-month percentage changes. *)
Definition monthlyChanges (ts : data.TimeSeries) : panics (list float) :=
  let values := data.Values ts in
  if (len values <? 2)%Z then ret []
  else
    foldM (fun changes i =>
             prev <- index values (i - 1) ;;
             if negb (prev =? 0) then
               cur <- index values i ;;
               ret (changes ++ [(cur - prev) / prev])
             else ret changes)
          (zrange 1 (len values)) [].

(** monthlyReturnsFromPrices calculates monthly returns from daily prices. *)
Definition monthlyReturnsFromPrices (series : data.PriceSeries)
  : panics (list float) :=
  if (len series <? 21)%Z then ret []
  else
    foldM (fun returns i =>
             prevBar <- index series (i - 21) ;;
             currBar <- index series i ;;
             let prevPrice := data.Close prevBar in
             let currPrice := data.Close currBar in
             if gtb prevPrice 0 then
               ret (returns ++ [(currPrice - prevPrice) / prevPrice])
             else ret returns)
          (zstride 21 21 (len series)) [].

(** [s[lo:]]; panics outside [0 <= lo <= len(s)]. *)
Definition slice_from {A} (s : list A) (lo : Z) : panics (list A) :=
  if (lo <? 0)%Z || (len s <? lo)%Z then None
  else ret (skipn (Z.to_nat lo) s).

(** CalculateRateSensitivity calculates sector sensitivity to interest rate
    changes. *)
Definition CalculateRateSensitivity (prices : data.SectorPrices)
  (interestRates : data.TimeSeries) : panics (gomap float) :=
  if (len (data.Values interestRates) =? 0)%Z then ret []
  else
    rateChanges <- monthlyChanges interestRates ;;
    foldM (fun sensitivities '(sector, series) =>
             if (sector =? "_benchmark")%string || (len series <? 252)%Z
             then ret sensitivities
             else
               sectorReturns <- monthlyReturnsFromPrices series ;;
               if (len sectorReturns <? 12)%Z || (len rateChanges <? 12)%Z
               then ret sensitivities
               else
                 let n := Z.min (len sectorReturns) (len rateChanges) in
                 if (n <? 12)%Z then ret sensitivities
                 else
                   returns <- slice_from sectorReturns (len sectorReturns - n) ;;
                   rates <- slice_from rateChanges (len rateChanges - n) ;;
                   corr <- stat.Correlation returns rates ;;
                   if negb (math_IsNaN corr)
                   then ret (insert sector corr sensitivities)
                   else ret sensitivities)
          prices [].

(** CalculateMacroScore calculates macro sensitivity score. *)
Definition CalculateMacroScore (prices : data.SectorPrices)
  (macroData : data.MacroData) : panics (gomap float) :=
  match lookup "treasury_10y" macroData with
  | None => ret defaultScores
  | Some interestRates =>
      sensitivity <- CalculateRateSensitivity prices interestRates ;;
      if (len sensitivity =? 0)%Z then ret defaultScores
      else ret (fill_missing (NormalizeScoreZScore sensitivity false) 50)
  end.

(* ------------------------------------------------------------------ *)
(** *** The scoring engine *)

(** SectorScore contains a sector's complete scoring breakdown. *)
Record SectorScore := {
  Sector : string;
  OpportunityScore : float;
  Rank : Z;
  MomentumScore : float;
  ValuationScore : float;
  GrowthScore : float;
  InnovationScore : float;
  MacroScore : float;
  PriceReturn3Mo : option float;
  PriceReturn6Mo : option float;
  PriceReturn12Mo : option float;
  RelativeStrength : option float;
  ForwardPE : option float;
  EmploymentGrowth : option float;
  RDIntensity : option float
}.

Definition set_Rank (r : Z) (sc : SectorScore) : SectorScore :=
  {| Sector := Sector sc;
     OpportunityScore := OpportunityScore sc;
     Rank := r;
     MomentumScore := MomentumScore sc;
     ValuationScore := ValuationScore sc;
     GrowthScore := GrowthScore sc;
     InnovationScore := InnovationScore sc;
     MacroScore := MacroScore sc;
     PriceReturn3Mo := PriceReturn3Mo sc;
     PriceReturn6Mo := PriceReturn6Mo sc;
     PriceReturn12Mo := PriceReturn12Mo sc;
     RelativeStrength := RelativeStrength sc;
     ForwardPE := ForwardPE sc;
     EmploymentGrowth := EmploymentGrowth sc;
     RDIntensity := RDIntensity sc |}.

(** SectorScorer calculates opportunity scores for all sectors. *)
Record SectorScorer := { Weights : gomap float }.

(** The sum of the values of a weight map, in the order of its [range]. *)
Definition weight_sum (weights : gomap float) : float :=
  fold_left (fun sum '(_, w) => sum + w) weights 0.

(** NewSectorScorer creates a new scorer with optional custom weights
    ([None] is the nil map).  The Go function rescales the caller's map in
    place and the scorer keeps that same map. *)
Definition NewSectorScorer (weights : option (gomap float)) : SectorScorer :=
  let weights :=
    match weights with
    | None => config.DefaultWeights
    | Some w => w
    end in
  let sum := weight_sum weights in
  let weights :=
    if gtb sum 0 && gtb (math_Abs (sum - 1.0)) 0.01
    then fold_left (fun ws '(k, v) => insert k (v / sum) ws) weights weights
    else weights in
  {| Weights := weights |}.

(** [m[k]] without the comma-ok: the zero value when [k] is absent. *)
Definition at_key (m : gomap float) (k : string) : float :=
  match lookup k m with
  | Some v => v
  | None => 0
  end.

(** [for i := range scores { scores[i].Rank = i + 1 }] *)
Definition assign_ranks (scores : list SectorScore) : list SectorScore :=
  map (fun '(i, sc) => set_Rank (i + 1)%Z sc)
      (combine (zrange 0 (len scores)) scores).

(** The weighted opportunity score of one sector. *)
Definition opportunity (w : gomap float)
  (momentum valuation growth innovation macro : float) : float :=
  (at_key w "momentum" * momentum) +
  (at_key w "valuation" * valuation) +
  (at_key w "growth" * growth) +
  (at_key w "innovation" * innovation) +
  (at_key w "macro" * macro).

(** The body of the loop of [CalculateScores] that builds the record of one
    sector from the five score maps and the raw display metrics. *)
Definition sector_score (s : SectorScorer) (allData : data.AllData.t)
  (momentumScores valuationScores growthScores innovationScores macroScores
   : gomap float)
  (priceReturns : gomap (gomap float)) (relStrength employmentGrowth : gomap float)
  (sector : string) : SectorScore :=
  let momentum := getOrDefault momentumScores sector 50 in
  let valuation := getOrDefault valuationScores sector 50 in
  let growth := getOrDefault growthScores sector 50 in
  let innovation := getOrDefault innovationScores sector 50 in
  let macro := getOrDefault macroScores sector 50 in
  let opp := opportunity (Weights s) momentum valuation growth innovation macro in
  let returns :=
    match lookup sector priceReturns with
    | Some returns => returns
    | None => []
    end in
  {| Sector := sector;
     OpportunityScore := math_Round (opp * 100) / 100;
     Rank := 0;
     MomentumScore := momentum;
     ValuationScore := valuation;
     GrowthScore := growth;
     InnovationScore := innovation;
     MacroScore := macro;
     PriceReturn3Mo := lookup "3mo" returns;
     PriceReturn6Mo := lookup "6mo" returns;
     PriceReturn12Mo := lookup "12mo" returns;
     RelativeStrength := lookup sector relStrength;
     ForwardPE :=
       match lookup sector (data.AllData.SectorInfo allData) with
       | Some info => data.ForwardPE info
       | None => None
       end;
     EmploymentGrowth := lookup sector employmentGrowth;
     RDIntensity := lookup sector (data.AllData.RDData allData) |}.

(** The comparison handed to [sort.Slice]:
    [scores[i].OpportunityScore > scores[j].OpportunityScore]. *)
Definition by_opportunity (a b : SectorScore) : bool :=
  gtb (OpportunityScore a) (OpportunityScore b).

(** CalculateScores computes opportunity scores for all sectors. *)
Definition CalculateScores (s : SectorScorer) (allData : data.AllData.t)
  : panics (list SectorScore) :=
  momentumScores <- CalculateMomentumScore (data.AllData.SectorPrices allData) ;;
  let valuationScores :=
    CalculateValuationScore [] (data.AllData.SectorInfo allData) in
  growthScores <- CalculateGrowthScore (data.AllData.EmploymentData allData) ;;
  let innovationScores := CalculateInnovationScore (data.AllData.RDData allData) in
  macroScores <- CalculateMacroScore (data.AllData.SectorPrices allData)
                                     (data.AllData.MacroData allData) ;;
  priceReturns <- CalculatePriceReturns (data.AllData.SectorPrices allData) ;;
  relStrength <- CalculateRelativeStrength (data.AllData.SectorPrices allData) 12 ;;
  employmentGrowth <-
    CalculateEmploymentGrowth (data.AllData.EmploymentData allData) ;;
  let scores :=
    fold_left
      (fun scores sector =>
         scores ++ [sector_score s allData momentumScores valuationScores
                      growthScores innovationScores macroScores
                      priceReturns relStrength employmentGrowth sector])
      config.SectorNames [] in
  let scores := sort.Slice by_opportunity scores in
  ret (assign_ranks scores).

(** SectorRank contains basic ranking info. *)
Module SectorRank.
Record t := {
  Rank : Z;
  Sector : string;
  Score : float
}.
End SectorRank.

(** ScoreDistribution contains score statistics. *)
Module ScoreDistribution.
Record t := {
  Average : float;
  Max : float;
  Min : float;
  Spread : float
}.
End ScoreDistribution.

(** SummaryReport contains summary statistics and insights. *)
Module SummaryReport.
Record t := {
  Timestamp : string;
  TopSectors : list SectorRank.t;
  BottomSectors : list SectorRank.t;
  ScoreDistribution : ScoreDistribution.t;
  TopSectorDrivers : list string;
  WeightsUsed : gomap float
}.
End SummaryReport.

(** [SectorRank{Rank: sc.Rank, Sector: sc.Sector, Score: sc.OpportunityScore}] *)
Definition rank_of (sc : SectorScore) : SectorRank.t :=
  {| SectorRank.Rank := Rank sc;
     SectorRank.Sector := Sector sc;
     SectorRank.Score := OpportunityScore sc |}.

(** The loop of [GetSummaryReport] over the scores; the state is
    [(sum, maxScore, minScore)]. *)
Definition distribution (scores : list SectorScore) : float * float * float :=
  fold_left (fun '(sum, maxScore, minScore) score =>
               let sum := sum + OpportunityScore score in
               let maxScore :=
                 if gtb (OpportunityScore score) maxScore
                 then OpportunityScore score else maxScore in
               let minScore :=
                 if OpportunityScore score <? minScore
                 then OpportunityScore score else minScore in
               (sum, maxScore, minScore))
            scores (0, 0, 100).

(** The drivers of the top sector: the components that score 70 or more. *)
Definition drivers_of (topSector : SectorScore) : list string :=
  let drivers := [] in
  let drivers :=
    if 70 <=? MomentumScore topSector
    then drivers ++ ["strong momentum"] else drivers in
  let drivers :=
    if 70 <=? ValuationScore topSector
    then drivers ++ ["attractive valuation"] else drivers in
  let drivers :=
    if 70 <=? GrowthScore topSector
    then drivers ++ ["employment growth"] else drivers in
  let drivers :=
    if 70 <=? InnovationScore topSector
    then drivers ++ ["high R&D investment"] else drivers in
  if 70 <=? MacroScore topSector
  then drivers ++ ["favorable macro positioning"] else drivers.

(** GetSummaryReport generates a summary report from sector scores.  [now]
    is [time.Now().Format(time.RFC3339)]; a nil slice or map is the empty
    one. *)
Definition GetSummaryReport (s : SectorScorer) (now : string)
  (scores : list SectorScore) : panics SummaryReport.t :=
  if (len scores =? 0)%Z then
    ret {| SummaryReport.Timestamp := now;
           SummaryReport.TopSectors := [];
           SummaryReport.BottomSectors := [];
           SummaryReport.ScoreDistribution :=
             {| ScoreDistribution.Average := 0;
                ScoreDistribution.Max := 0;
                ScoreDistribution.Min := 0;
                ScoreDistribution.Spread := 0 |};
           SummaryReport.TopSectorDrivers := [];
           SummaryReport.WeightsUsed := [] |}
  else
    topSectors <-
      foldM (fun topSectors i =>
               sc <- index scores i ;;
               ret (topSectors ++ [rank_of sc]))
            (zrange 0 (Z.min 3 (len scores))) [] ;;
    bottomSectors <-
      foldM (fun bottomSectors i =>
               if (i >=? 0)%Z then
                 sc <- index scores i ;;
                 ret (bottomSectors ++ [rank_of sc])
               else ret bottomSectors)
            (zrange (len scores - 3) (len scores)) [] ;;
    let '(sum, maxScore, minScore) := distribution scores in
    let avgScore := sum / of_int (len scores) in
    topSector <- index scores 0 ;;
    ret {| SummaryReport.Timestamp := now;
           SummaryReport.TopSectors := topSectors;
           SummaryReport.BottomSectors := bottomSectors;
           SummaryReport.ScoreDistribution :=
             {| ScoreDistribution.Average := math_Round (avgScore * 100) / 100;
                ScoreDistribution.Max := math_Round (maxScore * 100) / 100;
                ScoreDistribution.Min := math_Round (minScore * 100) / 100;
                ScoreDistribution.Spread :=
                  math_Round ((maxScore - minScore) * 100) / 100 |};
           SummaryReport.TopSectorDrivers := drivers_of topSector;
           SummaryReport.WeightsUsed := Weights s |}.

(** RunAnalysis is a convenience function to run full analysis. *)
Definition RunAnalysis (now : string) (allData : data.AllData.t)
  (weights : option (gomap float))
  : panics (list SectorScore * SummaryReport.t) :=
  let scorer := NewSectorScorer weights in
  scores <- CalculateScores scorer allData ;;
  summary <- GetSummaryReport scorer now scores ;;
  ret (scores, summary).

End analysis.
Import analysis.

(* ================================================================== *)
(** ** Package api: handlers.go *)

Module api.
Local Open Scope float_scope.

Definition params : list string :=
  ["momentum"; "valuation"; "growth"; "innovation"; "macro"].

(** parseWeights extracts scoring weights from query parameters.
    [query param] is the number that
    [strconv.ParseFloat(r.URL.Query().Get(param), 64)] yields without an
    error, [None] when the parameter is absent, empty or not a number.
    [visit m] is the order in which a [range] statement visits the map the
    function has built, which Go leaves open.  The result [None] is the nil
    map. *)
Definition parseWeights (query : string -> option float)
  (visit : gomap float -> gomap float) : option (gomap float) :=
  let '(weights, hasAny) :=
    fold_left (fun '(weights, hasAny) param =>
                 match query param with
                 | Some f =>
                     if (0 <=? f) && (f <=? 1)
                     then (insert param f weights, true)
                     else (weights, hasAny)
                 | None => (weights, hasAny)
                 end)
              params ([], false) in
  if negb hasAny then None
  else
    let defaults := config.DefaultWeights in
    let weights :=
      fold_left (fun weights param =>
                   if negb (mem param weights)
                   then insert param (at_key defaults param) weights
                   else weights)
                params weights in
    let sum := fold_left (fun sum '(_, v) => sum + v) (visit weights) 0 in
    if gtb sum 0
    then Some (fold_left (fun weights '(k, v) => insert k (v / sum) weights)
                         (visit weights) weights)
    else Some weights.

End api.

(* ================================================================== *)
(** * Notions used in the statements *)

Module Notions.
Local Open Scope float_scope.

(** A computation that does not panic. *)
Definition returns {A} (c : panics A) : Prop := exists a, c = Some a.

(** A loop [for k, v := range values { result[k] = f(v) }]. *)
Definition range_insert {V W} (f : V -> W) (values : gomap V)
  (result : gomap W) : gomap W :=
  fold_left (fun result '(k, v) => insert k (f v) result) values result.

(** The score of one value in the spread case of [NormalizeScore]. *)
Definition minmax_of (minVal maxVal : float) (higherIsBetter : bool)
  (val : float) : float :=
  let score := ((val - minVal) / (maxVal - minVal)) * 100 in
  let score := if negb higherIsBetter then 100 - score else score in
  math_Round (score * 100) / 100.

(** The clamped score of one value in [NormalizeScoreZScore], before the
    polarity is applied: [50 + z*15] brought into [0, 100]. *)
Definition clamped (mean std val : float) : float :=
  let z := (val - mean) / std in
  let score := 50 + (z * 15) in
  let score := if score <? 0 then 0 else score in
  if gtb score 100 then 100 else score.

(** [precedes l a b]: some occurrence of [a] in [l] comes before some
    occurrence of [b]. *)
Definition precedes {A} (l : list A) (a b : A) : Prop :=
  exists l1 l2 l3, l = l1 ++ a :: l2 ++ b :: l3.

(** The sorted prefix of the insertion sort, read backwards, after the
    elements of [l] have been sifted into [before]. *)
Definition run {A} (less : A -> A -> bool) (l : list A) (before : list A)
  : list A :=
  fold_left (fun before x => sift less x before) l before.


(** The weighted sum of the five component scores of a record. *)
Definition weighted_sum (w : gomap float) (r : SectorScore) : float :=
  (at_key w "momentum" * MomentumScore r) +
  (at_key w "valuation" * ValuationScore r) +
  (at_key w "growth" * GrowthScore r) +
  (at_key w "innovation" * InnovationScore r) +
  (at_key w "macro" * MacroScore r).

(** Zeros, and zeros or finite numbers, among the specification-level
    floats. *)
Definition SFzero (x : spec_float) : Prop := exists s, x = S754_zero s.

Definition SFfin (x : spec_float) : Prop :=
  match x with
  | S754_zero _ | S754_finite _ _ _ => True
  | _ => False
  end.



(** [0 <= x && x <= 100], the test of a score. *)
Definition in_range (x : float) : bool := (0 <=? x) && (x <=? 100).

(** A score that is NaN or between 0 and 100. *)
Definition nan_or_in_range (s : float) : Prop :=
  is_nan s = true \/ in_range s = true.

(** Every score of a map is NaN or between 0 and 100. *)
Definition scores_ok (m : gomap float) : Prop :=
  forall k s, lookup k m = Some s -> nan_or_in_range s.

(** What the first loop of [NormalizeScore] knows of the values seen: the
    extremes are NaN (the first value was), or they bound every value seen
    that is not NaN. *)
Definition extremes (mn mx : float) (seen : list float) : Prop :=
  is_nan mn = true
  \/ (is_nan mn = false /\ is_nan mx = false
      /\ forall v, In v seen ->
           is_nan v = true \/ ((mn <=? v) = true /\ (v <=? mx) = true)).

(** The return in percent over the last [tradingDays] bars of a series, as
    [CalculatePriceReturns] computes it. *)
Definition period_return (series : data.PriceSeries) (tradingDays : Z)
  : option float :=
  startBar <- index series (len series - tradingDays) ;;
  endBar <- index series (len series - 1) ;;
  ret (((data.Close endBar - data.Close startBar) / data.Close startBar) * 100).

(** The inner loop of [CalculatePriceReturns] over the three periods. *)
Definition sector_returns (series : data.PriceSeries) : panics (gomap float) :=
  foldM (fun sectorReturns months =>
           let tradingDays := (months * 21)%Z in
           if (len series >=? tradingDays)%Z then
             startBar <- index series (len series - tradingDays) ;;
             endBar <- index series (len series - 1) ;;
             let startPrice := data.Close startBar in
             let endPrice := data.Close endBar in
             let r := ((endPrice - startPrice) / startPrice) * 100 in
             ret (insert (periodKey months) r sectorReturns)
           else ret sectorReturns)
        config.MomentumPeriods [].

(** The return in percent over the last [tradingDays] bars of a series, as
    [CalculateRelativeStrength] computes it. *)
Definition ratio_return (series : data.PriceSeries) (tradingDays : Z)
  : option float :=
  last <- index series (len series - 1) ;;
  first <- index series (len series - tradingDays) ;;
  ret ((data.Close last / data.Close first - 1) * 100).

(** The average volume of the last [period] bars of a series, as
    [CalculateVolumeTrend] computes it. *)
Definition average_volume (series : data.PriceSeries) (period : Z)
  : option float :=
  sum <- volume_sum series (len series - period) ;;
  ret (of_int sum / of_int period).

(** The relative changes between neighbours of the list [prev :: rest],
    those from a zero left out. *)
Fixpoint changes (prev : float) (rest : list float) : list float :=
  match rest with
  | [] => []
  | cur :: rest' =>
      (if prev =? 0 then [] else [(cur - prev) / prev]) ++ changes cur rest'
  end.

(** What the loop of [GetSummaryReport] knows of the scores seen: each
    extreme is its start value or a score seen, the maximum is at least 0
    and below no score seen, the minimum at most 100 and above none. *)
Definition bounds_seen (maxScore minScore : float) (seen : list SectorScore)
  : Prop :=
  ((maxScore = 0 \/ exists r, In r seen /\ maxScore = OpportunityScore r)
   /\ (0 <=? maxScore) = true
   /\ forall r, In r seen -> (maxScore <? OpportunityScore r) = false)
  /\ ((minScore = 100 \/ exists r, In r seen /\ minScore = OpportunityScore r)
      /\ (minScore <=? 100) = true
      /\ forall r, In r seen -> (OpportunityScore r <? minScore) = false).

(** A pass of the bubble sort over [x :: l] as a function: the latest date
    seen so far is carried to the end. *)
Fixpoint bubble (x : Z * float) (l : list (Z * float)) : list (Z * float) :=
  match l with
  | [] => [x]
  | y :: l' =>
      if (fst y <? fst x)%Z then y :: bubble x l' else x :: bubble y l'
  end.

(** A time series as the list of its observations. *)
Definition series_of (zs : list (Z * float)) : data.TimeSeries :=
  {| data.Dates := map fst zs; data.Values := map snd zs |}.

(** The number [parseWeights] accepts for a parameter: one the query gives
    and that lies in [0, 1]. *)
Definition accepted (query : string -> option float) (param : string)
  : option float :=
  match query param with
  | Some f => if (0 <=? f) && (f <=? 1) then Some f else None
  | None => None
  end.

(** The weight of a parameter before [parseWeights] rescales: the accepted
    number, or the default weight. *)
Definition given_or_default (query : string -> option float) (param : string)
  : float :=
  match accepted query param with
  | Some f => f
  | None => at_key config.DefaultWeights param
  end.


End Notions.
Import Notions.

(* ================================================================== *)
(** * The real numbers behind binary64

    Error bounds are stated over the real numbers: a finite float [x]
    denotes the real [to_R x], and an arithmetic operation returns the
    binary64 number nearest to its exact result, ties to even. *)

Module Binary64.
Local Open Scope R_scope.

(** Powers of two with integer exponents. *)
Definition bpow (e : Z) : R := powerRZ 2 e.

(** The exponent of the binary64 numbers of magnitude [e]. *)
Definition fexp64 (e : Z) : Z := SpecFloat.fexp prec emax e.

(** [inbetween m l t]: the real [t] lies in [[m, m+1)], at the place the
    location [l] says. *)
Definition inbetween (m : Z) (l : location) (t : R) : Prop :=
  match l with
  | loc_Exact => t = IZR m
  | loc_Inexact Lt => IZR m < t < IZR m + / 2
  | loc_Inexact Eq => t = IZR m + / 2
  | loc_Inexact Gt => IZR m + / 2 < t < IZR m + 1
  end.

(** A shift record whose mantissa, round bit and sticky bit locate [t]. *)
Definition rec_ok (mrs : shr_record) (t : R) : Prop :=
  (0 <= shr_m mrs)%Z /\ inbetween (shr_m mrs) (loc_of_shr_record mrs) t.

(** The integer nearest to [t], ties to even. *)
Definition rne (t : R) : Z :=
  let m := Zfloor t in
  match total_order_T (t - IZR m) (/ 2) with
  | inleft (left _) => m
  | inleft (right _) => if Z.even m then m else (m + 1)%Z
  | inright _ => (m + 1)%Z
  end.

(** The value of a rounded result of sign [sx]: zero, a finite number of
    magnitude [v], or an overflow to infinity. *)
Definition rounds_to (sx : bool) (v : R) (res : spec_float) : Prop :=
  (v = 0 /\ res = S754_zero sx)
  \/ (exists m e, res = S754_finite sx m e /\ IZR (Zpos m) * bpow e = v)
  \/ (res = S754_infinity sx /\ bpow 1024 <= v).

(** The real of magnitude [v] and sign bit [s]. *)
Definition sgn (s : bool) (v : R) : R := if s then - v else v.

(** The real number a finite float denotes ([0] for the others). *)
Definition SF2R (x : spec_float) : R :=
  match x with
  | S754_finite s m e => sgn s (IZR (Zpos m) * bpow e)
  | _ => 0
  end.

(** The real number a float denotes. *)
Definition to_R (x : float) : R := SF2R (Prim2SF x).

(** Zero or a finite number: neither NaN nor an infinity. *)
Definition fin (x : float) : Prop := SFfin (Prim2SF x).

(** [w] is [v] rounded: relative error at most [2^-53], or absolute error
    at most [2^-1075] below the normal range. *)
Definition round_err (v w : R) : Prop :=
  Rabs (w - v) <= bpow (-53) * Rabs v + bpow (-1075).

(** [res] is the real [V] rounded to binary64. *)
Definition rounding (V : R) (res : spec_float) : Prop :=
  exists sx mx ex lx t,
    (0 <= mx)%Z /\ inbetween mx lx t
    /\ (ex <= fexp64 (Zdigits2 mx + ex))%Z
    /\ V = sgn sx (t * bpow ex)
    /\ res = binary_round_aux prec emax sx mx ex lx.

(** A real number that is a positive binary64 number. *)
Definition representable (B : R) : Prop :=
  exists mb eb,
    B = IZR (Zpos mb) * bpow eb
    /\ fexp64 (Zdigits2 (Zpos mb) + eb) = eb /\ (eb <= 971)%Z.

(** A finite float whose value lies between two reals. *)
Definition ranged (lo hi : R) (x : float) : Prop :=
  fin x /\ lo <= to_R x <= hi.

(** A finite float of magnitude at most 1000. *)
Definition bounded (x : float) : Prop := fin x /\ Rabs (to_R x) <= 1000.




(** The test of a weight in [0, 1]. *)
Definition unit_weight (x : float) : bool := ((0 <=? x) && (x <=? 1))%float.

(** The five weights a scorer reads lie in [0, 1]. *)
Definition unit_weights (w : gomap float) : bool :=
  forallb unit_weight
    [at_key w "momentum"; at_key w "valuation"; at_key w "growth";
     at_key w "innovation"; at_key w "macro"].

(** The exact sum of the five weights a scorer reads, in real arithmetic. *)
Definition weight_total (w : gomap float) : R :=
  to_R (at_key w "momentum") + to_R (at_key w "valuation")
  + to_R (at_key w "growth") + to_R (at_key w "innovation")
  + to_R (at_key w "macro").

(** The exact sum of the values of a map, in real arithmetic. *)
Definition exact_sum (l : gomap float) : R :=
  fold_right (fun '(_, v) acc => to_R v + acc) 0 l.

End Binary64.
Import Binary64.

(* ================================================================== *)
(** * Concrete inputs *)

Module Examples.
Local Open Scope float_scope.

Definition snapshot (info : gomap data.SectorInfo) (rd : data.RDData)
  : data.AllData.t :=
  {| data.AllData.SectorPrices := [];
     data.AllData.SectorInfo := info;
     data.AllData.MacroData := [];
     data.AllData.EmploymentData := [];
     data.AllData.RDData := rd;
     data.AllData.FetchedAt := 0 |}.

Definition forward_pe (pe : float) : data.SectorInfo :=
  {| data.ForwardPE := Some pe;
     data.TrailingPE := None;
     data.DividendYield := None;
     data.AvgVolume := None;
     data.MarketCap := None |}.

(** Forward P/E known for two sectors only. *)
Definition two_pe : gomap data.SectorInfo :=
  [("Information Technology", forward_pe 30); ("Energy", forward_pe 10)].

Definition pe_snapshot : data.AllData.t := snapshot two_pe [].

(** As [pe_snapshot], and one single sector with an R&D intensity. *)
Definition single_rd_snapshot : data.AllData.t :=
  snapshot two_pe [("Financials", 0.05)].


Definition wide_three : gomap float := [("A", 0); ("B", 1); ("C", 800)].



(** A bar that opens and closes at [close] with [volume] shares traded. *)
Definition bar (close : float) (volume : Z) : data.PriceBar :=
  {| data.Date := 0;
     data.Open := close;
     data.High := close;
     data.Low := close;
     data.Close := close;
     data.Volume := volume |}.

(** Three months of prices: 63 bars for Energy and for the benchmark, and
    30 bars, too few for any period, for Utilities. *)
Definition quarter_prices : data.SectorPrices :=
  [("Energy", bar 10 100 :: repeat (bar 11 100) 62);
   ("Utilities", repeat (bar 5 100) 30);
   ("_benchmark", bar 100 100 :: repeat (bar 105 100) 62)].

Definition monthly (values : list float) : data.TimeSeries :=
  {| data.Dates := []; data.Values := values |}.

(** Thirteen months of employment for Energy, from 100 to 110. *)
Definition energy_jobs : data.EmploymentData :=
  [("Energy", monthly (repeat 100 12 ++ [110]))].

(** Three observations of the 10-year rate. *)
Definition three_rates : data.MacroData :=
  [("treasury_10y", monthly [1; 2; 3])].

(** Three observations out of order. *)
Definition unsorted_series : data.TimeSeries :=
  {| data.Dates := [3; 1; 2]%Z; data.Values := [30; 10; 20] |}.

(** A query that carries [momentum=1] and no other weight. *)
Definition momentum_only (param : string) : option float :=
  if (param =? "momentum")%string then Some 1 else None.

(** A map visited from its last entry to its first. *)
Definition backwards (m : gomap float) : gomap float := rev m.

End Examples.
(* ================================================================== *)
(** * Properties *)

(** ** Order facts on binary64 values *)

Module FloatFacts.

(** Case analysis on every comparison of exponents and mantissas. *)
Ltac cmp_cases :=
  repeat match goal with
  | |- context [Z.compare ?a ?b] =>
      let H := fresh "Hc" in destruct (Z.compare_spec a b) as [H|H|H]
  | |- context [Pos.compare_cont Eq ?a ?b] =>
      change (Pos.compare_cont Eq a b) with (Pos.compare a b)
  | |- context [Pos.compare ?a ?b] =>
      let H := fresh "Hc" in destruct (Pos.compare_spec a b) as [H|H|H]
  end.

Ltac sf_crush :=
  unfold SFltb, SFeqb, SFleb, SFcompare;
  repeat match goal with
  | |- forall x : spec_float, _ => let x := fresh "x" in intro x; destruct x
  end;
  repeat match goal with
  | b : bool |- _ => destruct b
  end;
  simpl; try congruence; try tauto;
  cmp_cases; simpl; try congruence; try tauto; try lia;
  intros; try split; try congruence; try lia.

Lemma SFltb_asym : forall x y, SFltb x y = true -> SFltb y x = false.
Proof. sf_crush. Qed.

Lemma SFltb_negtrans : forall x y z,
  SFeqb y y = true ->
  SFltb x y = false -> SFltb y z = false -> SFltb x z = false.
Proof. sf_crush. Qed.


Lemma SFltb_irrefl : forall x, SFltb x x = false.
Proof. sf_crush. Qed.

Local Open Scope float_scope.

(** [x < y] excludes [y < x]. *)
Lemma ltb_asym (x y : float) : (x <? y) = true -> (y <? x) = false.
Proof. rewrite !ltb_spec. apply SFltb_asym. Qed.

Lemma ltb_irrefl (x : float) : (x <? x) = false.
Proof. rewrite ltb_spec. apply SFltb_irrefl. Qed.

(** "Not below" is transitive through a value that is not NaN. *)
Lemma ltb_negtrans (x y z : float) :
  is_nan y = false ->
  (x <? y) = false -> (y <? z) = false -> (x <? z) = false.
Proof.
  unfold is_nan. rewrite negb_false_iff, eqb_spec, !ltb_spec.
  apply SFltb_negtrans.
Qed.


End FloatFacts.

(** ** Facts on Go maps *)

Module GoMapFacts.

Section Facts.
Context {V : Type}.
Implicit Types (m : gomap V) (k : string) (v : V).

Lemma lookup_insert_eq k v m : lookup k (insert k v m) = Some v.
Proof.
  induction m as [|[k' v'] m IH]; simpl.
  - now rewrite String.eqb_refl.
  - destruct (String.eqb k k') eqn:E; simpl; rewrite ?String.eqb_refl, ?E; auto.
Qed.

Lemma lookup_insert_ne k k' v m :
  k <> k' -> lookup k (insert k' v m) = lookup k m.
Proof.
  intros Hne. induction m as [|[k0 v0] m IH]; simpl.
  - apply String.eqb_neq in Hne. now rewrite Hne.
  - destruct (String.eqb k' k0) eqn:E; simpl.
    + apply String.eqb_eq in E. subst k0.
      apply String.eqb_neq in Hne. now rewrite Hne.
    + now rewrite IH.
Qed.

Lemma lookup_insert k k' v m :
  lookup k (insert k' v m) = if String.eqb k k' then Some v else lookup k m.
Proof.
  destruct (String.eqb k k') eqn:E.
  - apply String.eqb_eq in E. subst. apply lookup_insert_eq.
  - apply String.eqb_neq in E. now apply lookup_insert_ne.
Qed.

Lemma in_keys_lookup k m : In k (keys m) <-> lookup k m <> None.
Proof.
  unfold keys. induction m as [|[k' v'] m IH]; simpl.
  - split; [tauto | congruence].
  - destruct (String.eqb k k') eqn:E.
    + apply String.eqb_eq in E. subst. split; [congruence | auto].
    + apply String.eqb_neq in E. rewrite <- IH. split; [|auto].
      intros [H|H]; [congruence | assumption].
Qed.

Lemma lookup_None_keys k m : lookup k m = None <-> ~ In k (keys m).
Proof.
  rewrite in_keys_lookup. destruct (lookup k m); split; intros H; try congruence.
  exfalso. apply H. congruence.
Qed.

Lemma mem_keys k m : mem k m = true <-> In k (keys m).
Proof.
  unfold mem. rewrite in_keys_lookup.
  destruct (lookup k m); split; congruence.
Qed.

Lemma keys_insert k k' v m :
  In k (keys (insert k' v m)) <-> k = k' \/ In k (keys m).
Proof.
  rewrite !in_keys_lookup, lookup_insert.
  destruct (String.eqb k k') eqn:E.
  - apply String.eqb_eq in E. split; [auto | congruence].
  - apply String.eqb_neq in E. split; [auto | tauto].
Qed.

Lemma wf_insert k v m : wf m -> wf (insert k v m).
Proof.
  unfold wf. induction m as [|[k' v'] m IH]; simpl; intros Hnd.
  - constructor; [simpl; tauto | constructor].
  - inversion Hnd as [|? ? Hnin Hnd']; subst.
    destruct (String.eqb k k') eqn:E; simpl.
    + apply String.eqb_eq in E. subst. now constructor.
    + constructor; [|auto].
      fold (keys (insert k v m)). rewrite keys_insert.
      apply String.eqb_neq in E. intros [H|H]; [congruence | contradiction].
Qed.

Lemma lookup_In k v m : lookup k m = Some v -> In (k, v) m.
Proof.
  induction m as [|[k' v'] m IH]; simpl; [congruence|].
  destruct (String.eqb k k') eqn:E.
  - apply String.eqb_eq in E. intros [= ->]. subst. now left.
  - auto.
Qed.

Lemma In_lookup k v m : wf m -> In (k, v) m -> lookup k m = Some v.
Proof.
  unfold wf. induction m as [|[k' v'] m IH]; simpl; [tauto|].
  intros Hnd. inversion Hnd as [|? ? Hnin Hnd']; subst.
  intros [[= -> ->]|Hin].
  - now rewrite String.eqb_refl.
  - destruct (String.eqb k k') eqn:E; [|auto].
    apply String.eqb_eq in E. subst. exfalso. apply Hnin.
    change (In (fst (k', v)) (map fst m)). now apply in_map.
Qed.

Lemma len_zero (m : gomap V) : (len m =? 0)%Z = true <-> m = [].
Proof.
  unfold len. destruct m; simpl; split; try reflexivity; discriminate.
Qed.

End Facts.

(** Facts on [range_insert]. *)
Section RangeInsert.
Context {V W : Type} (f : V -> W).

Lemma keys_range_insert (values : gomap V) (result : gomap W) k :
  In k (keys (range_insert f values result))
  <-> In k (keys result) \/ In k (keys values).
Proof.
  unfold range_insert. revert result.
  induction values as [|[k0 v0] values IH]; intros result; simpl.
  - tauto.
  - rewrite IH, keys_insert. intuition.
Qed.

Lemma wf_range_insert (values : gomap V) (result : gomap W) :
  wf result -> wf (range_insert f values result).
Proof.
  unfold range_insert. revert result.
  induction values as [|[k0 v0] values IH]; intros result Hwf; simpl; auto.
  apply IH. now apply wf_insert.
Qed.

Lemma lookup_range_insert (values : gomap V) (result : gomap W) k :
  wf values ->
  lookup k (range_insert f values result) =
  match lookup k values with
  | Some v => Some (f v)
  | None => lookup k result
  end.
Proof.
  unfold range_insert, wf. revert result.
  induction values as [|[k0 v0] values IH]; intros result Hnd; simpl; auto.
  inversion Hnd as [|? ? Hnin Hnd']; subst.
  rewrite IH by assumption.
  destruct (String.eqb k k0) eqn:E.
  - apply String.eqb_eq in E. subst k0.
    apply lookup_None_keys in Hnin. rewrite Hnin. apply lookup_insert_eq.
  - destruct (lookup k values); auto.
    apply String.eqb_neq in E. now apply lookup_insert_ne.
Qed.

End RangeInsert.

End GoMapFacts.

(** ** The normalizer *)

Module NormalizerFacts.
Import GoMapFacts.
Local Open Scope float_scope.

Lemma collect_values (values : gomap float) (acc : list float) :
  fold_left (fun vals '(_, v) => vals ++ [v]) values acc = acc ++ map snd values.
Proof.
  revert acc. induction values as [|[k v] values IH]; intros acc; simpl.
  - now rewrite app_nil_r.
  - rewrite IH, <- app_assoc. reflexivity.
Qed.

(** [NormalizeScoreZScore] as a case distinction on the deviation. *)
Lemma NormalizeScoreZScore_eq (values : gomap float) (higherIsBetter : bool) :
  NormalizeScoreZScore values higherIsBetter =
  if (len values =? 0)%Z then []
  else if stat.StdDev (map snd values) =? 0
       then range_insert (fun _ => 50) values []
       else range_insert (zscore_of (stat.Mean (map snd values))
                                    (stat.StdDev (map snd values))
                                    higherIsBetter) values [].
Proof.
  unfold NormalizeScoreZScore. rewrite collect_values. reflexivity.
Qed.

Lemma NormalizeScore_eq (values : gomap float) (higherIsBetter : bool) :
  NormalizeScore values higherIsBetter =
  if (len values =? 0)%Z then []
  else if snd (fst (minmax values)) =? fst (fst (minmax values))
       then range_insert (fun _ => 50) values []
       else range_insert (minmax_of (fst (fst (minmax values)))
                                    (snd (fst (minmax values)))
                                    higherIsBetter) values [].
Proof.
  unfold NormalizeScore. destruct (minmax values) as [[mn mx] b]. reflexivity.
Qed.

(** Both methods return a map over exactly the keys of the input. *)
Lemma NormalizeScore_keys values higherIsBetter k :
  In k (keys (NormalizeScore values higherIsBetter)) <-> In k (keys values).
Proof.
  rewrite NormalizeScore_eq.
  destruct (len values =? 0)%Z eqn:E.
  - apply len_zero in E. subst. reflexivity.
  - destruct (_ =? _); rewrite keys_range_insert; simpl; tauto.
Qed.

Lemma NormalizeScoreZScore_keys values higherIsBetter k :
  In k (keys (NormalizeScoreZScore values higherIsBetter)) <-> In k (keys values).
Proof.
  rewrite NormalizeScoreZScore_eq.
  destruct (len values =? 0)%Z eqn:E.
  - apply len_zero in E. subst. reflexivity.
  - destruct (_ =? _); rewrite keys_range_insert; simpl; tauto.
Qed.

Lemma wf_nil {V} : wf (@nil (string * V)).
Proof. constructor. Qed.

Lemma NormalizeScore_wf values higherIsBetter :
  wf (NormalizeScore values higherIsBetter).
Proof.
  rewrite NormalizeScore_eq.
  destruct (len values =? 0)%Z; [apply wf_nil|].
  destruct (_ =? _); apply wf_range_insert, wf_nil.
Qed.

Lemma NormalizeScoreZScore_wf values higherIsBetter :
  wf (NormalizeScoreZScore values higherIsBetter).
Proof.
  rewrite NormalizeScoreZScore_eq.
  destruct (len values =? 0)%Z; [apply wf_nil|].
  destruct (_ =? _); apply wf_range_insert, wf_nil.
Qed.

(** The extreme values found by [minmax] are values of the map. *)
Lemma minmax_In (values : gomap float) :
  values <> [] ->
  In (fst (fst (minmax values))) (map snd values)
  /\ In (snd (fst (minmax values))) (map snd values)
  /\ snd (minmax values) = false.
Proof.
  unfold minmax.
  match goal with |- context [fold_left ?F _ _] => set (step := F) end.
  assert (Hgen : forall (vs : gomap float) (mn mx : float),
    (fst (fst (fold_left step vs (mn, mx, false))) = mn
     \/ In (fst (fst (fold_left step vs (mn, mx, false)))) (map snd vs))
    /\ (snd (fst (fold_left step vs (mn, mx, false))) = mx
        \/ In (snd (fst (fold_left step vs (mn, mx, false)))) (map snd vs))
    /\ snd (fold_left step vs (mn, mx, false)) = false).
  { induction vs as [|[k v] vs IH]; intros mn mx; simpl.
    - auto.
    - specialize (IH (if v <? mn then v else mn) (if gtb v mx then v else mx)).
      destruct IH as (H1 & H2 & H3). repeat split; auto.
      + destruct H1 as [H1|H1]; [|auto]. rewrite H1.
        destruct (v <? mn); auto.
      + destruct H2 as [H2|H2]; [|auto]. rewrite H2.
        destruct (gtb v mx); auto. }
  destruct values as [|[k v] vs]; [congruence|]. intros _. simpl.
  destruct (Hgen vs v v) as (H1 & H2 & H3).
  repeat split; auto.
  - destruct H1; auto.
  - destruct H2; auto.
Qed.

(** Min-max normalisation of a non-empty map whose values are all equal
    gives 50 for every key. *)
Lemma NormalizeScore_all_equal values higherIsBetter k :
  (forall v w, In v (map snd values) -> In w (map snd values) -> (v =? w) = true) ->
  In k (keys values) ->
  lookup k (NormalizeScore values higherIsBetter) = Some 50.
Proof.
  intros Heq Hk. rewrite NormalizeScore_eq.
  destruct (len values =? 0)%Z eqn:E.
  { apply len_zero in E. subst. destruct Hk. }
  assert (Hne : values <> []) by (intros ->; discriminate).
  destruct (minmax_In values Hne) as (Hmn & Hmx & _).
  rewrite (Heq _ _ Hmx Hmn).
  apply in_keys_lookup in Hk.
  assert (Hgen : forall (vs acc : gomap float),
    In k (keys vs) \/ lookup k acc = Some 50 ->
    lookup k (range_insert (fun _ => 50) vs acc) = Some 50).
  { unfold range_insert. induction vs as [|[k0 v0] vs IH]; intros acc [H|H]; simpl; auto.
    - destruct H.
    - apply IH. simpl in H. destruct H as [H|H]; [|auto].
      right. subst. apply lookup_insert_eq.
    - apply IH. right. rewrite lookup_insert. destruct (String.eqb k k0); auto. }
  apply Hgen. left. now apply in_keys_lookup.
Qed.

End NormalizerFacts.

(** ** No calculator panics *)

Module PanicFacts.
Local Open Scope Z_scope.

Lemma returns_ret {A} (a : A) : returns (ret a).
Proof. now exists a. Qed.

Lemma returns_bind {A B} (c : panics A) (k : A -> panics B) :
  returns c -> (forall a, returns (k a)) -> returns (c' <- c ;; k c').
Proof. intros [a ->] Hk. apply Hk. Qed.

Lemma foldM_returns {A B} (f : B -> A -> panics B) (l : list A) (b : B) :
  (forall b a, In a l -> returns (f b a)) -> returns (foldM f l b).
Proof.
  revert b. induction l as [|a l IH]; intros b Hf; simpl.
  - apply returns_ret.
  - apply returns_bind.
    + apply Hf. now left.
    + intros b'. apply IH. intros b0 a0 Hin. apply Hf. now right.
Qed.

Lemma index_returns {A} (s : list A) (i : Z) :
  0 <= i < len s -> returns (index s i).
Proof.
  unfold index, len, returns. intros [H0 H1].
  destruct (i <? 0) eqn:E; [lia|].
  destruct (nth_error s (Z.to_nat i)) eqn:En; [eauto|].
  apply nth_error_None in En. lia.
Qed.

Lemma In_zrange (lo hi i : Z) : In i (zrange lo hi) -> lo <= i < hi.
Proof.
  unfold zrange. rewrite in_map_iff. intros (k & <- & Hk).
  apply in_seq in Hk. lia.
Qed.

Lemma In_zstride (lo step hi i : Z) :
  0 < step -> In i (zstride lo step hi) -> lo <= i < hi.
Proof.
  unfold zstride. intros Hs. rewrite in_map_iff. intros (k & <- & Hk).
  apply in_seq in Hk.
  assert (Hq : Z.of_nat k < (hi - lo + step - 1) / step) by lia.
  assert (Hq' : Z.of_nat k + 1 <= (hi - lo + step - 1) / step) by lia.
  assert (step * (Z.of_nat k + 1) <= hi - lo + step - 1).
  { etransitivity; [apply Z.mul_le_mono_nonneg_l; [lia | exact Hq']|].
    apply Z.mul_div_le. lia. }
  nia.
Qed.

Lemma len_nonneg {A} (s : list A) : 0 <= len s.
Proof. unfold len. lia. Qed.

Lemma len_skipn {A} (s : list A) (n : Z) :
  0 <= n <= len s -> len (skipn (Z.to_nat n) s) = len s - n.
Proof. unfold len. intros H. rewrite length_skipn. lia. Qed.

Ltac step_bind :=
  apply returns_bind; [try (apply index_returns; lia) | intros ?].

Lemma CalculatePriceReturns_returns prices : returns (CalculatePriceReturns prices).
Proof.
  unfold CalculatePriceReturns. apply foldM_returns.
  intros returns0 [sector series] _.
  destruct (_ || _) eqn:E; [apply returns_ret|].
  apply orb_false_iff in E. destruct E as [_ E]. apply Z.ltb_ge in E.
  step_bind.
  - apply foldM_returns. intros acc months Hin.
    destruct (len series >=? months * 21) eqn:Eg; [|apply returns_ret].
    assert (months = 3 \/ months = 6 \/ months = 12) as Hm
      by (simpl in Hin; intuition).
    repeat step_bind. apply returns_ret.
  - destruct (_ >? _); apply returns_ret.
Qed.

Lemma CalculateRelativeStrength_returns prices :
  returns (CalculateRelativeStrength prices 12).
Proof.
  unfold CalculateRelativeStrength.
  destruct (lookup _ prices) as [b|]; [|apply returns_ret].
  destruct (len b =? 0) eqn:E0; [apply returns_ret|].
  destruct (len b <? 12 * 21) eqn:E1; [apply returns_ret|].
  apply Z.ltb_ge in E1.
  repeat step_bind.
  apply foldM_returns. intros acc [sector series] _.
  destruct (_ || _) eqn:E; [apply returns_ret|].
  apply orb_false_iff in E. destruct E as [_ E]. apply Z.ltb_ge in E.
  repeat step_bind. apply returns_ret.
Qed.

Lemma volume_sum_returns series lo :
  0 <= lo -> returns (volume_sum series lo).
Proof.
  intros Hlo. unfold volume_sum. apply foldM_returns.
  intros sum i Hin. apply In_zrange in Hin.
  step_bind. apply returns_ret.
Qed.

Lemma CalculateVolumeTrend_returns prices :
  returns (CalculateVolumeTrend prices 20 50).
Proof.
  unfold CalculateVolumeTrend. apply foldM_returns.
  intros acc [sector series] _.
  destruct (_ || _) eqn:E; [apply returns_ret|].
  apply orb_false_iff in E. destruct E as [_ E]. apply Z.ltb_ge in E.
  apply returns_bind; [apply volume_sum_returns; lia | intros shortSum].
  apply returns_bind; [apply volume_sum_returns; lia | intros longSum].
  destruct (gtb _ _); apply returns_ret.
Qed.

Lemma CalculateMomentumScore_returns prices :
  returns (CalculateMomentumScore prices).
Proof.
  unfold CalculateMomentumScore.
  apply returns_bind; [apply CalculatePriceReturns_returns | intros ?].
  apply returns_bind; [apply CalculateRelativeStrength_returns | intros ?].
  apply returns_bind; [apply CalculateVolumeTrend_returns | intros ?].
  apply returns_ret.
Qed.

Lemma CalculateEmploymentGrowth_returns employment :
  returns (CalculateEmploymentGrowth employment).
Proof.
  unfold CalculateEmploymentGrowth. apply foldM_returns.
  intros acc [sector ts] _.
  destruct (len _ <? 13) eqn:E; [apply returns_ret|].
  apply Z.ltb_ge in E.
  repeat step_bind. destruct (gtb _ _); apply returns_ret.
Qed.

Lemma CalculateGrowthScore_returns employment :
  returns (CalculateGrowthScore employment).
Proof.
  unfold CalculateGrowthScore.
  apply returns_bind; [apply CalculateEmploymentGrowth_returns | intros ?].
  destruct (_ =? _); apply returns_ret.
Qed.

Lemma monthlyChanges_returns ts : returns (monthlyChanges ts).
Proof.
  unfold monthlyChanges.
  destruct (len _ <? 2); [apply returns_ret|].
  apply foldM_returns. intros acc i Hin. apply In_zrange in Hin.
  step_bind. destruct (negb _); [|apply returns_ret].
  step_bind. apply returns_ret.
Qed.

Lemma monthlyReturnsFromPrices_returns series :
  returns (monthlyReturnsFromPrices series).
Proof.
  unfold monthlyReturnsFromPrices.
  destruct (len _ <? 21); [apply returns_ret|].
  apply foldM_returns. intros acc i Hin. apply In_zstride in Hin; [|lia].
  repeat step_bind. destruct (gtb _ _); apply returns_ret.
Qed.

Lemma slice_from_returns {A} (s : list A) (lo : Z) :
  0 <= lo <= len s -> slice_from s lo = Some (skipn (Z.to_nat lo) s).
Proof.
  intros H. unfold slice_from.
  destruct (lo <? 0) eqn:E1; [lia|].
  destruct (len s <? lo) eqn:E2; [lia|]. reflexivity.
Qed.

Lemma Correlation_returns x y : len x = len y -> returns (stat.Correlation x y).
Proof.
  intros H. unfold stat.Correlation. rewrite H, Z.eqb_refl. simpl.
  destruct (fold_left _ _ _) as [[[[sxx syy] sxy] xc] yc]. apply returns_ret.
Qed.

Lemma CalculateRateSensitivity_returns prices interestRates :
  returns (CalculateRateSensitivity prices interestRates).
Proof.
  unfold CalculateRateSensitivity.
  destruct (len _ =? 0); [apply returns_ret|].
  apply returns_bind; [apply monthlyChanges_returns | intros rateChanges].
  apply foldM_returns. intros acc [sector series] _.
  destruct (_ || _); [apply returns_ret|].
  apply returns_bind; [apply monthlyReturnsFromPrices_returns | intros sectorReturns].
  destruct (_ || _); [apply returns_ret|].
  destruct (_ <? 12); [apply returns_ret|].
  pose proof (len_nonneg sectorReturns). pose proof (len_nonneg rateChanges).
  rewrite !slice_from_returns by lia. simpl.
  apply returns_bind.
  - apply Correlation_returns. rewrite !len_skipn by lia. lia.
  - intros corr. destruct (negb _); apply returns_ret.
Qed.

Lemma CalculateMacroScore_returns prices macroData :
  returns (CalculateMacroScore prices macroData).
Proof.
  unfold CalculateMacroScore.
  destruct (lookup _ macroData) as [r|]; [|apply returns_ret].
  apply returns_bind; [apply CalculateRateSensitivity_returns | intros ?].
  destruct (_ =? _); apply returns_ret.
Qed.

End PanicFacts.

(** ** The insertion sort of package sort *)

Module SortFacts.

Section Precedes.
Context {A : Type}.
Implicit Types (l : list A) (a b x : A).




Lemma precedes_In l a b : precedes l a b -> In a l /\ In b l.
Proof.
  intros (l1 & l2 & l3 & ->). split; apply in_or_app; right.
  - now left.
  - right. apply in_or_app. right. now left.
Qed.



End Precedes.

Lemma precedes_map {A B} (f : A -> B) (l : list A) (x y : B) :
  precedes (map f l) x y ->
  exists a b, precedes l a b /\ f a = x /\ f b = y.
Proof.
  intros (m1 & m2 & m3 & H).
  apply map_eq_app in H. destruct H as (l1 & r & -> & _ & H).
  apply map_eq_cons in H. destruct H as (a & r' & -> & Ha & H).
  apply map_eq_app in H. destruct H as (l2 & r'' & -> & _ & H).
  apply map_eq_cons in H. destruct H as (b & l3 & -> & Hb & _).
  exists a, b. split; [now exists l1, l2, l3 | auto].
Qed.


Section InsertionSort.
Context {A : Type} (less : A -> A -> bool).

Lemma insertionSort_run l : insertionSort less l = rev (run less l []).
Proof. reflexivity. Qed.

Lemma sift_perm x before : Permutation (sift less x before) (x :: before).
Proof.
  induction before as [|y rest IH]; simpl; [reflexivity|].
  destruct (less x y); [|reflexivity].
  rewrite IH. apply perm_swap.
Qed.

Lemma run_perm l before : Permutation (run less l before) (rev l ++ before).
Proof.
  unfold run. revert before.
  induction l as [|x l IH]; intros before; simpl; [reflexivity|].
  rewrite IH, sift_perm, <- app_assoc. reflexivity.
Qed.

(** The sort rearranges the slice. *)
Lemma insertionSort_perm l : Permutation (insertionSort less l) l.
Proof.
  rewrite insertionSort_run, <- Permutation_rev, run_perm, app_nil_r.
  symmetry. apply Permutation_rev.
Qed.

(** *** Order of the result *)

Section Sorted.
(** [less] never holds both ways, and "not less" is transitive through the
    elements that satisfy [P]. *)
Variable P : A -> Prop.
Hypothesis less_asym : forall a b, less a b = true -> less b a = false.
Hypothesis less_negtrans : forall a b c,
  P b -> less a b = false -> less b c = false -> less a c = false.

Let R (y z : A) : Prop := less y z = false.




End Sorted.

(** *** Stability *)




End InsertionSort.
End SortFacts.

(** ** The scoring engine *)

Module ScoringFacts.
Import GoMapFacts PanicFacts SortFacts.
Local Open Scope float_scope.

Lemma nth_error_combine {A B} (l : list A) (l' : list B) (n : nat) :
  nth_error (combine l l') n =
  match nth_error l n, nth_error l' n with
  | Some a, Some b => Some (a, b)
  | _, _ => None
  end.
Proof.
  revert l l'. induction n as [|n IH]; intros [|a l] [|b l']; simpl; auto.
  destruct (nth_error l n); reflexivity.
Qed.

Lemma nth_error_zrange (lo hi : Z) (n : nat) :
  (n < Z.to_nat (hi - lo))%nat ->
  nth_error (zrange lo hi) n = Some (lo + Z.of_nat n)%Z.
Proof.
  intros H. unfold zrange. rewrite nth_error_map, nth_error_seq.
  destruct (Nat.ltb_spec n (Z.to_nat (hi - lo))); [reflexivity | lia].
Qed.

(** The [i]-th record gets rank [i + 1] and is otherwise unchanged. *)
Lemma nth_error_assign_ranks (scores : list SectorScore) (i : nat) :
  nth_error (assign_ranks scores) i =
  option_map (set_Rank (Z.of_nat i + 1)) (nth_error scores i).
Proof.
  unfold assign_ranks. rewrite nth_error_map, nth_error_combine.
  destruct (nth_error scores i) as [r|] eqn:E; simpl.
  - rewrite nth_error_zrange; [reflexivity|].
    assert (i < List.length scores)%nat by (apply nth_error_Some; congruence).
    unfold len. lia.
  - destruct (nth_error (zrange _ _) i); reflexivity.
Qed.

Lemma length_assign_ranks scores :
  List.length (assign_ranks scores) = List.length scores.
Proof.
  unfold assign_ranks, zrange, len.
  rewrite length_map, length_combine, length_map, length_seq. lia.
Qed.

Lemma assign_ranks_map {B} (f : SectorScore -> B) scores :
  (forall r sc, f (set_Rank r sc) = f sc) ->
  map f (assign_ranks scores) = map f scores.
Proof.
  intros Hf. apply nth_error_ext. intros n.
  rewrite !nth_error_map, nth_error_assign_ranks.
  destruct (nth_error scores n); simpl; [now rewrite Hf | reflexivity].
Qed.

Lemma In_assign_ranks scores r :
  In r (assign_ranks scores) ->
  exists r0 z, In r0 scores /\ r = set_Rank z r0.
Proof.
  intros H. apply In_nth_error in H. destruct H as [n H].
  rewrite nth_error_assign_ranks in H.
  destruct (nth_error scores n) as [r0|] eqn:E; [|discriminate].
  injection H as <-. exists r0, (Z.of_nat n + 1)%Z.
  split; [now apply nth_error_In in E | reflexivity].
Qed.

(** What [CalculateScores] returns: it never panics, and its result is the
    ranked, sorted list of the records [sector_score] builds for the
    configured sectors. *)
Lemma CalculateScores_shape (s : SectorScorer) (allData : data.AllData.t) :
  exists ms gs mcs pr rs eg,
    CalculateScores s allData =
    Some (assign_ranks
            (sort.Slice by_opportunity
               (map (sector_score s allData ms
                       (CalculateValuationScore [] (data.AllData.SectorInfo allData))
                       gs
                       (CalculateInnovationScore (data.AllData.RDData allData))
                       mcs pr rs eg)
                    config.SectorNames))).
Proof.
  unfold CalculateScores.
  destruct (CalculateMomentumScore_returns (data.AllData.SectorPrices allData))
    as [ms ->].
  destruct (CalculateGrowthScore_returns (data.AllData.EmploymentData allData))
    as [gs ->].
  destruct (CalculateMacroScore_returns (data.AllData.SectorPrices allData)
              (data.AllData.MacroData allData)) as [mcs ->].
  destruct (CalculatePriceReturns_returns (data.AllData.SectorPrices allData))
    as [pr ->].
  destruct (CalculateRelativeStrength_returns (data.AllData.SectorPrices allData))
    as [rs ->].
  destruct (CalculateEmploymentGrowth_returns (data.AllData.EmploymentData allData))
    as [eg ->].
  exists ms, gs, mcs, pr, rs, eg. cbv beta iota delta [bind ret].
  reflexivity.
Qed.

(** The configured sectors are pairwise distinct. *)
Lemma SectorNames_NoDup : NoDup config.SectorNames.
Proof.
  unfold config.SectorNames.
  repeat (constructor; [simpl; intuition discriminate|]). constructor.
Qed.

(** Every returned record is a record built by [sector_score], with its
    rank set. *)
Lemma In_scores (s : SectorScorer) (allData : data.AllData.t)
  (scores : list SectorScore) (r : SectorScore) :
  CalculateScores s allData = Some scores ->
  In r scores ->
  exists ms vs gs ins mcs pr rs eg sector z,
    r = set_Rank z (sector_score s allData ms vs gs ins mcs pr rs eg sector).
Proof.
  destruct (CalculateScores_shape s allData)
    as (ms & gs & mcs & pr & rs & eg & H).
  set (mk := sector_score s allData ms _ gs _ mcs pr rs eg) in H.
  intros Hs Hin.
  assert (E : scores = assign_ranks (sort.Slice by_opportunity
                                       (map mk config.SectorNames)))
    by congruence.
  subst scores.
  apply In_assign_ranks in Hin. destruct Hin as (r0 & z & Hin & ->).
  apply (Permutation_in _ (insertionSort_perm by_opportunity _)) in Hin.
  apply in_map_iff in Hin. destruct Hin as (sector & <- & _).
  repeat eexists.
Qed.

Lemma map_Rank_assign_ranks (scores : list SectorScore) :
  map Rank (assign_ranks scores)
  = map (fun i => (Z.of_nat i + 1)%Z) (seq 0 (List.length scores)).
Proof.
  apply nth_error_ext. intros n.
  rewrite !nth_error_map, nth_error_assign_ranks, nth_error_seq.
  destruct (nth_error scores n) as [r|] eqn:E; simpl.
  - assert (n < List.length scores)%nat by (apply nth_error_Some; congruence).
    destruct (Nat.ltb_spec n (List.length scores)); [reflexivity | lia].
  - apply nth_error_None in E.
    destruct (Nat.ltb_spec n (List.length scores)); [lia | reflexivity].
Qed.

(** The ranks of the returned list are 1, 2, ..., 11 in list order. *)
Lemma ranks_in_order (s : SectorScorer) (allData : data.AllData.t)
  (scores : list SectorScore) :
  CalculateScores s allData = Some scores ->
  map Rank scores = [1; 2; 3; 4; 5; 6; 7; 8; 9; 10; 11]%Z.
Proof.
  destruct (CalculateScores_shape s allData)
    as (ms & gs & mcs & pr & rs & eg & H).
  set (mk := sector_score s allData ms _ gs _ mcs pr rs eg) in H.
  intros Hs.
  assert (E : scores = assign_ranks (sort.Slice by_opportunity
                                       (map mk config.SectorNames)))
    by congruence.
  subst scores. rewrite map_Rank_assign_ranks. unfold sort.Slice.
  rewrite (Permutation_length (insertionSort_perm _ _)), length_map.
  reflexivity.
Qed.


End ScoringFacts.

(** ** Zero and finite binary64 values *)

Module ZeroFacts.
Local Open Scope float_scope.

Lemma Prim2SF_zero : Prim2SF 0 = S754_zero false.
Proof. reflexivity. Qed.

Lemma Prim2SF_hundred : exists m e, Prim2SF 100 = S754_finite false m e.
Proof. do 2 eexists. reflexivity. Qed.

Lemma is_zero_spec (x : float) : (x =? 0) = true <-> SFzero (Prim2SF x).
Proof.
  rewrite eqb_spec, Prim2SF_zero. unfold SFzero, SFeqb, SFcompare.
  destruct (Prim2SF x) as [s|s| |s m e]; simpl; split;
    try discriminate; try (intros [s' H]; discriminate); eauto;
    destruct s; discriminate.
Qed.

Lemma is_finite_spec (x : float) : is_finite x = true -> SFfin (Prim2SF x).
Proof.
  unfold is_finite, is_nan, is_infinity.
  rewrite negb_true_iff, orb_false_iff, negb_false_iff, !eqb_spec, abs_spec.
  replace (Prim2SF infinity) with (S754_infinity false) by reflexivity.
  unfold SFfin, SFeqb, SFcompare, SFabs.
  destruct (Prim2SF x) as [s|s| |s m e]; simpl; intros [H1 H2];
    try exact I; discriminate.
Qed.

Lemma mul_zero_l (w x : float) :
  (w =? 0) = true -> is_finite x = true -> (w * x =? 0) = true.
Proof.
  rewrite !is_zero_spec, mul_spec. intros [s Hw] Hx.
  apply is_finite_spec in Hx. rewrite Hw. unfold SF64mul, SFmul, SFzero.
  destruct (Prim2SF x); simpl in *; try contradiction; eauto.
Qed.


Lemma math_Round_zero (x : float) : (x =? 0) = true -> math_Round x = x.
Proof.
  rewrite is_zero_spec. intros [s H]. unfold math_Round. now rewrite H.
Qed.

(** [math.Round(x*100)/100] of a zero is a zero. *)
Lemma round2_zero (x : float) :
  (x =? 0) = true -> (math_Round (x * 100) / 100 =? 0) = true.
Proof.
  intros Hx.
  assert (H100 : (x * 100 =? 0) = true) by (apply mul_zero_l; auto).
  rewrite math_Round_zero by assumption.
  revert H100. rewrite !is_zero_spec, div_spec. intros [s ->].
  destruct Prim2SF_hundred as (m & e & ->).
  unfold SF64div, SFdiv, SFzero. eauto.
Qed.


End ZeroFacts.

(** ** Rounding: binary64 arithmetic against real arithmetic *)

Module Binary64Facts.
Local Open Scope R_scope.

Lemma bpow_pos e : 0 < bpow e.
Proof. apply powerRZ_lt. lra. Qed.

Lemma bpow_add a b : bpow (a + b) = bpow a * bpow b.
Proof. apply powerRZ_add. lra. Qed.

Lemma bpow_0 : bpow 0 = 1.
Proof. reflexivity. Qed.

Lemma bpow_1 : bpow 1 = 2.
Proof. unfold bpow. simpl. lra. Qed.

Lemma bpow_succ e : bpow (e + 1) = 2 * bpow e.
Proof. rewrite bpow_add, bpow_1. lra. Qed.

Lemma bpow_pred e : bpow (e - 1) = bpow e / 2.
Proof.
  replace e with ((e - 1) + 1)%Z at 2 by lia. rewrite bpow_succ. lra.
Qed.

Lemma bpow_opp e : bpow (- e) = / bpow e.
Proof. apply powerRZ_neg'. Qed.

Lemma bpow_m1 : bpow (-1) = / 2.
Proof. change (-1)%Z with (- (1))%Z. now rewrite bpow_opp, bpow_1. Qed.

Lemma bpow_IZR (n : Z) : (0 <= n)%Z -> bpow n = IZR (2 ^ n).
Proof.
  intros H. pattern n. apply natlike_ind; [reflexivity| |assumption].
  intros k Hk IH. unfold Z.succ. rewrite bpow_succ, IH.
  rewrite Z.pow_add_r by lia.
  rewrite Z.pow_1_r, mult_IZR. generalize (IZR (2 ^ k)). intros u. lra.
Qed.

Lemma bpow_le a b : (a <= b)%Z -> bpow a <= bpow b.
Proof.
  intros H. replace b with (a + (b - a))%Z by lia.
  rewrite bpow_add, (bpow_IZR (b - a)) by lia.
  assert (H1 : 1 <= IZR (2 ^ (b - a))).
  { apply IZR_le. assert (0 < 2 ^ (b - a))%Z by (apply Z.pow_pos_nonneg; lia). lia. }
  pose proof (bpow_pos a). revert H1. generalize (IZR (2 ^ (b - a))). intros u Hu. nra.
Qed.

Lemma bpow_lt a b : (a < b)%Z -> bpow a < bpow b.
Proof.
  intros H. apply Rlt_le_trans with (bpow (a + 1)).
  - rewrite bpow_succ. pose proof (bpow_pos a). lra.
  - apply bpow_le. lia.
Qed.

Lemma bpow_lt_inv a b : bpow a < bpow b -> (a < b)%Z.
Proof.
  intros H. destruct (Z_lt_le_dec a b) as [|Hle]; [assumption|].
  apply bpow_le in Hle. lra.
Qed.

(** Number of binary digits. *)
Lemma digits2_pos_spec (m : positive) :
  (2 ^ (Zpos (digits2_pos m) - 1) <= Zpos m < 2 ^ Zpos (digits2_pos m))%Z.
Proof.
  induction m as [m IH|m IH|]; simpl digits2_pos.
  - rewrite Pos2Z.inj_succ.
    replace (Z.succ (Zpos (digits2_pos m)) - 1)%Z with (Zpos (digits2_pos m) - 1 + 1)%Z by lia.
    rewrite Z.pow_succ_r by lia.
    destruct (Z.eq_dec (Zpos (digits2_pos m)) 1) as [E|E].
    + rewrite E in *. simpl in *. lia.
    + rewrite Z.pow_add_r by lia. lia.
  - rewrite Pos2Z.inj_succ.
    replace (Z.succ (Zpos (digits2_pos m)) - 1)%Z with (Zpos (digits2_pos m) - 1 + 1)%Z by lia.
    rewrite Z.pow_succ_r by lia.
    rewrite Z.pow_add_r by lia. lia.
  - simpl. lia.
Qed.

Lemma Zdigits2_spec (m : Z) :
  (0 < m)%Z -> (2 ^ (Zdigits2 m - 1) <= m < 2 ^ Zdigits2 m)%Z.
Proof.
  destruct m; try lia. intros _. apply digits2_pos_spec.
Qed.

Lemma Zdigits2_pos (m : Z) : (0 < m)%Z -> (0 < Zdigits2 m)%Z.
Proof. destruct m; simpl; lia. Qed.

Lemma Zdigits2_unique (m d : Z) :
  (0 < d)%Z -> (2 ^ (d - 1) <= m < 2 ^ d)%Z -> Zdigits2 m = d.
Proof.
  intros Hd [H1 H2].
  assert (0 < m)%Z by (assert (0 < 2 ^ (d - 1))%Z by (apply Z.pow_pos_nonneg; lia); lia).
  pose proof (Zdigits2_spec m H) as [H3 H4].
  pose proof (Zdigits2_pos m H).
  destruct (Z.lt_trichotomy (Zdigits2 m) d) as [Hlt|[Heq|Hgt]]; [|assumption|].
  - assert (2 ^ Zdigits2 m <= 2 ^ (d - 1))%Z by (apply Z.pow_le_mono_r; lia). lia.
  - assert (2 ^ d <= 2 ^ (Zdigits2 m - 1))%Z by (apply Z.pow_le_mono_r; lia). lia.
Qed.

(** *** Shifting with round and sticky bits *)

Lemma IZR_xO p : IZR (Zpos p~0) = 2 * IZR (Zpos p).
Proof. rewrite Pos2Z.inj_xO, mult_IZR. reflexivity. Qed.

Lemma IZR_xI p : IZR (Zpos p~1) = 2 * IZR (Zpos p) + 1.
Proof. rewrite Pos2Z.inj_xI, plus_IZR, mult_IZR. reflexivity. Qed.

Lemma shr_1_ok mrs t : rec_ok mrs t -> rec_ok (shr_1 mrs) (t / 2).
Proof.
  destruct mrs as [m r s]. unfold rec_ok.
  cbn [shr_m loc_of_shr_record]. intros [Hm Hin].
  destruct m as [|p|p]; [| |lia].
  - destruct r, s; cbn [shr_1 orb shr_m loc_of_shr_record inbetween] in *;
      (split; [lia | lra]).
  - destruct p as [p|p|]; destruct r, s;
      cbn [shr_1 orb shr_m loc_of_shr_record inbetween] in *;
      try rewrite (IZR_xO p) in Hin; try rewrite (IZR_xI p) in Hin;
      (split; [lia | lra]).
Qed.

Lemma iter_shr_1_ok (n : positive) : forall mrs t,
  rec_ok mrs t -> rec_ok (SpecFloat.iter_pos shr_1 n mrs) (t * bpow (- Zpos n)).
Proof.
  induction n as [n IH|n IH|]; intros mrs t H; cbn [SpecFloat.iter_pos].
  - apply shr_1_ok in H. apply IH in H. apply IH in H.
    replace (t * bpow (- Zpos n~1))
      with (t / 2 * bpow (- Zpos n) * bpow (- Zpos n)); [assumption|].
    rewrite Pos2Z.inj_xI.
    replace (- (2 * Zpos n + 1))%Z with (- Zpos n + (- Zpos n + - 1))%Z by lia.
    rewrite !bpow_add, bpow_m1. lra.
  - apply IH in H. apply IH in H.
    replace (t * bpow (- Zpos n~0))
      with (t * bpow (- Zpos n) * bpow (- Zpos n)); [assumption|].
    rewrite Pos2Z.inj_xO.
    replace (- (2 * Zpos n))%Z with (- Zpos n + - Zpos n)%Z by lia.
    rewrite !bpow_add. lra.
  - apply shr_1_ok in H. rewrite bpow_opp, bpow_1. exact H.
Qed.

(** [shr] moves the record to the exponent [e + max n 0]. *)
Lemma shr_ok mrs e n t :
  rec_ok mrs t ->
  rec_ok (fst (shr mrs e n)) (t * bpow (- Z.max n 0))
  /\ snd (shr mrs e n) = (e + Z.max n 0)%Z.
Proof.
  intros H. destruct n as [|p|p]; cbn [shr fst snd].
  - change (Z.max 0 0) with 0%Z. rewrite Z.add_0_r. split; [|reflexivity].
    change (bpow (- 0)) with 1. now rewrite Rmult_1_r.
  - change (Z.max (Zpos p) 0) with (Zpos p). split; [|reflexivity].
    now apply iter_shr_1_ok.
  - change (Z.max (Zneg p) 0) with 0%Z. rewrite Z.add_0_r. split; [|reflexivity].
    change (bpow (- 0)) with 1. now rewrite Rmult_1_r.
Qed.

Lemma rec_of_loc_ok m l t :
  (0 <= m)%Z -> inbetween m l t -> rec_ok (shr_record_of_loc m l) t.
Proof.
  intros Hm H. unfold rec_ok.
  destruct l as [|[| |]]; simpl; auto.
Qed.

Lemma inbetween_floor m l t : inbetween m l t -> IZR m <= t < IZR m + 1.
Proof. destruct l as [|[| |]]; simpl; lra. Qed.

(** *** Rounding to the nearest integer, ties to even *)

Lemma rne_inbetween m l t :
  inbetween m l t -> round_nearest_even m l = rne t.
Proof.
  intros H. pose proof (inbetween_floor _ _ _ H) as Hf.
  assert (Hm : Zfloor t = m) by now apply Zfloor_eq.
  unfold rne. rewrite Hm.
  destruct (total_order_T (t - IZR m) (/ 2)) as [[Hlt|Heq]|Hgt];
    destruct l as [|[| |]]; simpl in *; try reflexivity; try lra.
Qed.

Lemma rne_bounds t :
  (rne t = Zfloor t /\ t - IZR (Zfloor t) <= / 2)
  \/ (rne t = (Zfloor t + 1)%Z /\ / 2 <= t - IZR (Zfloor t)).
Proof.
  unfold rne.
  destruct (total_order_T (t - IZR (Zfloor t)) (/ 2)) as [[Hlt|Heq]|Hgt].
  - left. split; [reflexivity | lra].
  - destruct (Z.even (Zfloor t)); [left | right]; split; try reflexivity; lra.
  - right. split; [reflexivity | lra].
Qed.

Lemma rne_error t : Rabs (IZR (rne t) - t) <= / 2.
Proof.
  pose proof (Zfloor_bound t) as Hb.
  destruct (rne_bounds t) as [[-> H]|[-> H]].
  - rewrite Rabs_left1; lra.
  - rewrite plus_IZR. rewrite Rabs_right; lra.
Qed.

Lemma rne_IZR z : rne (IZR z) = z.
Proof.
  unfold rne. rewrite ZfloorZ.
  destruct (total_order_T (IZR z - IZR z) (/ 2)) as [[Hlt|Heq]|Hgt];
    [reflexivity | lra | lra].
Qed.

Lemma rne_mono t1 t2 : t1 <= t2 -> (rne t1 <= rne t2)%Z.
Proof.
  intros Hle. pose proof (Zfloor_le _ _ Hle) as Hfl.
  pose proof (Zfloor_bound t1) as B1. pose proof (Zfloor_bound t2) as B2.
  destruct (Z.eq_dec (Zfloor t1) (Zfloor t2)) as [E|NE].
  - unfold rne. rewrite E in *.
    destruct (total_order_T (t1 - IZR (Zfloor t2)) (/ 2)) as [[H1|H1]|H1];
    destruct (total_order_T (t2 - IZR (Zfloor t2)) (/ 2)) as [[H2|H2]|H2];
      try lra; try lia; destruct (Z.even (Zfloor t2)); lia.
  - assert (Zfloor t1 + 1 <= Zfloor t2)%Z by lia.
    destruct (rne_bounds t1) as [[-> _]|[-> _]];
    destruct (rne_bounds t2) as [[-> _]|[-> _]]; lia.
Qed.

Lemma rne_le_int t z : t <= IZR z -> (rne t <= z)%Z.
Proof. intros H. rewrite <- (rne_IZR z). now apply rne_mono. Qed.

Lemma rne_ge_int t z : IZR z <= t -> (z <= rne t)%Z.
Proof. intros H. rewrite <- (rne_IZR z) at 1. now apply rne_mono. Qed.

(** *** The rounding of binary64 results *)

Lemma fexp64_eq e : fexp64 e = Z.max (e - 53) (-1074).
Proof. reflexivity. Qed.

Lemma IZR_pow2 (n : Z) : (0 <= n)%Z -> IZR (2 ^ n) = bpow n.
Proof. intros H. now rewrite bpow_IZR. Qed.

Lemma Zdigits2_nonneg m : (0 <= Zdigits2 m)%Z.
Proof. destruct m; simpl; lia. Qed.

Lemma Zdigits2_upper m : (0 <= m)%Z -> (m + 1 <= 2 ^ Zdigits2 m)%Z.
Proof.
  intros H. destruct (Z.eq_dec m 0) as [->|Hne]; [simpl; lia|].
  pose proof (Zdigits2_spec m). lia.
Qed.

(** The first shift of [binary_round_aux]. *)
Lemma shr_fexp_ok mx ex lx t :
  (0 <= mx)%Z -> inbetween mx lx t ->
  (ex <= fexp64 (Zdigits2 mx + ex))%Z ->
  rec_ok (fst (shr_fexp prec emax mx ex lx))
         (t * bpow ex * bpow (- fexp64 (Zdigits2 mx + ex)))
  /\ snd (shr_fexp prec emax mx ex lx) = fexp64 (Zdigits2 mx + ex).
Proof.
  intros Hm Hin Hle. unfold shr_fexp. fold (fexp64 (Zdigits2 mx + ex)).
  set (e1 := fexp64 (Zdigits2 mx + ex)) in *.
  destruct (shr_ok (shr_record_of_loc mx lx) ex (e1 - ex) t
              (rec_of_loc_ok _ _ _ Hm Hin)) as [H1 H2].
  rewrite Z.max_l in H1, H2 by lia. split.
  - replace (t * bpow ex * bpow (- e1)) with (t * bpow (- (e1 - ex))); [exact H1|].
    replace (- (e1 - ex))%Z with (ex + - e1)%Z by lia. rewrite bpow_add. lra.
  - rewrite H2. lia.
Qed.

(** The second shift of [binary_round_aux] is exact. *)
Lemma shr_exact z e n :
  (0 <= z)%Z -> (0 <= n)%Z -> (exists q, z = q * 2 ^ n)%Z ->
  (shr_m (fst (shr (shr_record_of_loc z loc_Exact) e n)) * 2 ^ n = z)%Z
  /\ snd (shr (shr_record_of_loc z loc_Exact) e n) = (e + n)%Z.
Proof.
  intros Hz Hn [q Hq].
  assert (Hin : inbetween z loc_Exact (IZR z)) by reflexivity.
  destruct (shr_ok _ e n _ (rec_of_loc_ok _ _ _ Hz Hin)) as [[_ H1] H2].
  rewrite Z.max_l in H1, H2 by lia. split; [|exact H2].
  apply inbetween_floor in H1.
  set (m := shr_m (fst (shr (shr_record_of_loc z loc_Exact) e n))) in *.
  assert (Hp : (0 < 2 ^ n)%Z) by (apply Z.pow_pos_nonneg; lia).
  assert (E : IZR z * bpow (- n) = IZR q).
  { rewrite Hq, mult_IZR, IZR_pow2, bpow_opp by lia.
    pose proof (bpow_pos n). field. lra. }
  rewrite E in H1.
  assert (m = q).
  { destruct H1 as [Ha Hb]. apply le_IZR in Ha.
    rewrite <- plus_IZR in Hb. apply lt_IZR in Hb. lia. }
  subst q. lia.
Qed.

(** [binary_round_aux] rounds to the nearest multiple of [2^e], ties to
    even, for the exponent [e] that the format gives to numbers of the size
    of its argument, and its result is a valid binary64 number. *)
Lemma round_aux_correct sx mx ex lx t :
  (0 <= mx)%Z -> inbetween mx lx t ->
  (ex <= fexp64 (Zdigits2 mx + ex))%Z ->
  rounds_to sx
    (IZR (rne (t * bpow ex * bpow (- fexp64 (Zdigits2 mx + ex))))
     * bpow (fexp64 (Zdigits2 mx + ex)))
    (binary_round_aux prec emax sx mx ex lx)
  /\ valid_binary (binary_round_aux prec emax sx mx ex lx) = true.
Proof.
  intros Hm Hin Hle.
  destruct (shr_fexp_ok mx ex lx t Hm Hin Hle) as [[Hm1 Hin1] He1].
  unfold binary_round_aux.
  destruct (shr_fexp prec emax mx ex lx) as [mrs1 e1'] eqn:E1.
  cbn [fst snd] in Hm1, Hin1, He1. subst e1'.
  set (d := (Zdigits2 mx + ex)%Z) in *.
  set (e1 := fexp64 d) in *.
  set (u := t * bpow ex * bpow (- e1)) in *.
  rewrite (rne_inbetween _ _ _ Hin1).
  set (z := rne u).
  pose proof (inbetween_floor _ _ _ Hin) as Ht.
  pose proof (bpow_pos ex) as Pex. pose proof (bpow_pos (- e1)) as Pe1.
  assert (Hu0 : 0 <= u).
  { unfold u. apply IZR_le in Hm. repeat apply Rmult_le_pos; lra. }
  assert (Hz0 : (0 <= z)%Z) by (apply rne_ge_int; exact Hu0).
  (* an upper bound on the rounded mantissa *)
  assert (Hub : u < bpow (d - e1)).
  { unfold u, d.
    replace (Zdigits2 mx + ex - e1)%Z with (Zdigits2 mx + ex + - e1)%Z by lia.
    rewrite !bpow_add.
    assert (t < bpow (Zdigits2 mx)).
    { rewrite <- IZR_pow2 by apply Zdigits2_nonneg.
      pose proof (Zdigits2_upper mx Hm) as Hd. apply IZR_le in Hd.
      rewrite plus_IZR in Hd. lra. }
    apply Rmult_lt_compat_r; [lra|]. apply Rmult_lt_compat_r; lra. }
  assert (Hzub : (z <= 2 ^ Z.max (d - e1) 0)%Z).
  { apply rne_le_int. rewrite IZR_pow2 by lia.
    apply Rle_trans with (bpow (d - e1)); [lra|]. apply bpow_le. lia. }
  (* above the least exponent the rounded mantissa has 53 digits *)
  assert (Hzlb : (-1074 < e1)%Z -> (2 ^ 52 <= z)%Z).
  { intros Hgt.
    assert (He1 : (e1 = d - 53)%Z) by (unfold e1 in *; rewrite fexp64_eq in *; lia).
    assert (Hmx : (0 < mx)%Z).
    { destruct (Z.eq_dec mx 0) as [->|]; [|lia].
      unfold d, e1 in *. simpl Zdigits2 in *. rewrite fexp64_eq in *. lia. }
    apply rne_ge_int. unfold u.
    pose proof (Zdigits2_spec mx Hmx) as [Hlo _]. apply IZR_le in Hlo.
    pose proof (Zdigits2_pos mx Hmx) as Hdp.
    rewrite IZR_pow2 in Hlo by lia. rewrite IZR_pow2 by lia.
    apply Rle_trans with (bpow (Zdigits2 mx - 1) * bpow ex * bpow (- e1)).
    - rewrite <- !bpow_add. apply bpow_le. unfold d in He1. lia.
    - apply Rmult_le_compat_r; [lra|]. apply Rmult_le_compat_r; lra. }
  assert (He1lb : (-1074 <= e1)%Z) by (unfold e1; rewrite fexp64_eq; lia).
  unfold shr_fexp. fold (fexp64 (Zdigits2 z + e1)).
  set (k2 := (fexp64 (Zdigits2 z + e1) - e1)%Z).
  destruct (Z.eq_dec z 0) as [Ez|Ez].
  { (* the result is zero *)
    assert (Hin0 : inbetween 0 loc_Exact 0) by reflexivity.
    destruct (shr_ok _ e1 k2 _ (rec_of_loc_ok 0 loc_Exact 0 (Z.le_refl 0) Hin0))
      as [[_ H1] _].
    rewrite Ez.
    destruct (shr (shr_record_of_loc 0 loc_Exact) e1 k2) as [mrs2 e2].
    cbn [fst] in H1. apply inbetween_floor in H1. rewrite Rmult_0_l in H1.
    assert (shr_m mrs2 = 0%Z).
    { destruct H1 as [Ha Hb]. apply le_IZR in Ha.
      replace 0 with (IZR 0) in Hb by reflexivity.
      rewrite <- plus_IZR in Hb. apply lt_IZR in Hb. lia. }
    rewrite H. split; [|reflexivity]. left. split; [lra | reflexivity]. }
  assert (Hzpos : (0 < z)%Z) by lia.
  pose proof (Zdigits2_spec z Hzpos) as Hdz.
  pose proof (Zdigits2_pos z Hzpos) as Hdz0.
  assert (Hdzub : (Zdigits2 z - 1 <= Z.max (d - e1) 0)%Z).
  { apply Z.pow_le_mono_r_iff with (a := 2%Z); lia. }
  assert (Hdzlb : (-1074 < e1)%Z -> (53 <= Zdigits2 z)%Z).
  { intros Hgt. specialize (Hzlb Hgt).
    assert (52 < Zdigits2 z)%Z; [|lia].
    apply Z.pow_lt_mono_r_iff with (a := 2%Z); lia. }
  (* the second shift moves by no or one exact place *)
  assert (Hk2 : (k2 = 0)%Z \/ (k2 = 1 /\ z = 2 ^ 53)%Z).
  { unfold k2. unfold e1 in *. rewrite !fexp64_eq in *.
    destruct (Z_le_gt_dec (Z.max (Zdigits2 z + Z.max (d - 53) (-1074) - 53) (-1074)
                           - Z.max (d - 53) (-1074)) 0) as [Hc|Hc]; [left; lia|].
    right.
    assert (Hd53 : (Zdigits2 z = 54 /\ d - 53 >= -1074)%Z) by lia.
    destruct Hd53 as [Hdz54 Hdn].
    rewrite Hdz54 in *.
    assert (Hz53 : (z <= 2 ^ 53)%Z).
    { replace (Z.max (d - Z.max (d - 53) (-1074)) 0) with 53%Z in Hzub by lia.
      exact Hzub. }
    change (54 - 1)%Z with 53%Z in Hdz. lia. }
  assert (Hshift : (shr_m (fst (shr (shr_record_of_loc z loc_Exact) e1 k2))
                    * 2 ^ k2 = z)%Z
                   /\ snd (shr (shr_record_of_loc z loc_Exact) e1 k2)
                      = (e1 + k2)%Z).
  { destruct Hk2 as [Hk|(Hk & Hz)]; rewrite Hk.
    - cbn [shr fst snd shr_record_of_loc shr_m]. split; lia.
    - apply shr_exact; [lia | lia |]. exists (2 ^ 52)%Z. rewrite Hz. reflexivity. }
  destruct (shr (shr_record_of_loc z loc_Exact) e1 k2) as [mrs2 e2].
  cbn [fst snd] in Hshift. destruct Hshift as [Hm2 He2].
  assert (Hk2' : (0 <= k2)%Z) by lia.
  assert (Hp2 : (0 < 2 ^ k2)%Z) by (apply Z.pow_pos_nonneg; lia).
  assert (Hm2pos : (0 < shr_m mrs2)%Z) by nia.
  assert (Hval : IZR (shr_m mrs2) * bpow e2 = IZR z * bpow e1).
  { rewrite <- Hm2, He2, mult_IZR, IZR_pow2, bpow_add by lia. lra. }
  destruct (shr_m mrs2) as [|m2|m2] eqn:Em2; try lia.
  (* the mantissa of the result is canonical *)
  assert (Hcan : fexp64 (Zdigits2 (Zpos m2) + e2) = e2).
  { destruct Hk2 as [Hk|(Hk & Hz)].
    - rewrite Hk in *. change (2 ^ 0)%Z with 1%Z in Hm2.
      replace (Zpos m2) with z by lia. replace e2 with e1 by lia.
      unfold k2 in Hk. lia.
    - rewrite Hk in *. rewrite Hz in Hm2. change (2 ^ 1)%Z with 2%Z in Hm2.
      change (2 ^ 53)%Z with (2 ^ 52 * 2)%Z in Hm2.
      assert (Em : Zpos m2 = (2 ^ 52)%Z) by lia.
      rewrite (Zdigits2_unique (Zpos m2) 53); [|lia|rewrite Em; split; [|reflexivity]; discriminate].
      rewrite fexp64_eq. lia. }
  destruct (e2 <=? emax - prec)%Z eqn:Eov.
  - split.
    + right. left. exists m2, e2. split; [reflexivity | exact Hval].
    + unfold valid_binary, SpecFloat.valid_binary, SpecFloat.bounded,
        SpecFloat.canonical_mantissa.
      rewrite Eov, andb_true_r. apply Z.eqb_eq. exact Hcan.
  - split; [|reflexivity].
    right. right. split; [reflexivity|].
    apply Z.leb_gt in Eov. change (emax - prec)%Z with 971%Z in Eov.
    rewrite <- Hval.
    assert (Hgt : (-1074 < e1)%Z) by lia.
    specialize (Hzlb Hgt).
    assert (Hm52 : bpow 52 <= IZR (Zpos m2)).
    { rewrite <- IZR_pow2 by lia. apply IZR_le.
      destruct Hk2 as [Hk|(Hk & Hz)].
      - rewrite Hk in *. change (2 ^ 0)%Z with 1%Z in Hm2. lia.
      - rewrite Hk in *. rewrite Hz in Hm2.
        change (2 ^ 1)%Z with 2%Z in Hm2.
        change (2 ^ 53)%Z with (2 ^ 52 * 2)%Z in Hm2. lia. }
    apply Rle_trans with (bpow 52 * bpow e2).
    + rewrite <- bpow_add. apply bpow_le. lia.
    + apply Rmult_le_compat_r; [pose proof (bpow_pos e2); lra | exact Hm52].
Qed.

(** *** Values and error bounds *)

Lemma Rabs_sgn s v : Rabs (sgn s v) = Rabs v.
Proof. destruct s; simpl; [apply Rabs_Ropp | reflexivity]. Qed.

Lemma sgn_sub s v w : sgn s w - sgn s v = sgn s (w - v).
Proof. destruct s; simpl; lra. Qed.

Lemma round_err_sgn s v w : round_err v w -> round_err (sgn s v) (sgn s w).
Proof. unfold round_err. now rewrite sgn_sub, !Rabs_sgn. Qed.

Lemma Rabs_bound a b : Rabs a <= b -> - b <= a <= b.
Proof. unfold Rabs. destruct (Rcase_abs a); lra. Qed.

Lemma Rabs_within a b : - b <= a <= b -> Rabs a <= b.
Proof. unfold Rabs. destruct (Rcase_abs a); lra. Qed.

Lemma bpow_half e : / 2 * bpow e = bpow (e - 1).
Proof. rewrite bpow_pred. lra. Qed.

(** The relative error of a rounding is at most [2^-53], apart from
    results below the normal range, whose absolute error is at most
    [2^-1075]. *)
Lemma round_aux_error sx mx ex lx t :
  (0 <= mx)%Z -> inbetween mx lx t ->
  (ex <= fexp64 (Zdigits2 mx + ex))%Z ->
  t * bpow ex <= bpow 1023 ->
  valid_binary (binary_round_aux prec emax sx mx ex lx) = true
  /\ SFfin (binary_round_aux prec emax sx mx ex lx)
  /\ round_err (sgn sx (t * bpow ex))
               (SF2R (binary_round_aux prec emax sx mx ex lx)).
Proof.
  intros Hm Hin Hle Hb.
  destruct (round_aux_correct sx mx ex lx t Hm Hin Hle) as [Hr Hv].
  split; [exact Hv|].
  set (d := (Zdigits2 mx + ex)%Z) in *.
  set (e1 := fexp64 d) in *.
  set (u := t * bpow ex * bpow (- e1)) in *.
  set (v := t * bpow ex) in *.
  set (w := IZR (rne u) * bpow e1) in *.
  pose proof (bpow_pos e1) as Pe1. pose proof (bpow_pos ex) as Pex.
  pose proof (inbetween_floor _ _ _ Hin) as Ht.
  assert (Hv0 : 0 <= v).
  { unfold v. apply IZR_le in Hm. apply Rmult_le_pos; lra. }
  assert (Hu : u * bpow e1 = v).
  { unfold u. rewrite Rmult_assoc, <- bpow_add.
    replace (- e1 + e1)%Z with 0%Z by lia. rewrite bpow_0. lra. }
  assert (Hwv : Rabs (w - v) <= / 2 * bpow e1).
  { rewrite <- Hu. unfold w. rewrite <- Rmult_minus_distr_r, Rabs_mult.
    rewrite (Rabs_pos_eq (bpow e1)) by lra.
    apply Rmult_le_compat_r; [lra | apply rne_error]. }
  assert (Herr : / 2 * bpow e1 <= bpow (-53) * v + bpow (-1075)).
  { rewrite bpow_half. pose proof (bpow_pos (-53)) as P53.
    pose proof (bpow_pos (-1075)) as P1075.
    destruct (Z_le_gt_dec e1 (-1074)) as [Hc|Hc].
    - apply Rle_trans with (bpow (-1075)); [apply bpow_le; lia|]. nra.
    - assert (He1 : (e1 = d - 53)%Z) by (unfold e1 in *; rewrite fexp64_eq in *; lia).
      assert (Hmx : (0 < mx)%Z).
      { destruct (Z.eq_dec mx 0) as [E|]; [|lia].
        assert (Hd : d = ex) by (unfold d; rewrite E; reflexivity).
        unfold e1 in *. rewrite fexp64_eq in *. lia. }
      pose proof (Zdigits2_spec mx Hmx) as [Hlo _]. apply IZR_le in Hlo.
      pose proof (Zdigits2_pos mx Hmx) as Hdp.
      rewrite IZR_pow2 in Hlo by lia.
      assert (bpow (d - 1) <= v).
      { unfold v, d. replace (Zdigits2 mx + ex - 1)%Z with (Zdigits2 mx - 1 + ex)%Z by lia.
        rewrite bpow_add. apply Rmult_le_compat_r; lra. }
      replace (e1 - 1)%Z with (-53 + (d - 1))%Z by lia. rewrite bpow_add.
      apply Rle_trans with (bpow (-53) * v); [|lra].
      apply Rmult_le_compat_l; lra. }
  assert (Hw : w < bpow 1024).
  { assert (w <= v + (bpow (-53) * v + bpow (-1075))).
    { apply Rabs_bound in Hwv. lra. }
    assert (bpow (-53) <= / 4).
    { apply Rle_trans with (bpow (-2)); [apply bpow_le; lia|].
      change (-2)%Z with (- (2))%Z. rewrite bpow_opp, (bpow_IZR 2) by lia.
      simpl. lra. }
    assert (bpow (-1075) <= bpow 1023 / 4).
    { apply Rle_trans with (bpow 1021); [apply bpow_le; lia|].
      replace 1023%Z with (1021 + 2)%Z by lia.
      rewrite bpow_add, (bpow_IZR 2) by lia. simpl.
      pose proof (bpow_pos 1021). lra. }
    replace 1024%Z with (1023 + 1)%Z by lia. rewrite bpow_succ.
    pose proof (bpow_pos 1023). nra. }
  assert (Hre : round_err v w).
  { unfold round_err. rewrite (Rabs_pos_eq v) by lra. lra. }
  destruct Hr as [[Hw0 ->]|[(m & e & -> & Hme)|[-> Hinf]]].
  - split; [exact I|]. cbn [SF2R].
    replace 0 with (sgn sx w) by (rewrite Hw0; destruct sx; simpl; lra).
    now apply round_err_sgn.
  - split; [exact I|]. cbn [SF2R]. rewrite Hme. now apply round_err_sgn.
  - lra.
Qed.

(** *** Normalisation of an integer mantissa *)

Lemma iter_xO m d : Zpos (Pos.iter xO m d) = (Zpos m * 2 ^ Zpos d)%Z.
Proof.
  induction d as [|d IH] using Pos.peano_ind.
  - simpl. lia.
  - rewrite Pos.iter_succ, Pos2Z.inj_succ, Z.pow_succ_r by lia.
    rewrite Pos2Z.inj_xO, IH. ring.
Qed.

Lemma shl_align_ok mx ex e' :
  snd (shl_align mx ex e') = Z.min ex e'
  /\ Zpos (fst (shl_align mx ex e'))
     = (Zpos mx * 2 ^ (ex - Z.min ex e'))%Z.
Proof.
  unfold shl_align. destruct (e' - ex)%Z as [|p|p] eqn:E; cbn [fst snd].
  - replace (Z.min ex e') with ex by lia. rewrite Z.sub_diag. split; lia.
  - replace (Z.min ex e') with ex by lia. rewrite Z.sub_diag. split; lia.
  - replace (Z.min ex e') with e' by lia. split; [reflexivity|].
    rewrite iter_xO. f_equal. f_equal. lia.
Qed.

Lemma shl_align_value mx ex e' :
  IZR (Zpos (fst (shl_align mx ex e'))) * bpow (snd (shl_align mx ex e'))
  = IZR (Zpos mx) * bpow ex.
Proof.
  destruct (shl_align_ok mx ex e') as [-> ->].
  rewrite mult_IZR, IZR_pow2 by lia. rewrite Rmult_assoc, <- bpow_add.
  f_equal. f_equal. lia.
Qed.

Lemma Zdigits2_shift m k :
  (0 < m)%Z -> (0 <= k)%Z -> Zdigits2 (m * 2 ^ k) = (Zdigits2 m + k)%Z.
Proof.
  intros Hm Hk. pose proof (Zdigits2_spec m Hm) as [H1 H2].
  pose proof (Zdigits2_pos m Hm) as Hd.
  assert (Hp : (0 < 2 ^ k)%Z) by (apply Z.pow_pos_nonneg; lia).
  apply Zdigits2_unique; [lia|].
  replace (Zdigits2 m + k - 1)%Z with (Zdigits2 m - 1 + k)%Z by lia.
  rewrite !Z.pow_add_r by lia. split; nia.
Qed.

(** *** The arithmetic operations on finite numbers *)

Lemma valid_finite s m e :
  valid_binary (S754_finite s m e) = true ->
  fexp64 (Zdigits2 (Zpos m) + e) = e /\ (e <= 971)%Z.
Proof.
  unfold valid_binary, SpecFloat.valid_binary, SpecFloat.bounded,
    SpecFloat.canonical_mantissa.
  intros H. apply andb_true_iff in H. destruct H as [H1 H2].
  apply Z.eqb_eq in H1. apply Z.leb_le in H2. split; assumption.
Qed.

Lemma sgn_mul s1 s2 a b : sgn s1 a * sgn s2 b = sgn (xorb s1 s2) (a * b).
Proof. destruct s1, s2; simpl; lra. Qed.

Lemma sgn_div s1 s2 a b : b <> 0 -> sgn s1 a / sgn s2 b = sgn (xorb s1 s2) (a / b).
Proof. intros Hb. destruct s1, s2; simpl; field; lra. Qed.

Lemma Zdigits2_mul (a b : positive) :
  (Zdigits2 (Zpos a) + Zdigits2 (Zpos b) - 1 <= Zdigits2 (Zpos (a * b)))%Z.
Proof.
  pose proof (Zdigits2_spec (Zpos a) eq_refl) as [Ha _].
  pose proof (Zdigits2_spec (Zpos b) eq_refl) as [Hb _].
  pose proof (Zdigits2_spec (Zpos (a * b)) eq_refl) as [_ Hab].
  pose proof (Zdigits2_pos (Zpos a) eq_refl) as Pa.
  pose proof (Zdigits2_pos (Zpos b) eq_refl) as Pb.
  set (da := Zdigits2 (Zpos a)) in *. set (db := Zdigits2 (Zpos b)) in *.
  set (dab := Zdigits2 (Zpos (a * b))) in *.
  assert (H : (2 ^ (da - 1 + (db - 1)) <= Zpos a * Zpos b)%Z).
  { rewrite Z.pow_add_r by lia.
    assert (0 < 2 ^ (da - 1))%Z by (apply Z.pow_pos_nonneg; lia).
    assert (0 < 2 ^ (db - 1))%Z by (apply Z.pow_pos_nonneg; lia).
    nia. }
  rewrite Pos2Z.inj_mul in Hab.
  assert (da - 1 + (db - 1) < dab)%Z; [|lia].
  apply Z.pow_lt_mono_r_iff with (a := 2%Z); [lia | unfold dab; apply Zdigits2_nonneg | lia].
Qed.

Lemma new_location_ok (m2 q r : Z) (t : R) :
  (0 < m2)%Z -> (0 <= r < m2)%Z -> t = IZR q + IZR r / IZR m2 ->
  inbetween q (new_location m2 r) t.
Proof.
  intros Hm [Hr0 Hr] ->.
  assert (Pm : 0 < IZR m2) by (apply IZR_lt; exact Hm).
  set (rho := IZR r / IZR m2).
  assert (Erho : IZR r = rho * IZR m2) by (unfold rho; field; lra).
  assert (Hlt : (2 * r < m2)%Z -> 0 <= rho < / 2).
  { intros H. apply IZR_lt in H. rewrite mult_IZR in H.
    apply IZR_le in Hr0. split.
    - unfold rho. apply Rmult_le_pos; [lra|]. apply Rlt_le, Rinv_0_lt_compat, Pm.
    - apply Rmult_lt_reg_r with (IZR m2); [exact Pm|]. lra. }
  assert (Hgt : (m2 < 2 * r)%Z -> / 2 < rho < 1).
  { intros H. apply IZR_lt in H. rewrite mult_IZR in H.
    apply IZR_lt in Hr. split.
    - apply Rmult_lt_reg_r with (IZR m2); [exact Pm|]. lra.
    - apply Rmult_lt_reg_r with (IZR m2); [exact Pm|]. lra. }
  assert (Hpos : r <> 0%Z -> 0 < rho).
  { intros H. assert (H1 : (0 < r)%Z) by lia. apply IZR_lt in H1.
    unfold rho. apply Rmult_lt_0_compat; [lra|]. apply Rinv_0_lt_compat, Pm. }
  unfold new_location. destruct (Z.even m2) eqn:Ev.
  - unfold new_location_even. destruct (Z.eqb_spec r 0) as [E|NE].
    + unfold rho. rewrite E. cbn [inbetween]. lra.
    + specialize (Hpos NE).
      destruct (Z.compare_spec (2 * r) m2) as [E|L|G]; cbn [inbetween].
      * assert (rho = / 2); [|lra].
        apply IZR_eq in E. rewrite mult_IZR in E.
        apply Rmult_eq_reg_r with (IZR m2); lra.
      * specialize (Hlt L). lra.
      * specialize (Hgt G). lra.
  - unfold new_location_odd. destruct (Z.eqb_spec r 0) as [E|NE].
    + unfold rho. rewrite E. cbn [inbetween]. lra.
    + specialize (Hpos NE).
      assert (Hodd : (2 * r <> m2)%Z).
      { intros E. rewrite <- E, Z.even_mul in Ev. discriminate. }
      destruct (Z.compare_spec (2 * r + 1) m2) as [E|L|G]; cbn [inbetween].
      * assert (L : (2 * r < m2)%Z) by lia. specialize (Hlt L). lra.
      * assert (L' : (2 * r < m2)%Z) by lia. specialize (Hlt L'). lra.
      * assert (G' : (m2 < 2 * r)%Z) by lia. specialize (Hgt G'). lra.
Qed.

Lemma SFdiv_core_ok (m1 m2 : positive) (e1 e2 : Z) :
  let '(q, e, l) := SFdiv_core_binary prec emax (Zpos m1) e1 (Zpos m2) e2 in
  exists t,
    (0 <= q)%Z /\ inbetween q l t
    /\ (e <= fexp64 (Zdigits2 q + e))%Z
    /\ t * bpow e = IZR (Zpos m1) * bpow e1 / (IZR (Zpos m2) * bpow e2).
Proof.
  unfold SFdiv_core_binary.
  fold (fexp64 (Zdigits2 (Zpos m1) + e1 - (Zdigits2 (Zpos m2) + e2))).
  set (d1 := Zdigits2 (Zpos m1)). set (d2 := Zdigits2 (Zpos m2)).
  set (e := Z.min (fexp64 (d1 + e1 - (d2 + e2))) (e1 - e2)).
  set (s := (e1 - e2 - e)%Z).
  assert (Hs : (0 <= s)%Z) by (unfold s, e; lia).
  set (m := match s with
            | 0%Z => Zpos m1
            | Zpos _ => Z.shiftl (Zpos m1) s
            | Zneg _ => 0%Z
            end).
  assert (Em : m = (Zpos m1 * 2 ^ s)%Z).
  { unfold m. destruct s as [|p|p]; [simpl; lia | | lia].
    apply Z.shiftl_mul_pow2. lia. }
  pose proof (Z_div_mod m (Zpos m2) eq_refl) as Hdiv.
  destruct (Z.div_eucl m (Zpos m2)) as [q r]. destruct Hdiv as [Hqr Hr].
  assert (Hp : (0 < 2 ^ s)%Z) by (apply Z.pow_pos_nonneg; lia).
  assert (Hq0 : (0 <= q)%Z) by nia.
  assert (P2 : 0 < IZR (Zpos m2)) by (apply IZR_lt; reflexivity).
  exists (IZR q + IZR r / IZR (Zpos m2)).
  split; [exact Hq0|]. split; [apply new_location_ok; [reflexivity|exact Hr|reflexivity]|].
  split.
  - rewrite fexp64_eq.
    destruct (Z_le_gt_dec e (-1074)) as [Hc|Hc]; [lia|].
    assert (Hs' : (d2 - d1 + 53 <= s)%Z).
    { unfold s, e in *. rewrite fexp64_eq in *. lia. }
    pose proof (Zdigits2_spec (Zpos m1) eq_refl) as [H1 _].
    pose proof (Zdigits2_spec (Zpos m2) eq_refl) as [_ H2].
    pose proof (Zdigits2_pos (Zpos m1) eq_refl) as P1.
    pose proof (Zdigits2_pos (Zpos m2) eq_refl) as Pd2.
    fold d1 in H1, P1. fold d2 in H2, Pd2.
    assert (Hm : (2 ^ d2 * 2 ^ 52 <= m)%Z).
    { rewrite Em, <- Z.pow_add_r by lia.
      apply Z.le_trans with (2 ^ (d1 - 1) * 2 ^ s)%Z; [|nia].
      rewrite <- Z.pow_add_r by lia. apply Z.pow_le_mono_r; lia. }
    assert (Hq : (2 ^ 52 <= q)%Z).
    { assert (0 < 2 ^ 52)%Z by reflexivity. nia. }
    assert (52 < Zdigits2 q)%Z; [|lia].
    pose proof (Zdigits2_spec q) as Hdq.
    apply Z.pow_lt_mono_r_iff with (a := 2%Z); [lia | apply Zdigits2_nonneg | lia].
  - pose proof (bpow_pos e2) as Pe2.
    replace (IZR q + IZR r / IZR (Zpos m2)) with (IZR m / IZR (Zpos m2)).
    2:{ rewrite Hqr, plus_IZR, mult_IZR. field. lra. }
    rewrite Em, mult_IZR, IZR_pow2 by lia.
    assert (E1 : bpow e1 = bpow s * bpow e * bpow e2).
    { rewrite <- !bpow_add. f_equal. unfold s. lia. }
    rewrite E1. field. lra.
Qed.

(** *** Roundings *)

Lemma rounding_error V res :
  rounding V res -> Rabs V <= bpow 1023 ->
  SFfin res /\ round_err V (SF2R res).
Proof.
  intros (sx & mx & ex & lx & t & Hm & Hin & He & -> & ->) Hb.
  rewrite Rabs_sgn in Hb. apply Rabs_bound in Hb.
  apply round_aux_error; [assumption..|lra].
Qed.

Lemma rounding_valid V res : rounding V res -> valid_binary res = true.
Proof.
  intros (sx & mx & ex & lx & t & Hm & Hin & He & -> & ->).
  now apply round_aux_correct with (t := t).
Qed.

(** A valid number is its own rounding. *)
Lemma valid_rounding (x : spec_float) :
  valid_binary x = true -> SFfin x -> rounding (SF2R x) x.
Proof.
  intros V F. destruct x as [s|s| |s m e]; try contradiction.
  - exists s, 0%Z, (-1074)%Z, loc_Exact, 0. cbn [SF2R inbetween].
    repeat split; try lia; try reflexivity.
    + destruct s; simpl; lra.
  - apply valid_finite in V. destruct V as [C B].
    exists s, (Zpos m), e, loc_Exact, (IZR (Zpos m)). cbn [SF2R inbetween].
    repeat split; try lia; try reflexivity.
    unfold binary_round_aux, shr_fexp. unfold fexp64 in C. rewrite C, Z.sub_diag.
    cbn [shr shr_record_of_loc round_nearest_even loc_of_shr_record shr_m].
    cbn [Zdigits2]. cbn [Zdigits2] in C. rewrite C, Z.sub_diag.
    cbn [shr shr_record_of_loc shr_m].
    apply Z.leb_le in B. change (emax - prec)%Z with 971%Z. now rewrite B.
Qed.


Lemma zero_rounding (s : bool) : rounding 0 (S754_zero s).
Proof. apply (valid_rounding (S754_zero s)); [reflexivity | exact I]. Qed.

Lemma SFmul_rounding x y :
  valid_binary x = true -> valid_binary y = true -> SFfin x -> SFfin y ->
  rounding (SF2R x * SF2R y) (SFmul prec emax x y).
Proof.
  intros Vx Vy Fx Fy.
  destruct x as [sx|sx| |sx mx ex]; try contradiction;
    destruct y as [sy|sy| |sy my ey]; try contradiction; cbn [SFmul SF2R];
    rewrite ?Rmult_0_l, ?Rmult_0_r; try apply zero_rounding.
  apply valid_finite in Vx, Vy. destruct Vx as [Cx _], Vy as [Cy _].
  exists (xorb sx sy), (Zpos (mx * my)), (ex + ey)%Z, loc_Exact,
    (IZR (Zpos (mx * my))).
  split; [lia|]. split; [reflexivity|]. split; [|split; [|reflexivity]].
  - pose proof (Zdigits2_mul mx my) as Hd.
    pose proof (Zdigits2_pos (Zpos mx) eq_refl) as Px.
    pose proof (Zdigits2_pos (Zpos my) eq_refl) as Py.
    rewrite fexp64_eq in *. lia.
  - rewrite sgn_mul. f_equal. rewrite Pos2Z.inj_mul, mult_IZR, bpow_add. ring.
Qed.

Lemma binary_round_rounding sx mx ex :
  rounding (sgn sx (IZR (Zpos mx) * bpow ex)) (binary_round prec emax sx mx ex).
Proof.
  unfold binary_round.
  fold (Zdigits2 (Zpos mx)). fold (fexp64 (Zdigits2 (Zpos mx) + ex)).
  set (e' := fexp64 (Zdigits2 (Zpos mx) + ex)).
  pose proof (shl_align_value mx ex e') as Hval.
  destruct (shl_align_ok mx ex e') as [He Hm].
  destruct (shl_align mx ex e') as [mz ez]. cbn [fst snd] in *.
  exists sx, (Zpos mz), ez, loc_Exact, (IZR (Zpos mz)).
  split; [lia|]. split; [reflexivity|]. split; [|split; [|reflexivity]].
  - rewrite Hm, Zdigits2_shift by lia.
    replace (Zdigits2 (Zpos mx) + (ex - Z.min ex e') + ez)%Z
      with (Zdigits2 (Zpos mx) + ex)%Z by lia.
    fold e'. lia.
  - now rewrite Hval.
Qed.

Lemma binary_normalize_rounding z e sz :
  rounding (IZR z * bpow e) (binary_normalize prec emax z e sz).
Proof.
  destruct z as [|m|m]; cbn [binary_normalize].
  - rewrite Rmult_0_l. apply zero_rounding.
  - apply (binary_round_rounding false).
  - change (IZR (Zneg m)) with (- IZR (Zpos m)).
    replace (- IZR (Zpos m) * bpow e) with (sgn true (IZR (Zpos m) * bpow e))
      by (simpl; lra).
    apply binary_round_rounding.
Qed.

Lemma aligned_value (s : bool) (m : positive) (e ez : Z) :
  (ez <= e)%Z ->
  IZR (cond_Zopp s (Zpos (fst (shl_align m e ez)))) * bpow ez
  = SF2R (S754_finite s m e).
Proof.
  intros H. pose proof (shl_align_value m e ez) as Hv.
  destruct (shl_align_ok m e ez) as [E _]. rewrite E in Hv.
  replace (Z.min e ez) with ez in Hv by lia.
  cbn [SF2R]. rewrite <- Hv.
  destruct s; cbn [sgn cond_Zopp]; rewrite ?opp_IZR; ring.
Qed.

Lemma SFadd_rounding x y :
  valid_binary x = true -> valid_binary y = true -> SFfin x -> SFfin y ->
  rounding (SF2R x + SF2R y) (SFadd prec emax x y).
Proof.
  intros Vx Vy Fx Fy.
  destruct x as [sx|sx| |sx mx ex]; try contradiction;
    destruct y as [sy|sy| |sy my ey]; try contradiction; cbn [SFadd].
  - cbn [SF2R]. rewrite Rplus_0_l. destruct sx, sy; apply zero_rounding.
  - replace (SF2R (S754_zero sx) + SF2R (S754_finite sy my ey))
      with (SF2R (S754_finite sy my ey)) by (cbn [SF2R]; lra).
    now apply valid_rounding.
  - replace (SF2R (S754_finite sx mx ex) + SF2R (S754_zero sy))
      with (SF2R (S754_finite sx mx ex)) by (cbn [SF2R]; lra).
    now apply valid_rounding.
  - set (ez := Z.min ex ey).
    rewrite <- (aligned_value sx mx ex ez), <- (aligned_value sy my ey ez)
      by (unfold ez; lia).
    rewrite <- Rmult_plus_distr_r, <- plus_IZR.
    apply binary_normalize_rounding.
Qed.

Lemma SF2R_opp (s : bool) (m : positive) (e : Z) :
  SF2R (S754_finite (negb s) m e) = - SF2R (S754_finite s m e).
Proof. cbn [SF2R]. destruct s; simpl; lra. Qed.

Lemma SFsub_rounding x y :
  valid_binary x = true -> valid_binary y = true -> SFfin x -> SFfin y ->
  rounding (SF2R x - SF2R y) (SFsub prec emax x y).
Proof.
  intros Vx Vy Fx Fy.
  destruct x as [sx|sx| |sx mx ex]; try contradiction;
    destruct y as [sy|sy| |sy my ey]; try contradiction; cbn [SFsub].
  - cbn [SF2R]. rewrite Rminus_diag. destruct sx, sy; apply zero_rounding.
  - replace (SF2R (S754_zero sx) - SF2R (S754_finite sy my ey))
      with (SF2R (S754_finite (negb sy) my ey))
      by (rewrite SF2R_opp; cbn [SF2R]; lra).
    apply valid_rounding; [exact Vy | exact I].
  - replace (SF2R (S754_finite sx mx ex) - SF2R (S754_zero sy))
      with (SF2R (S754_finite sx mx ex)) by (cbn [SF2R]; lra).
    now apply valid_rounding.
  - set (ez := Z.min ex ey).
    rewrite <- (aligned_value sx mx ex ez), <- (aligned_value sy my ey ez)
      by (unfold ez; lia).
    rewrite <- Rmult_minus_distr_r, <- minus_IZR.
    apply binary_normalize_rounding.
Qed.

Lemma SFdiv_rounding x sy my ey :
  SFfin x ->
  rounding (SF2R x / SF2R (S754_finite sy my ey))
           (SFdiv prec emax x (S754_finite sy my ey)).
Proof.
  intros Fx.
  destruct x as [sx|sx| |sx mx ex]; try contradiction; cbn [SFdiv].
  - cbn [SF2R]. unfold Rdiv. rewrite Rmult_0_l. apply zero_rounding.
  - pose proof (SFdiv_core_ok mx my ex ey) as H.
    destruct (SFdiv_core_binary prec emax (Zpos mx) ex (Zpos my) ey)
      as [[q e] l].
    destruct H as (t & Hq & Hin & He & Hv).
    assert (Pm : 0 < IZR (Zpos my) * bpow ey).
    { apply Rmult_lt_0_compat; [apply IZR_lt; reflexivity | apply bpow_pos]. }
    exists (xorb sx sy), q, e, l, t. repeat split; try assumption.
    cbn [SF2R]. rewrite sgn_div by lra. now rewrite Hv.
Qed.


(** The rounding of a non-negative real [V]: the exponent [e1] is the one
    the format gives to the magnitude of [V], and the result is
    [rne (V / 2^e1) * 2^e1], or an overflow. *)
Lemma rounding_analysis V res :
  rounding V res -> 0 <= V ->
  exists (e1 z : Z),
    (-1074 <= e1)%Z /\ z = rne (V * bpow (- e1)) /\ (0 <= z)%Z
    /\ V < bpow (e1 + 53)
    /\ ((-1074 < e1)%Z -> bpow (e1 + 52) <= V)
    /\ ((z = 0%Z /\ exists s, res = S754_zero s)
        \/ (exists m e, res = S754_finite false m e
                        /\ IZR (Zpos m) * bpow e = IZR z * bpow e1)
        \/ (res = S754_infinity false /\ bpow 1024 <= IZR z * bpow e1)).
Proof.
  intros (sx & mx & ex & lx & t & Hm & Hin & He & -> & ->) HV.
  destruct (round_aux_correct sx mx ex lx t Hm Hin He) as [Hr _].
  set (d := (Zdigits2 mx + ex)%Z) in *. set (e1 := fexp64 d) in *.
  pose proof (bpow_pos ex) as Pex. pose proof (bpow_pos (- e1)) as Pe1.
  pose proof (bpow_pos e1) as Pe1'.
  pose proof (inbetween_floor _ _ _ Hin) as Ht.
  assert (Hm' : 0 <= IZR mx) by (apply IZR_le; exact Hm).
  assert (Hv0 : 0 <= t * bpow ex) by (apply Rmult_le_pos; lra).
  assert (He1 : (-1074 <= e1)%Z) by (unfold e1; rewrite fexp64_eq; lia).
  assert (Hu0 : 0 <= t * bpow ex * bpow (- e1)) by (apply Rmult_le_pos; lra).
  assert (Hz0 : (0 <= rne (t * bpow ex * bpow (- e1)))%Z)
    by (apply rne_ge_int; exact Hu0).
  assert (Hlt : t * bpow ex < bpow (e1 + 53)).
  { apply Rlt_le_trans with (bpow d).
    - unfold d. rewrite bpow_add. apply Rmult_lt_compat_r; [lra|].
      rewrite <- IZR_pow2 by apply Zdigits2_nonneg.
      pose proof (Zdigits2_upper mx Hm) as Hd. apply IZR_le in Hd.
      rewrite plus_IZR in Hd. lra.
    - apply bpow_le. unfold e1. rewrite fexp64_eq. lia. }
  assert (Hge : (-1074 < e1)%Z -> bpow (e1 + 52) <= t * bpow ex).
  { intros Hgt.
    assert (E1 : (e1 = d - 53)%Z) by (unfold e1 in *; rewrite fexp64_eq in *; lia).
    assert (Hmx : (0 < mx)%Z).
    { destruct (Z.eq_dec mx 0) as [E|]; [|lia].
      assert (Hd : d = ex) by (unfold d; rewrite E; reflexivity).
      unfold e1 in *. rewrite fexp64_eq in *. lia. }
    pose proof (Zdigits2_spec mx Hmx) as [Hlo _]. apply IZR_le in Hlo.
    pose proof (Zdigits2_pos mx Hmx) as Hdp.
    rewrite IZR_pow2 in Hlo by lia.
    replace (e1 + 52)%Z with (Zdigits2 mx - 1 + ex)%Z by (unfold d in E1; lia).
    rewrite bpow_add. apply Rmult_le_compat_r; lra. }
  destruct sx.
  - (* a negative sign: the value is zero *)
    cbn [sgn] in *.
    assert (Hv : t * bpow ex = 0) by lra.
    assert (Et : t = 0).
    { destruct (Rmult_integral _ _ Hv); [assumption | lra]. }
    exists e1, 0%Z. rewrite Hv, Ropp_0, Rmult_0_l.
    replace 0 with (IZR 0) at 1 by reflexivity. rewrite rne_IZR.
    repeat split; try lia; try apply bpow_pos.
    + intros Hgt. specialize (Hge Hgt). rewrite Hv in Hge.
      pose proof (bpow_pos (e1 + 52)). lra.
    + left. split; [reflexivity|].
      rewrite Hv, Rmult_0_l in Hr.
      replace 0 with (IZR 0) in Hr at 1 by reflexivity.
      rewrite rne_IZR, Rmult_0_l in Hr.
      destruct Hr as [[_ ->]|[(m & e & _ & Hme)|[_ Hinf]]].
      * eauto.
      * pose proof (bpow_pos e). assert (0 < IZR (Zpos m)) by (apply IZR_lt; reflexivity).
        nra.
      * pose proof (bpow_pos 1024). lra.
  - cbn [sgn] in *. exists e1, (rne (t * bpow ex * bpow (- e1))).
    repeat split; try assumption.
    destruct Hr as [[Hw ->]|[(m & e & -> & Hme)|[-> Hinf]]].
    + left. split; [|eauto].
      destruct (Rmult_integral _ _ Hw) as [H|H]; [|lra].
      now apply eq_IZR in H.
    + right. left. eauto.
    + right. right. split; [reflexivity | exact Hinf].
Qed.

Lemma rounding_nonneg V res :
  rounding V res -> 0 <= V ->
  (SFfin res /\ 0 <= SF2R res) \/ res = S754_infinity false.
Proof.
  intros H HV. destruct (rounding_analysis V res H HV)
    as (e1 & z & He1 & Hz & Hz0 & _ & _ & [[_ [s ->]]|[(m & e & -> & Hme)|[-> _]]]).
  - left. split; [exact I|]. cbn [SF2R]. lra.
  - left. split; [exact I|]. cbn [SF2R sgn]. rewrite Hme.
    apply Rmult_le_pos; [apply IZR_le; exact Hz0 | apply Rlt_le, bpow_pos].
  - now right.
Qed.

(** Rounding does not cross a binary64 number. *)
Lemma rounding_le_representable V res B :
  rounding V res -> 0 <= V <= B -> representable B ->
  SFfin res /\ 0 <= SF2R res <= B.
Proof.
  intros H [HV HB] (mb & eb & -> & Cb & Eb).
  destruct (rounding_analysis V res H HV)
    as (e1 & z & He1 & Hz & Hz0 & Hlt & Hge & Hres).
  pose proof (bpow_pos e1) as Pe1. pose proof (bpow_pos (- e1)) as Pe1'.
  pose proof (bpow_pos eb) as Peb.
  pose proof (Zdigits2_spec (Zpos mb) eq_refl) as [_ Hmb].
  assert (Db : (Zdigits2 (Zpos mb) <= 53)%Z) by (rewrite fexp64_eq in Cb; lia).
  assert (Hmb' : IZR (Zpos mb) < bpow 53).
  { rewrite <- IZR_pow2 by lia. apply IZR_lt.
    apply Z.lt_le_trans with (1 := Hmb). apply Z.pow_le_mono_r; lia. }
  assert (Hee : (e1 <= eb)%Z).
  { destruct (Z_le_gt_dec e1 eb) as [|Hgt]; [assumption|].
    assert (G : (-1074 < e1)%Z) by (rewrite fexp64_eq in Cb; lia).
    specialize (Hge G).
    assert (bpow (e1 + 52) < bpow (53 + eb)).
    { apply Rle_lt_trans with (1 := Hge). apply Rle_lt_trans with (1 := HB).
      rewrite bpow_add. apply Rmult_lt_compat_r; assumption. }
    apply bpow_lt_inv in H0. lia. }
  assert (Hzb : (z <= Zpos mb * 2 ^ (eb - e1))%Z).
  { rewrite Hz. apply rne_le_int. rewrite mult_IZR, IZR_pow2 by lia.
    replace (eb - e1)%Z with (eb + - e1)%Z by lia. rewrite bpow_add.
    rewrite <- Rmult_assoc. apply Rmult_le_compat_r; lra. }
  assert (Hw : IZR z * bpow e1 <= IZR (Zpos mb) * bpow eb).
  { apply IZR_le in Hzb. rewrite mult_IZR, IZR_pow2 in Hzb by lia.
    assert (E : bpow eb = bpow (eb - e1) * bpow e1).
    { rewrite <- bpow_add. f_equal. lia. }
    rewrite E, <- Rmult_assoc. apply Rmult_le_compat_r; lra. }
  assert (Hw0 : 0 <= IZR z * bpow e1).
  { apply Rmult_le_pos; [apply IZR_le; exact Hz0 | lra]. }
  destruct Hres as [[_ [s ->]]|[(m & e & -> & Hme)|[-> Hinf]]].
  - split; [exact I|]. cbn [SF2R]. split; [lra|].
    apply Rmult_le_pos; [apply IZR_le; lia | lra].
  - split; [exact I|]. cbn [SF2R sgn]. rewrite Hme. lra.
  - exfalso.
    assert (IZR (Zpos mb) * bpow eb < bpow 1024).
    { apply Rlt_le_trans with (bpow 53 * bpow eb).
      - apply Rmult_lt_compat_r; assumption.
      - rewrite <- bpow_add. apply bpow_le. lia. }
    lra.
Qed.

(** Rounding is monotone on the non-negative reals. *)
Lemma rounding_mono V1 r1 V2 r2 :
  rounding V1 r1 -> rounding V2 r2 -> 0 <= V1 <= V2 -> SFfin r2 ->
  SFfin r1 /\ 0 <= SF2R r1 <= SF2R r2.
Proof.
  intros H1 H2 [HV1 HV12] F2.
  assert (HV2 : 0 <= V2) by lra.
  destruct (rounding_analysis V1 r1 H1 HV1)
    as (e1 & z1 & He1 & Hz1 & Hz10 & Hlt1 & Hge1 & Hres1).
  destruct (rounding_analysis V2 r2 H2 HV2)
    as (e2 & z2 & He2 & Hz2 & Hz20 & Hlt2 & Hge2 & Hres2).
  pose proof (bpow_pos e1) as Pe1. pose proof (bpow_pos (- e1)) as Pe1'.
  pose proof (bpow_pos e2) as Pe2. pose proof (bpow_pos (- e2)) as Pe2'.
  assert (Hee : (e1 <= e2)%Z).
  { destruct (Z_le_gt_dec e1 e2) as [|Hgt]; [assumption|].
    assert (G : (-1074 < e1)%Z) by lia. specialize (Hge1 G).
    assert (bpow (e1 + 52) < bpow (e2 + 53)) by lra.
    apply bpow_lt_inv in H. lia. }
  assert (Hw : IZR z1 * bpow e1 <= IZR z2 * bpow e2).
  { destruct (Z.eq_dec e1 e2) as [E|NE].
    - subst e2. apply Rmult_le_compat_r; [lra|]. apply IZR_le.
      rewrite Hz1, Hz2. apply rne_mono. apply Rmult_le_compat_r; lra.
    - assert (G : (-1074 < e2)%Z) by lia. specialize (Hge2 G).
      apply Rle_trans with (bpow (e1 + 53)).
      + assert (z1 <= 2 ^ 53)%Z.
        { rewrite Hz1. apply rne_le_int. rewrite IZR_pow2 by lia.
          apply Rmult_le_reg_r with (bpow e1); [lra|].
          rewrite Rmult_assoc, <- !bpow_add.
          replace (- e1 + e1)%Z with 0%Z by lia. rewrite bpow_0, Rmult_1_r.
          replace (53 + e1)%Z with (e1 + 53)%Z by lia. lra. }
        apply IZR_le in H. rewrite IZR_pow2 in H by lia.
        replace (e1 + 53)%Z with (53 + e1)%Z by lia. rewrite bpow_add.
        apply Rmult_le_compat_r; lra.
      + apply Rle_trans with (bpow (e2 + 52)); [apply bpow_le; lia|].
        assert (2 ^ 52 <= z2)%Z.
        { rewrite Hz2. apply rne_ge_int. rewrite IZR_pow2 by lia.
          apply Rmult_le_reg_r with (bpow e2); [lra|].
          rewrite Rmult_assoc, <- !bpow_add.
          replace (- e2 + e2)%Z with 0%Z by lia. rewrite bpow_0, Rmult_1_r.
          replace (52 + e2)%Z with (e2 + 52)%Z by lia. lra. }
        apply IZR_le in H. rewrite IZR_pow2 in H by lia.
        replace (e2 + 52)%Z with (52 + e2)%Z by lia. rewrite bpow_add.
        apply Rmult_le_compat_r; lra. }
  assert (Hw0 : 0 <= IZR z1 * bpow e1).
  { apply Rmult_le_pos; [apply IZR_le; exact Hz10 | lra]. }
  assert (Hv2 : SF2R r2 = IZR z2 * bpow e2).
  { destruct Hres2 as [[-> [s ->]]|[(m & e & -> & Hme)|[-> _]]];
      [cbn [SF2R]; lra | cbn [SF2R sgn]; exact Hme | contradiction]. }
  assert (Hb2 : IZR z2 * bpow e2 < bpow 1024).
  { destruct Hres2 as [[-> _]|[(m & e & -> & Hme)|[-> _]]]; [| |contradiction].
    - rewrite Rmult_0_l. apply bpow_pos.
    - rewrite <- Hme. apply rounding_valid in H2. apply valid_finite in H2.
      destruct H2 as [C B]. rewrite fexp64_eq in C.
      pose proof (Zdigits2_spec (Zpos m) eq_refl) as [_ Hm].
      assert (Hm' : IZR (Zpos m) < bpow 53).
      { rewrite <- IZR_pow2 by lia. apply IZR_lt.
        apply Z.lt_le_trans with (1 := Hm). apply Z.pow_le_mono_r; lia. }
      pose proof (bpow_pos e).
      apply Rlt_le_trans with (bpow 53 * bpow e).
      + apply Rmult_lt_compat_r; assumption.
      + rewrite <- bpow_add. apply bpow_le. lia. }
  rewrite Hv2.
  destruct Hres1 as [[-> [s ->]]|[(m & e & -> & Hme)|[-> Hinf]]].
  - split; [exact I|]. cbn [SF2R]. lra.
  - split; [exact I|]. cbn [SF2R sgn]. rewrite Hme. lra.
  - lra.
Qed.


(** *** The order of binary64 numbers is the order of the reals *)

Lemma canonical_lt (m1 m2 : positive) (e1 e2 : Z) :
  fexp64 (Zdigits2 (Zpos m1) + e1) = e1 ->
  fexp64 (Zdigits2 (Zpos m2) + e2) = e2 ->
  (e1 < e2)%Z ->
  IZR (Zpos m1) * bpow e1 < IZR (Zpos m2) * bpow e2.
Proof.
  intros C1 C2 H. rewrite fexp64_eq in C1, C2.
  pose proof (Zdigits2_spec (Zpos m1) eq_refl) as [_ H1].
  pose proof (Zdigits2_spec (Zpos m2) eq_refl) as [H2 _].
  assert (D1 : (Zdigits2 (Zpos m1) <= 53)%Z) by lia.
  assert (D2 : Zdigits2 (Zpos m2) = 53%Z) by lia.
  rewrite D2 in H2. change (53 - 1)%Z with 52%Z in H2.
  assert (H1' : (Zpos m1 < 2 ^ 53)%Z).
  { apply Z.lt_le_trans with (1 := H1). apply Z.pow_le_mono_r; lia. }
  apply IZR_lt in H1'. apply IZR_le in H2. rewrite IZR_pow2 in H1', H2 by lia.
  pose proof (bpow_pos e1). pose proof (bpow_pos e2).
  apply Rlt_le_trans with (bpow 53 * bpow e1); [apply Rmult_lt_compat_r; lra|].
  apply Rle_trans with (bpow 52 * bpow e2); [|apply Rmult_le_compat_r; lra].
  rewrite <- !bpow_add. apply bpow_le. lia.
Qed.

Lemma SFcompare_fin (x y : spec_float) :
  valid_binary x = true -> valid_binary y = true -> SFfin x -> SFfin y ->
  match SFcompare x y with
  | Some Lt => SF2R x < SF2R y
  | Some Eq => SF2R x = SF2R y
  | Some Gt => SF2R y < SF2R x
  | None => False
  end.
Proof.
  intros Vx Vy Fx Fy.
  destruct x as [sx|sx| |sx mx ex]; try contradiction;
    destruct y as [sy|sy| |sy my ey]; try contradiction; cbn [SFcompare SF2R].
  - reflexivity.
  - assert (0 < IZR (Zpos my) * bpow ey).
    { apply Rmult_lt_0_compat; [apply IZR_lt; reflexivity | apply bpow_pos]. }
    destruct sy; cbn [sgn]; lra.
  - assert (0 < IZR (Zpos mx) * bpow ex).
    { apply Rmult_lt_0_compat; [apply IZR_lt; reflexivity | apply bpow_pos]. }
    destruct sx; cbn [sgn]; lra.
  - apply valid_finite in Vx, Vy. destruct Vx as [Cx _], Vy as [Cy _].
    assert (Px : 0 < IZR (Zpos mx) * bpow ex).
    { apply Rmult_lt_0_compat; [apply IZR_lt; reflexivity | apply bpow_pos]. }
    assert (Py : 0 < IZR (Zpos my) * bpow ey).
    { apply Rmult_lt_0_compat; [apply IZR_lt; reflexivity | apply bpow_pos]. }
    assert (Hcmp : match Z.compare ex ey with
                   | Lt => IZR (Zpos mx) * bpow ex < IZR (Zpos my) * bpow ey
                   | Gt => IZR (Zpos my) * bpow ey < IZR (Zpos mx) * bpow ex
                   | Eq => match Pos.compare_cont Eq mx my with
                           | Lt => IZR (Zpos mx) * bpow ex < IZR (Zpos my) * bpow ey
                           | Gt => IZR (Zpos my) * bpow ey < IZR (Zpos mx) * bpow ex
                           | Eq => IZR (Zpos mx) * bpow ex = IZR (Zpos my) * bpow ey
                           end
                   end).
    { destruct (Z.compare_spec ex ey) as [E|L|G].
      - subst ey. change (Pos.compare_cont Eq mx my) with (Pos.compare mx my).
        pose proof (bpow_pos ex).
        destruct (Pos.compare_spec mx my) as [E|L|G].
        + now subst.
        + apply Rmult_lt_compat_r; [assumption|]. apply IZR_lt. exact L.
        + apply Rmult_lt_compat_r; [assumption|]. apply IZR_lt. exact G.
      - now apply canonical_lt.
      - now apply canonical_lt. }
    destruct sx, sy; cbn [sgn]; try lra;
      destruct (Z.compare ex ey); try lra;
      destruct (Pos.compare_cont Eq mx my); cbn [CompOpp]; lra.
Qed.

Lemma SFleb_fin (x y : spec_float) :
  valid_binary x = true -> valid_binary y = true -> SFfin x -> SFfin y ->
  SFleb x y = true <-> SF2R x <= SF2R y.
Proof.
  intros Vx Vy Fx Fy. pose proof (SFcompare_fin x y Vx Vy Fx Fy) as H.
  unfold SFleb. destruct (SFcompare x y) as [[| |]|]; try contradiction;
    split; intros; try reflexivity; try discriminate; lra.
Qed.

End Binary64Facts.

(** ** The rounding error of the weighted sum *)

Module ErrorFacts.
Import Binary64Facts.
Local Open Scope R_scope.

(** The error of one operation on finite numbers. *)
Lemma mul_error (x y : float) :
  fin x -> fin y -> Rabs (to_R x * to_R y) <= bpow 1023 ->
  fin (x * y) /\ round_err (to_R x * to_R y) (to_R (x * y)).
Proof.
  unfold fin, to_R. rewrite mul_spec. intros Fx Fy Hb.
  apply (rounding_error (SF2R (Prim2SF x) * SF2R (Prim2SF y))); [|exact Hb].
  apply SFmul_rounding; try apply Prim2SF_valid; assumption.
Qed.

Lemma add_error (x y : float) :
  fin x -> fin y -> Rabs (to_R x + to_R y) <= bpow 1023 ->
  fin (x + y) /\ round_err (to_R x + to_R y) (to_R (x + y)).
Proof.
  unfold fin, to_R. rewrite add_spec. intros Fx Fy Hb.
  apply (rounding_error (SF2R (Prim2SF x) + SF2R (Prim2SF y))); [|exact Hb].
  apply SFadd_rounding; try apply Prim2SF_valid; assumption.
Qed.

Lemma sub_error (x y : float) :
  fin x -> fin y -> Rabs (to_R x - to_R y) <= bpow 1023 ->
  fin (x - y) /\ round_err (to_R x - to_R y) (to_R (x - y)).
Proof.
  unfold fin, to_R. rewrite sub_spec. intros Fx Fy Hb.
  apply (rounding_error (SF2R (Prim2SF x) - SF2R (Prim2SF y))); [|exact Hb].
  apply SFsub_rounding; try apply Prim2SF_valid; assumption.
Qed.

Lemma div_error (x y : float) sy my ey :
  fin x -> Prim2SF y = S754_finite sy my ey ->
  Rabs (to_R x / to_R y) <= bpow 1023 ->
  fin (x / y) /\ round_err (to_R x / to_R y) (to_R (x / y)).
Proof.
  unfold fin, to_R. rewrite div_spec. intros Fx -> Hb.
  apply (rounding_error (SF2R (Prim2SF x) / SF2R (S754_finite sy my ey)));
    [|exact Hb].
  now apply SFdiv_rounding.
Qed.

(** The absolute error of a result of moderate size. *)
Lemma round_err_abs v w :
  round_err v w -> Rabs v <= bpow 32 -> Rabs (w - v) <= bpow (-20).
Proof.
  unfold round_err. intros H Hv.
  assert (H1 : bpow (-53) * Rabs v <= bpow (-21)).
  { replace (-21)%Z with (-53 + 32)%Z by lia. rewrite bpow_add.
    apply Rmult_le_compat_l; [apply Rlt_le, bpow_pos | exact Hv]. }
  assert (H2 : bpow (-1075) <= bpow (-21)) by (apply bpow_le; lia).
  replace (-20)%Z with (-21 + 1)%Z by lia. rewrite bpow_succ. lra.
Qed.

Lemma bpow_32 : bpow 32 = 4294967296.
Proof. rewrite bpow_IZR by lia. reflexivity. Qed.

Lemma bpow_m20 : bpow (-20) = / 1048576.
Proof. change (-20)%Z with (- (20))%Z. rewrite bpow_opp, bpow_IZR by lia. reflexivity. Qed.

Lemma bpow_32_1023 : bpow 32 <= bpow 1023.
Proof. apply bpow_le. lia. Qed.

Lemma mul_abs (x y : float) (A B : R) :
  fin x -> fin y -> Rabs (to_R x) <= A -> Rabs (to_R y) <= B ->
  A * B <= 4294967296 ->
  fin (x * y)
  /\ Rabs (to_R (x * y) - to_R x * to_R y) <= / 1048576
  /\ Rabs (to_R x * to_R y) <= A * B.
Proof.
  intros Fx Fy Hx Hy HAB.
  assert (Hp : Rabs (to_R x * to_R y) <= A * B).
  { rewrite Rabs_mult. pose proof (Rabs_pos (to_R x)). pose proof (Rabs_pos (to_R y)).
    apply Rmult_le_compat; assumption. }
  rewrite <- bpow_32 in HAB. pose proof bpow_32_1023.
  destruct (mul_error x y Fx Fy) as [F E]; [lra|].
  split; [exact F|]. split; [|exact Hp].
  rewrite <- bpow_m20. apply round_err_abs; [exact E | lra].
Qed.

Lemma add_abs (x y : float) (A : R) :
  fin x -> fin y -> Rabs (to_R x + to_R y) <= A -> A <= 4294967296 ->
  fin (x + y) /\ Rabs (to_R (x + y) - (to_R x + to_R y)) <= / 1048576.
Proof.
  intros Fx Fy Hs HA. rewrite <- bpow_32 in HA. pose proof bpow_32_1023.
  destruct (add_error x y Fx Fy) as [F E]; [lra|].
  split; [exact F|]. rewrite <- bpow_m20. apply round_err_abs; [exact E | lra].
Qed.

Lemma to_R_100 : to_R 100 = 100.
Proof.
  unfold to_R. change (Prim2SF 100) with (S754_finite false 7036874417766400 (-46)).
  cbn [SF2R sgn]. change (-46)%Z with (- (46))%Z.
  rewrite bpow_opp, bpow_IZR by lia.
  change (2 ^ 46)%Z with 70368744177664%Z. lra.
Qed.





(** *** Comparison with a positive constant *)



(** *** The weighted sum and its rounding to two decimals *)

Lemma product_abs (w c : float) :
  bounded w -> bounded c ->
  fin (w * c)
  /\ Rabs (to_R (w * c) - to_R w * to_R c) <= / 1048576
  /\ Rabs (to_R w * to_R c) <= 1000000.
Proof.
  intros [Fw Hw] [Fc Hc].
  destruct (mul_abs w c 1000 1000 Fw Fc Hw Hc) as (F & E & B); [lra|].
  split; [exact F|]. split; [exact E|]. lra.
Qed.

Lemma weighted_sum_abs (w1 c1 w2 c2 w3 c3 w4 c4 w5 c5 : float) :
  bounded w1 -> bounded c1 -> bounded w2 -> bounded c2 ->
  bounded w3 -> bounded c3 -> bounded w4 -> bounded c4 ->
  bounded w5 -> bounded c5 ->
  fin (w1 * c1 + w2 * c2 + w3 * c3 + w4 * c4 + w5 * c5)
  /\ Rabs (to_R (w1 * c1 + w2 * c2 + w3 * c3 + w4 * c4 + w5 * c5)
           - (to_R w1 * to_R c1 + to_R w2 * to_R c2 + to_R w3 * to_R c3
              + to_R w4 * to_R c4 + to_R w5 * to_R c5)) <= 9 / 1048576
  /\ Rabs (to_R (w1 * c1 + w2 * c2 + w3 * c3 + w4 * c4 + w5 * c5)) <= 5000001.
Proof.
  intros W1 C1 W2 C2 W3 C3 W4 C4 W5 C5.
  destruct (product_abs w1 c1 W1 C1) as (F1 & E1 & B1).
  destruct (product_abs w2 c2 W2 C2) as (F2 & E2 & B2).
  destruct (product_abs w3 c3 W3 C3) as (F3 & E3 & B3).
  destruct (product_abs w4 c4 W4 C4) as (F4 & E4 & B4).
  destruct (product_abs w5 c5 W5 C5) as (F5 & E5 & B5).
  apply Rabs_bound in E1, E2, E3, E4, E5, B1, B2, B3, B4, B5.
  destruct (add_abs (w1 * c1) (w2 * c2) 2000001 F1 F2) as (G2 & A2);
    [apply Rabs_within; lra | lra |].
  apply Rabs_bound in A2.
  destruct (add_abs (w1 * c1 + w2 * c2) (w3 * c3) 3000001 G2 F3) as (G3 & A3);
    [apply Rabs_within; lra | lra |].
  apply Rabs_bound in A3.
  destruct (add_abs (w1 * c1 + w2 * c2 + w3 * c3) (w4 * c4) 4000001 G3 F4)
    as (G4 & A4); [apply Rabs_within; lra | lra |].
  apply Rabs_bound in A4.
  destruct (add_abs (w1 * c1 + w2 * c2 + w3 * c3 + w4 * c4) (w5 * c5) 5000001 G4 F5)
    as (G5 & A5); [apply Rabs_within; lra | lra |].
  apply Rabs_bound in A5.
  split; [exact G5|]. split; apply Rabs_within; lra.
Qed.



End ErrorFacts.

(** ** Scores between 0 and 100: the range of the normalised scores *)

Module RangeFacts.
Import FloatFacts GoMapFacts NormalizerFacts Binary64Facts ErrorFacts.
Local Open Scope R_scope.


Lemma is_nan_spec (x : float) : is_nan x = true <-> Prim2SF x = S754_nan.
Proof.
  unfold is_nan. rewrite negb_true_iff, eqb_spec.
  destruct (Prim2SF x) as [s|s| |s m e]; unfold SFeqb; cbn [SFcompare].
  - split; discriminate.
  - destruct s; split; discriminate.
  - split; reflexivity.
  - rewrite Z.compare_refl.
    change (Pos.compare_cont Eq m m) with (Pos.compare m m).
    rewrite Pos.compare_refl. destruct s; split; discriminate.
Qed.

Lemma to_R_0 : to_R 0 = 0.
Proof. reflexivity. Qed.

Lemma to_R_1 : to_R 1 = 1.
Proof.
  unfold to_R. change (Prim2SF 1) with (S754_finite false 4503599627370496 (-52)).
  cbn [SF2R sgn]. change (-52)%Z with (- (52))%Z.
  rewrite bpow_opp, bpow_IZR by lia.
  change (2 ^ 52)%Z with 4503599627370496%Z. lra.
Qed.

Lemma to_R_10000 : to_R 10000 = 10000.
Proof.
  unfold to_R.
  change (Prim2SF 10000) with (S754_finite false 5497558138880000 (-39)).
  cbn [SF2R sgn]. change (-39)%Z with (- (39))%Z.
  rewrite bpow_opp, bpow_IZR by lia.
  change (2 ^ 39)%Z with 549755813888%Z. lra.
Qed.

Lemma representable_float (x : float) (m : positive) (e : Z) :
  Prim2SF x = S754_finite false m e -> representable (to_R x).
Proof.
  intros E. pose proof (Prim2SF_valid x) as V. unfold to_R. rewrite E in *.
  apply valid_finite in V. destruct V as [C B].
  exists m, e. cbn [SF2R sgn]. auto.
Qed.

Lemma representable_1 : representable 1.
Proof. rewrite <- to_R_1. now apply (representable_float 1 4503599627370496 (-52)). Qed.

Lemma representable_100 : representable 100.
Proof. rewrite <- to_R_100. now apply (representable_float 100 7036874417766400 (-46)). Qed.

Lemma representable_10000 : representable 10000.
Proof.
  rewrite <- to_R_10000.
  now apply (representable_float 10000 5497558138880000 (-39)).
Qed.

Lemma in_range_ranged (x : float) : in_range x = true <-> ranged 0 100 x.
Proof.
  unfold in_range, ranged, fin. rewrite andb_true_iff, !leb_spec.
  pose proof (Prim2SF_valid x) as Vx. pose proof (Prim2SF_valid 0) as V0.
  pose proof (Prim2SF_valid 100) as V100.
  assert (F0 : SFfin (Prim2SF 0)) by exact I.
  assert (F100 : SFfin (Prim2SF 100)) by exact I.
  pose proof to_R_0 as E0. pose proof to_R_100 as E100. unfold to_R in *.
  split.
  - intros [H0 H1].
    assert (Fx : SFfin (Prim2SF x)).
    { destruct (Prim2SF x) as [s|s| |s m e]; try exact I;
        try destruct s; discriminate. }
    apply SFleb_fin in H0; try assumption.
    apply SFleb_fin in H1; try assumption.
    split; [exact Fx|]. lra.
  - intros [Fx [H0 H1]]. split; apply SFleb_fin; try assumption; lra.
Qed.

Lemma mul_100_ranged (s : float) (h B : R) :
  ranged 0 h s -> h * 100 <= B -> representable B -> ranged 0 B (s * 100).
Proof.
  intros [Fs [H0 H1]] HB RB. unfold ranged, fin, to_R in *. rewrite mul_spec.
  apply rounding_le_representable with (V := to_R s * to_R 100).
  - apply SFmul_rounding; try apply Prim2SF_valid; [exact Fs | exact I].
  - rewrite to_R_100. unfold to_R. lra.
  - exact RB.
Qed.

Lemma sub_100_ranged (s : float) : ranged 0 100 s -> ranged 0 100 (100 - s).
Proof.
  intros [Fs [H0 H1]]. unfold ranged, fin, to_R in *. rewrite sub_spec.
  apply rounding_le_representable with (V := to_R 100 - to_R s).
  - apply SFsub_rounding; try apply Prim2SF_valid; [exact I | exact Fs].
  - rewrite to_R_100. unfold to_R. lra.
  - exact representable_100.
Qed.

Lemma div_100_ranged (r : float) (h B : R) :
  ranged 0 h r -> h <= B * 100 -> representable B -> ranged 0 B (r / 100).
Proof.
  intros [Fr [H0 H1]] HB RB. unfold ranged, fin, to_R in *. rewrite div_spec.
  change (Prim2SF 100) with (S754_finite false 7036874417766400 (-46)).
  apply rounding_le_representable
    with (V := SF2R (Prim2SF r)
               / SF2R (S754_finite false 7036874417766400 (-46))).
  - now apply SFdiv_rounding.
  - change (SF2R (S754_finite false 7036874417766400 (-46))) with (to_R 100).
    rewrite to_R_100. lra.
  - exact RB.
Qed.

(** [math.Round] keeps a number between 0 and an integer bound. *)
Lemma math_Round_ranged (y : float) :
  ranged 0 10000 y -> ranged 0 10000 (math_Round y).
Proof.
  intros [Fy [H0 H1]]. unfold ranged, fin, to_R, math_Round in *.
  destruct (Prim2SF y) as [s|s| |s m e] eqn:E; try contradiction.
  - rewrite E. split; [exact I|]. cbn [SF2R]. lra.
  - destruct (Z.leb_spec 0 e) as [He|He].
    + rewrite E. split; [exact I | split; assumption].
    + assert (Pv : 0 < IZR (Zpos m) * bpow e).
      { apply Rmult_lt_0_compat; [apply IZR_lt; reflexivity | apply bpow_pos]. }
      cbn [SF2R] in H0, H1.
      destruct s; cbn [sgn] in H0, H1; [lra|].
      set (d := (2 ^ (- e))%Z).
      assert (Hd : (0 < d)%Z) by (apply Z.pow_pos_nonneg; lia).
      assert (Hm : (Zpos m <= 10000 * d)%Z).
      { apply le_IZR. rewrite mult_IZR. unfold d. rewrite IZR_pow2 by lia.
        apply Rmult_le_reg_r with (bpow e); [apply bpow_pos|].
        rewrite Rmult_assoc, <- bpow_add.
        replace (- e + e)%Z with 0%Z by lia. rewrite bpow_0. lra. }
      pose proof (Z.div_mod (Zpos m) d ltac:(lia)) as Hdm.
      pose proof (Z.mod_pos_bound (Zpos m) d Hd) as Hr.
      set (q := (Zpos m / d)%Z) in *. set (r := (Zpos m mod d)%Z) in *.
      set (n := if (d <=? 2 * r)%Z then (q + 1)%Z else q).
      assert (Hn : (0 <= n <= 10000)%Z).
      { unfold n. destruct (Z.leb_spec d (2 * r)); nia. }
      assert (Hrd : rounding (IZR n * bpow 0)
                      (binary_normalize prec emax n 0 false))
        by apply binary_normalize_rounding.
      pose proof (rounding_valid _ _ Hrd) as V.
      rewrite (Prim2SF_SF2Prim _ V).
      apply rounding_le_representable with (V := IZR n * bpow 0);
        [exact Hrd | | exact representable_10000].
      rewrite bpow_0, Rmult_1_r. destruct Hn as [Hn0 Hn1].
      apply IZR_le in Hn0, Hn1. lra.
Qed.

Lemma round2_ranged (s : float) :
  ranged 0 100 s -> ranged 0 100 (math_Round (s * 100) / 100).
Proof.
  intros H.
  apply (div_100_ranged _ 10000); [|lra|exact representable_100].
  apply math_Round_ranged.
  apply (mul_100_ranged _ 100); [exact H|lra|exact representable_10000].
Qed.

(** NaN goes through the arithmetic of a score. *)
Lemma round2_nan (s : float) :
  is_nan s = true -> is_nan (math_Round (s * 100) / 100) = true.
Proof.
  rewrite !is_nan_spec. intros H.
  assert (H1 : Prim2SF (s * 100) = S754_nan) by (rewrite mul_spec, H; reflexivity).
  assert (H2 : math_Round (s * 100) = (s * 100)%float)
    by (unfold math_Round; now rewrite H1).
  rewrite div_spec, H2, H1. reflexivity.
Qed.

Lemma sub_100_nan (s : float) : is_nan s = true -> is_nan (100 - s) = true.
Proof. rewrite !is_nan_spec. intros H. rewrite sub_spec, H. reflexivity. Qed.


Lemma SFltb_false_leb : forall x y,
  SFltb x y = false -> x = S754_nan \/ y = S754_nan \/ SFleb y x = true.
Proof. sf_crush; auto. Qed.

Lemma ltb_false_leb (x y : float) :
  (x <? y)%float = false ->
  is_nan x = true \/ is_nan y = true \/ (y <=? x)%float = true.
Proof. rewrite ltb_spec, leb_spec, !is_nan_spec. apply SFltb_false_leb. Qed.

Lemma lookup_range_insert_inv {V W} (f : V -> W) (values : gomap V)
  (result : gomap W) (k : string) (s : W) :
  lookup k (range_insert f values result) = Some s ->
  lookup k result = Some s \/ exists v, In (k, v) values /\ s = f v.
Proof.
  unfold range_insert. revert result.
  induction values as [|[k0 v0] values IH]; intros result; simpl; [auto|].
  intros H. apply IH in H. destruct H as [H|(v & Hin & ->)]; [|eauto].
  rewrite lookup_insert in H. destruct (String.eqb k k0) eqn:E; [|auto].
  apply String.eqb_eq in E. subst. injection H as <-. eauto.
Qed.

Local Open Scope float_scope.

(** The clamp of [NormalizeScoreZScore] lets through NaN only. *)
Lemma clamped_range (mean std val : float) :
  is_nan (clamped mean std val) = true \/ in_range (clamped mean std val) = true.
Proof.
  unfold clamped. set (score := 50 + (val - mean) / std * 15).
  destruct (score <? 0) eqn:E0.
  - right. reflexivity.
  - unfold gtb. destruct (100 <? score) eqn:E1; [right; reflexivity|].
    apply ltb_false_leb in E0, E1.
    destruct E0 as [H|[H|H0]]; [now left | discriminate H |].
    destruct E1 as [H|[H|H1]]; [discriminate H | now left |].
    right. unfold in_range. now rewrite H0, H1.
Qed.

Lemma polarity_range (higherIsBetter : bool) (s : float) :
  is_nan s = true \/ in_range s = true ->
  let score := if higherIsBetter then s else 100 - s in
  is_nan (math_Round (score * 100) / 100) = true
  \/ in_range (math_Round (score * 100) / 100) = true.
Proof.
  intros [H|H]; cbv zeta.
  - left. apply round2_nan. destruct higherIsBetter; [exact H|].
    now apply sub_100_nan.
  - right. apply in_range_ranged, round2_ranged.
    apply in_range_ranged in H. destruct higherIsBetter; [exact H|].
    now apply sub_100_ranged.
Qed.

Lemma zscore_of_range (mean std : float) (higherIsBetter : bool) (val : float) :
  is_nan (zscore_of mean std higherIsBetter val) = true
  \/ in_range (zscore_of mean std higherIsBetter val) = true.
Proof.
  replace (zscore_of mean std higherIsBetter val)
    with (let score := if higherIsBetter then clamped mean std val
                       else 100 - clamped mean std val in
          math_Round (score * 100) / 100)
    by (destruct higherIsBetter; reflexivity).
  apply polarity_range, clamped_range.
Qed.

Lemma NormalizeScoreZScore_range (values : gomap float) (higherIsBetter : bool)
  (k : string) (s : float) :
  lookup k (NormalizeScoreZScore values higherIsBetter) = Some s ->
  is_nan s = true \/ in_range s = true.
Proof.
  rewrite NormalizeScoreZScore_eq.
  destruct (len values =? 0)%Z; [discriminate|].
  destruct (_ =? _); intros H; apply lookup_range_insert_inv in H;
    destruct H as [H|(v & _ & ->)]; try discriminate H.
  - right. reflexivity.
  - apply zscore_of_range.
Qed.


Local Open Scope R_scope.

(** *** The quotient of min-max normalisation *)

(** The difference [x - y] of two ordered numbers [y <= x]: a rounding of
    the exact difference, or NaN or [+Inf] when an infinity is involved. *)
Lemma SFsub_ordered (x y : spec_float) :
  valid_binary x = true -> valid_binary y = true ->
  SFleb y x = true ->
  (SFfin x /\ SFfin y /\ 0 <= SF2R x - SF2R y
   /\ rounding (SF2R x - SF2R y) (SFsub prec emax x y))
  \/ SFsub prec emax x y = S754_nan
  \/ (SFsub prec emax x y = S754_infinity false
      /\ (x = S754_infinity false \/ y = S754_infinity true)).
Proof.
  intros Vx Vy H.
  assert (Hfin : SFfin x -> SFfin y ->
                 SFfin x /\ SFfin y /\ 0 <= SF2R x - SF2R y
                 /\ rounding (SF2R x - SF2R y) (SFsub prec emax x y)).
  { intros Fx Fy. split; [exact Fx|]. split; [exact Fy|]. split.
    - apply SFleb_fin in H; try assumption. lra.
    - now apply SFsub_rounding. }
  destruct x as [sx|sx| |sx mx ex]; destruct y as [sy|sy| |sy my ey];
    try discriminate H;
    try (left; apply Hfin; exact I);
    try (destruct sx; try discriminate H);
    try (destruct sy; try discriminate H);
    cbn [SFsub negb]; auto.
Qed.

Lemma SF2R_finite_neq (s : bool) (m : positive) (e : Z) :
  SF2R (S754_finite s m e) <> 0.
Proof.
  cbn [SF2R].
  assert (0 < IZR (Zpos m) * bpow e).
  { apply Rmult_lt_0_compat; [apply IZR_lt; reflexivity | apply bpow_pos]. }
  destruct s; cbn [sgn]; lra.
Qed.

(** A non-negative rounded number divided by [+Inf]. *)
Lemma SFdiv_by_infinity (a : spec_float) (V : R) :
  rounding V a -> 0 <= V ->
  let q := SFdiv prec emax a (S754_infinity false) in
  q = S754_nan \/ (SFfin q /\ 0 <= SF2R q <= 1).
Proof.
  intros Ha HV. destruct (rounding_nonneg V a Ha HV) as [[F _]| ->].
  - right. destruct a; try contradiction; cbn [SFdiv SF2R];
      (split; [exact I | lra]).
  - left. reflexivity.
Qed.

Lemma SFsub_div_range (v m1 m2 : spec_float) :
  valid_binary v = true -> valid_binary m1 = true -> valid_binary m2 = true ->
  SFleb m1 v = true -> SFleb v m2 = true ->
  let q := SFdiv prec emax (SFsub prec emax v m1) (SFsub prec emax m2 m1) in
  q = S754_nan \/ (SFfin q /\ 0 <= SF2R q <= 1).
Proof.
  intros Vv V1 V2 H1v Hv2.
  assert (H12 : SFleb m1 m2 = true).
  { revert H1v Hv2. clear. revert m1 v m2. sf_crush. }
  destruct (SFsub_ordered v m1 Vv V1 H1v)
    as [(Fv & F1 & HA & RA)|[EA|[EA CA]]];
    destruct (SFsub_ordered m2 m1 V2 V1 H12)
      as [(F2 & F1' & HB & RB)|[EB|[EB CB]]]; cbv zeta.
  - (* both differences are roundings *)
    assert (Hle : SF2R v - SF2R m1 <= SF2R m2 - SF2R m1).
    { apply SFleb_fin in Hv2; try assumption. lra. }
    set (A := SFsub prec emax v m1) in *. set (B := SFsub prec emax m2 m1) in *.
    destruct (rounding_nonneg _ B RB HB) as [[FB HB0]|EB].
    + destruct (rounding_mono _ A _ B RA RB (conj HA Hle) FB) as [FA [HA0 HAB]].
      destruct B as [sb|sb| |sb mb eb]; try contradiction.
      * (* a zero divisor *)
        cbn [SF2R] in HAB.
        destruct A as [sa|sa| |sa ma ea]; try contradiction.
        -- left. reflexivity.
        -- exfalso. apply (SF2R_finite_neq sa ma ea). lra.
      * pose proof (SF2R_finite_neq sb mb eb) as Hne.
        right.
        apply rounding_le_representable
          with (V := SF2R A / SF2R (S754_finite sb mb eb));
          [now apply SFdiv_rounding | | exact representable_1].
        assert (Pb : 0 < SF2R (S754_finite sb mb eb)) by lra.
        split.
        -- apply Rmult_le_pos; [lra|]. apply Rlt_le, Rinv_0_lt_compat, Pb.
        -- apply Rmult_le_reg_r with (SF2R (S754_finite sb mb eb)); [exact Pb|].
           unfold Rdiv. rewrite Rmult_assoc, Rinv_l by lra. lra.
    + rewrite EB. now apply (SFdiv_by_infinity A (SF2R v - SF2R m1)).
  - rewrite EB. left. destruct (SFsub prec emax v m1); reflexivity.
  - rewrite EB. now apply (SFdiv_by_infinity _ (SF2R v - SF2R m1)).
  - rewrite EA. left. reflexivity.
  - rewrite EA. left. reflexivity.
  - rewrite EA. left. reflexivity.
  - (* [v - m1] is infinite and [m2 - m1] is not *)
    exfalso. destruct CA as [-> | ->]; [|exact F1'].
    destruct m2 as [s2|s2| |s2 mm2 e2]; try contradiction; discriminate Hv2.
  - rewrite EA, EB. left. reflexivity.
  - rewrite EA, EB. left. reflexivity.
Qed.


Local Open Scope float_scope.

Lemma SFleb_refl : forall x, x <> S754_nan -> SFleb x x = true.
Proof.
  intros [s|s| |s m e] H; unfold SFleb; cbn [SFcompare];
    try destruct s; try reflexivity; try congruence;
    rewrite Z.compare_refl; change (Pos.compare_cont Eq m m) with (Pos.compare m m);
    rewrite Pos.compare_refl; reflexivity.
Qed.

Lemma SFltb_leb : forall x y, SFltb x y = true -> SFleb x y = true.
Proof. sf_crush. Qed.

Lemma SFleb_trans : forall x y z,
  SFleb x y = true -> SFleb y z = true -> SFleb x z = true.
Proof. sf_crush. Qed.

Lemma SFltb_nan_r : forall x, SFltb x S754_nan = false.
Proof. intros [| | |]; reflexivity. Qed.

Lemma is_nan_false (x : float) : is_nan x = false <-> Prim2SF x <> S754_nan.
Proof.
  rewrite <- is_nan_spec. destruct (is_nan x); split; congruence.
Qed.

Lemma leb_refl (x : float) : is_nan x = false -> (x <=? x) = true.
Proof. rewrite is_nan_false, leb_spec. apply SFleb_refl. Qed.

Lemma ltb_leb (x y : float) : (x <? y) = true -> (x <=? y) = true.
Proof. rewrite ltb_spec, leb_spec. apply SFltb_leb. Qed.

Lemma leb_trans (x y z : float) :
  (x <=? y) = true -> (y <=? z) = true -> (x <=? z) = true.
Proof. rewrite !leb_spec. apply SFleb_trans. Qed.

Lemma ltb_nan_l (x y : float) : is_nan x = true -> (x <? y) = false.
Proof. rewrite is_nan_spec, ltb_spec. intros ->. reflexivity. Qed.

Lemma ltb_nan_r (x y : float) : is_nan y = true -> (x <? y) = false.
Proof. rewrite is_nan_spec, ltb_spec. intros ->. apply SFltb_nan_r. Qed.


Lemma extremes_step (mn mx v : float) (seen : list float) :
  extremes mn mx seen ->
  extremes (if v <? mn then v else mn) (if gtb v mx then v else mx)
           (seen ++ [v]).
Proof.
  unfold gtb. intros [Hn|(Hmn & Hmx & Hall)].
  - left. now rewrite ltb_nan_r.
  - destruct (is_nan v) eqn:Ev.
    + rewrite (ltb_nan_l v mn Ev), (ltb_nan_r mx v Ev).
      right. split; [exact Hmn|]. split; [exact Hmx|].
      intros u Hu. apply in_app_iff in Hu. destruct Hu as [Hu|[<-|[]]]; auto.
    + right.
      assert (Hlo : ((if v <? mn then v else mn) <=? mn) = true
                    /\ ((if v <? mn then v else mn) <=? v) = true
                    /\ is_nan (if v <? mn then v else mn) = false).
      { destruct (v <? mn) eqn:E.
        - split; [now apply ltb_leb|]. split; [now apply leb_refl | exact Ev].
        - split; [now apply leb_refl|]. split; [|exact Hmn].
          apply ltb_false_leb in E. destruct E as [E|[E|E]]; congruence. }
      assert (Hhi : (mx <=? (if mx <? v then v else mx)) = true
                    /\ (v <=? (if mx <? v then v else mx)) = true
                    /\ is_nan (if mx <? v then v else mx) = false).
      { destruct (mx <? v) eqn:E.
        - split; [now apply ltb_leb|]. split; [now apply leb_refl | exact Ev].
        - split; [now apply leb_refl|]. split; [|exact Hmx].
          apply ltb_false_leb in E. destruct E as [E|[E|E]]; congruence. }
      destruct Hlo as (L1 & L2 & L3). destruct Hhi as (U1 & U2 & U3).
      split; [exact L3|]. split; [exact U3|].
      intros u Hu. apply in_app_iff in Hu. destruct Hu as [Hu|[<-|[]]].
      * destruct (Hall u Hu) as [H|[H1 H2]]; [now left|]. right. split.
        -- now apply leb_trans with mn.
        -- now apply leb_trans with mx.
      * right. split; assumption.
Qed.

Lemma extremes_first (v : float) : extremes v v [v].
Proof.
  destruct (is_nan v) eqn:E; [now left|]. right.
  split; [exact E|]. split; [exact E|].
  intros u [<-|[]]. right. split; now apply leb_refl.
Qed.

Lemma minmax_extremes (values : gomap float) :
  values <> [] ->
  extremes (fst (fst (minmax values))) (snd (fst (minmax values)))
           (map snd values).
Proof.
  unfold minmax. destruct values as [|[k0 v0] values]; [congruence|]. intros _.
  cbn [fold_left map snd].
  assert (Hgen : forall (values : gomap float) (mn mx : float) (seen : list float),
            extremes mn mx seen ->
            let st := fold_left (fun '(minVal, maxVal, first) '(_, v) =>
                                   if (first : bool) then (v, v, false)
                                   else
                                     let minVal := if v <? minVal then v else minVal in
                                     let maxVal := if gtb v maxVal then v else maxVal in
                                     (minVal, maxVal, false))
                                values (mn, mx, false) in
            extremes (fst (fst st)) (snd (fst st)) (seen ++ map snd values)).
  { clear. induction values as [|[k v] values IH]; intros mn mx seen H; cbn [fold_left map snd].
    - now rewrite app_nil_r.
    - cbv zeta in IH |- *.
      replace (seen ++ v :: map snd values) with ((seen ++ [v]) ++ map snd values)
        by (rewrite <- app_assoc; reflexivity).
      apply IH. now apply extremes_step. }
  apply (Hgen values v0 v0 [v0]). apply extremes_first.
Qed.


Lemma mul_nan_l (x y : float) : is_nan x = true -> is_nan (x * y) = true.
Proof. rewrite !is_nan_spec, mul_spec. intros ->. reflexivity. Qed.

Lemma div_nan_l (x y : float) : is_nan x = true -> is_nan (x / y) = true.
Proof. rewrite !is_nan_spec, div_spec. intros ->. reflexivity. Qed.

Lemma sub_nan_l (x y : float) : is_nan x = true -> is_nan (x - y) = true.
Proof. rewrite !is_nan_spec, sub_spec. intros ->. reflexivity. Qed.

Lemma sub_nan_r (x y : float) : is_nan y = true -> is_nan (x - y) = true.
Proof.
  rewrite !is_nan_spec, sub_spec. intros ->. destruct (Prim2SF x); reflexivity.
Qed.

Lemma minmax_of_alt (mn mx : float) (higherIsBetter : bool) (val : float) :
  minmax_of mn mx higherIsBetter val
  = let s := ((val - mn) / (mx - mn)) * 100 in
    let score := if higherIsBetter then s else 100 - s in
    math_Round (score * 100) / 100.
Proof. destruct higherIsBetter; reflexivity. Qed.

(** The unrounded min-max score of a value between the extremes. *)
Lemma minmax_raw_nan (mn mx val : float) :
  is_nan val = true \/ is_nan mn = true ->
  nan_or_in_range (((val - mn) / (mx - mn)) * 100).
Proof.
  intros H. left. apply mul_nan_l, div_nan_l.
  destruct H; [now apply sub_nan_l | now apply sub_nan_r].
Qed.

Lemma minmax_raw_ordered (mn mx val : float) :
  (mn <=? val) = true -> (val <=? mx) = true ->
  nan_or_in_range (((val - mn) / (mx - mn)) * 100).
Proof.
  rewrite !leb_spec. intros H1 H2.
  pose proof (SFsub_div_range (Prim2SF val) (Prim2SF mn) (Prim2SF mx)
                (Prim2SF_valid _) (Prim2SF_valid _) (Prim2SF_valid _) H1 H2) as Hq.
  cbv zeta in Hq. rewrite <- !sub_spec, <- div_spec in Hq.
  destruct Hq as [Hq|[Fq Hq]].
  - left. apply mul_nan_l. now apply is_nan_spec.
  - right. apply in_range_ranged.
    apply (mul_100_ranged _ 1); [split; assumption | lra | exact representable_100].
Qed.

Lemma minmax_raw_range (values : gomap float) (v : float) :
  In v (map snd values) ->
  nan_or_in_range
    (((v - fst (fst (minmax values)))
      / (snd (fst (minmax values)) - fst (fst (minmax values)))) * 100).
Proof.
  intros Hin.
  assert (Hne : values <> []) by (intros ->; destruct Hin).
  destruct (minmax_extremes values Hne) as [Hn|(_ & _ & Hall)].
  - apply minmax_raw_nan. now right.
  - destruct (Hall v Hin) as [Hv|[H1 H2]].
    + apply minmax_raw_nan. now left.
    + now apply minmax_raw_ordered.
Qed.

(** Every score of [NormalizeScore] is NaN or between 0 and 100. *)
Lemma NormalizeScore_range (values : gomap float) (higherIsBetter : bool)
  (k : string) (s : float) :
  lookup k (NormalizeScore values higherIsBetter) = Some s ->
  nan_or_in_range s.
Proof.
  rewrite NormalizeScore_eq.
  destruct (len values =? 0)%Z eqn:E; [discriminate|].
  destruct (_ =? _); intros H; apply lookup_range_insert_inv in H;
    destruct H as [H|(v & Hin & ->)]; try discriminate H.
  - right. reflexivity.
  - rewrite minmax_of_alt. apply polarity_range, minmax_raw_range.
    apply in_map_iff. exists (k, v). auto.
Qed.

End RangeFacts.

(** ** The range of the component scores *)

Module ComponentFacts.
Import FloatFacts GoMapFacts NormalizerFacts PanicFacts Binary64Facts ErrorFacts RangeFacts.
Local Open Scope R_scope.

(** The value of a float constant. *)
Ltac float_value :=
  unfold to_R;
  match goal with
  | |- context [Prim2SF ?c] =>
      let v := eval vm_compute in (Prim2SF c) in change (Prim2SF c) with v
  end;
  cbn [SF2R sgn];
  match goal with
  | |- context [bpow (Zneg ?p)] =>
      change (Zneg p) with (- Zpos p)%Z;
      rewrite (bpow_opp (Zpos p)), (bpow_IZR (Zpos p)) by lia;
      let k := eval vm_compute in (2 ^ Zpos p)%Z in
      change (2 ^ Zpos p)%Z with k
  end;
  lra.

Lemma to_R_half : to_R 0.5 = / 2.
Proof. float_value. Qed.

Lemma to_R_035 : 0 <= to_R 0.35 <= 35 / 100.
Proof. split; float_value. Qed.

Lemma to_R_015 : 0 <= to_R 0.15 <= 15 / 100.
Proof. split; float_value. Qed.

Lemma to_R_50 : to_R 50 = 50.
Proof. float_value. Qed.

Lemma to_R_35 : to_R 35 = 35.
Proof. float_value. Qed.

Lemma to_R_15 : to_R 15 = 15.
Proof. float_value. Qed.

Lemma to_R_85 : to_R 85 = 85.
Proof. float_value. Qed.

Lemma representable_50 : representable 50.
Proof. rewrite <- to_R_50. now apply (representable_float 50 7036874417766400 (-47)). Qed.

Lemma representable_35 : representable 35.
Proof. rewrite <- to_R_35. now apply (representable_float 35 4925812092436480 (-47)). Qed.

Lemma representable_15 : representable 15.
Proof. rewrite <- to_R_15. now apply (representable_float 15 8444249301319680 (-49)). Qed.

Lemma representable_85 : representable 85.
Proof. rewrite <- to_R_85. now apply (representable_float 85 5981343255101440 (-46)). Qed.

Lemma mul_ranged (x y : float) (hx hy B : R) :
  ranged 0 hx x -> ranged 0 hy y -> hx * hy <= B -> representable B ->
  ranged 0 B (x * y).
Proof.
  intros [Fx [X0 X1]] [Fy [Y0 Y1]] HB RB. unfold ranged, fin, to_R in *.
  rewrite mul_spec.
  apply rounding_le_representable with (V := to_R x * to_R y);
    [apply SFmul_rounding; try apply Prim2SF_valid; assumption | | exact RB].
  unfold to_R. split; [apply Rmult_le_pos; assumption|].
  apply Rle_trans with (hx * hy); [|exact HB].
  apply Rmult_le_compat; assumption.
Qed.

Lemma add_ranged (x y : float) (hx hy B : R) :
  ranged 0 hx x -> ranged 0 hy y -> hx + hy <= B -> representable B ->
  ranged 0 B (x + y).
Proof.
  intros [Fx [X0 X1]] [Fy [Y0 Y1]] HB RB. unfold ranged, fin, to_R in *.
  rewrite add_spec.
  apply rounding_le_representable with (V := to_R x + to_R y);
    [apply SFadd_rounding; try apply Prim2SF_valid; assumption | | exact RB].
  unfold to_R. lra.
Qed.

Lemma mul_nan_r (x y : float) : is_nan y = true -> is_nan (x * y) = true.
Proof.
  rewrite !is_nan_spec, mul_spec. intros ->. destruct (Prim2SF x); reflexivity.
Qed.

Lemma add_nan_l (x y : float) : is_nan x = true -> is_nan (x + y) = true.
Proof. rewrite !is_nan_spec, add_spec. intros ->. reflexivity. Qed.

Lemma add_nan_r (x y : float) : is_nan y = true -> is_nan (x + y) = true.
Proof.
  rewrite !is_nan_spec, add_spec. intros ->. destruct (Prim2SF x); reflexivity.
Qed.

Local Open Scope float_scope.

(** The combined momentum score of three scores. *)
Lemma combined_range (retScore rsScore volScore : float) :
  nan_or_in_range retScore -> nan_or_in_range rsScore ->
  nan_or_in_range volScore ->
  let combined := (0.50 * retScore) + (0.35 * rsScore) + (0.15 * volScore) in
  nan_or_in_range (math_Round (combined * 100) / 100).
Proof.
  intros [Ha|Ha]; [intros _ _; left; apply round2_nan, add_nan_l, add_nan_l, mul_nan_r, Ha|].
  intros [Hb|Hb]; [intros _; left; apply round2_nan, add_nan_l, add_nan_r, mul_nan_r, Hb|].
  intros [Hc|Hc]; [left; apply round2_nan, add_nan_r, mul_nan_r, Hc|].
  cbv zeta. right. apply in_range_ranged, round2_ranged.
  apply in_range_ranged in Ha, Hb, Hc.
  assert (K1 : ranged 0 (/ 2) 0.50).
  { split; [exact I|]. rewrite to_R_half. lra. }
  assert (K2 : ranged 0 (35 / 100) 0.35) by (split; [exact I | exact to_R_035]).
  assert (K3 : ranged 0 (15 / 100) 0.15) by (split; [exact I | exact to_R_015]).
  apply (add_ranged _ _ 85 15); [|  | lra | exact representable_100].
  - apply (add_ranged _ _ 50 35); [| | lra | exact representable_85].
    + apply (mul_ranged _ _ (/ 2) 100); [assumption..| lra | exact representable_50].
    + apply (mul_ranged _ _ (35 / 100) 100); [assumption..| lra | exact representable_35].
  - apply (mul_ranged _ _ (15 / 100) 100); [assumption..| lra | exact representable_15].
Qed.

(** *** The score maps of the calculators *)

Lemma Some_eq {A} (a b : A) : Some a = Some b -> a = b.
Proof. congruence. Qed.

Lemma ranged_bounded (x : float) : ranged 0 100 x -> bounded x.
Proof.
  intros [F [H0 H1]]. split; [exact F|]. apply Rabs_within.
  unfold to_R in *. lra.
Qed.

Lemma in_range_bounded (x : float) : in_range x = true -> bounded x.
Proof. intros H. now apply ranged_bounded, in_range_ranged. Qed.


(** A zero weight times a finite score is a zero. *)
Lemma mul_zero_fin (w x : float) :
  (w =? 0) = true -> fin x -> (w * x =? 0) = true.
Proof.
  rewrite !ZeroFacts.is_zero_spec, mul_spec. intros [s Hw] Hx.
  unfold fin in Hx. rewrite Hw. unfold SF64mul, SFmul, SFzero.
  destruct (Prim2SF x); simpl in *; try contradiction; eauto.
Qed.


Lemma scores_ok_nil : scores_ok [].
Proof. intros k s H. discriminate H. Qed.

Lemma scores_ok_insert (k : string) (v : float) (m : gomap float) :
  scores_ok m -> nan_or_in_range v -> scores_ok (insert k v m).
Proof.
  intros Hm Hv k' s. rewrite lookup_insert.
  destruct (String.eqb k' k); [intros [= <-]; exact Hv | apply Hm].
Qed.

Lemma scores_ok_fold {A} (step : gomap float -> A -> gomap float)
  (l : list A) (init : gomap float) :
  (forall acc a, scores_ok acc -> scores_ok (step acc a)) ->
  scores_ok init -> scores_ok (fold_left step l init).
Proof.
  intros Hstep. revert init.
  induction l as [|a l IH]; intros init Hinit; simpl; auto.
Qed.

Lemma in_range_50 : nan_or_in_range 50.
Proof. right. reflexivity. Qed.

Lemma in_range_30 : nan_or_in_range 30.
Proof. right. reflexivity. Qed.

Lemma defaultScores_ok : scores_ok defaultScores.
Proof.
  apply scores_ok_fold; [|apply scores_ok_nil].
  intros acc a H. apply scores_ok_insert; [exact H | exact in_range_50].
Qed.

Lemma fill_missing_ok (scores : gomap float) (def : float) :
  scores_ok scores -> nan_or_in_range def -> scores_ok (fill_missing scores def).
Proof.
  intros Hs Hd. apply scores_ok_fold; [|exact Hs].
  intros acc a H. destruct (negb (mem a acc)); [|exact H].
  now apply scores_ok_insert.
Qed.

Lemma NormalizeScoreZScore_ok (values : gomap float) (higherIsBetter : bool) :
  scores_ok (NormalizeScoreZScore values higherIsBetter).
Proof. intros k s. apply NormalizeScoreZScore_range. Qed.

Lemma getOrDefault_ok (m : gomap float) (k : string) :
  scores_ok m -> nan_or_in_range (getOrDefault m k 50).
Proof.
  intros H. unfold getOrDefault.
  destruct (lookup k m) as [v|] eqn:E; [now apply (H k) | exact in_range_50].
Qed.

Lemma CalculateValuationScore_ok sectorPE sectorInfo :
  scores_ok (CalculateValuationScore sectorPE sectorInfo).
Proof.
  unfold CalculateValuationScore.
  destruct (_ =? _)%Z; [apply defaultScores_ok|].
  apply fill_missing_ok; [apply NormalizeScoreZScore_ok | exact in_range_50].
Qed.

Lemma CalculateInnovationScore_ok rdData :
  scores_ok (CalculateInnovationScore rdData).
Proof.
  unfold CalculateInnovationScore.
  destruct (_ =? _)%Z; [apply defaultScores_ok|].
  destruct (_ =? _)%Z; [apply defaultScores_ok|].
  apply fill_missing_ok; [apply NormalizeScoreZScore_ok | exact in_range_30].
Qed.

Lemma CalculateGrowthScore_ok employment m :
  CalculateGrowthScore employment = Some m -> scores_ok m.
Proof.
  unfold CalculateGrowthScore.
  destruct (CalculateEmploymentGrowth employment) as [growth|]; [|discriminate].
  cbn [bind]. unfold ret.
  destruct (_ =? _)%Z; intros H; apply Some_eq in H; subst m;
    [apply defaultScores_ok|].
  apply fill_missing_ok; [apply NormalizeScoreZScore_ok | exact in_range_50].
Qed.

Lemma CalculateMacroScore_ok prices macroData m :
  CalculateMacroScore prices macroData = Some m -> scores_ok m.
Proof.
  unfold CalculateMacroScore.
  destruct (lookup _ macroData) as [rates|];
    [|intros H; apply Some_eq in H; subst m; apply defaultScores_ok].
  destruct (CalculateRateSensitivity prices rates) as [sens|]; [|discriminate].
  cbn [bind]. unfold ret.
  destruct (_ =? _)%Z; intros H; apply Some_eq in H; subst m;
    [apply defaultScores_ok|].
  apply fill_missing_ok; [apply NormalizeScoreZScore_ok | exact in_range_50].
Qed.

Lemma CalculateMomentumScore_ok prices m :
  CalculateMomentumScore prices = Some m -> scores_ok m.
Proof.
  unfold CalculateMomentumScore.
  destruct (CalculatePriceReturns prices) as [rets|]; [|discriminate].
  destruct (CalculateRelativeStrength prices 12) as [rs|]; [|discriminate].
  destruct (CalculateVolumeTrend prices 20 50) as [vt|]; [|discriminate].
  cbn [bind]. unfold ret. intros H. apply Some_eq in H. subst m.
  apply scores_ok_fold; [|apply scores_ok_nil].
  intros acc sector H. cbv zeta. apply scores_ok_insert; [exact H|].
  apply combined_range; apply getOrDefault_ok, NormalizeScoreZScore_ok.
Qed.

(** Every component score of every returned record is NaN or between 0
    and 100. *)
Lemma component_scores_range (s : SectorScorer) (allData : data.AllData.t)
  (scores : list SectorScore) (r : SectorScore) :
  CalculateScores s allData = Some scores ->
  In r scores ->
  nan_or_in_range (MomentumScore r)
  /\ nan_or_in_range (ValuationScore r)
  /\ nan_or_in_range (GrowthScore r)
  /\ nan_or_in_range (InnovationScore r)
  /\ nan_or_in_range (MacroScore r).
Proof.
  unfold CalculateScores.
  destruct (CalculateMomentumScore _) as [ms|] eqn:Ems; [|discriminate].
  destruct (CalculateGrowthScore _) as [gs|] eqn:Egs; [|discriminate].
  destruct (CalculateMacroScore _ _) as [mcs|] eqn:Emcs; [|discriminate].
  destruct (CalculatePriceReturns _) as [pr|]; [|discriminate].
  destruct (CalculateRelativeStrength _ _) as [rs|]; [|discriminate].
  destruct (CalculateEmploymentGrowth _) as [eg|]; [|discriminate].
  cbv beta iota delta [bind ret]. cbv zeta. intros H Hin.
  apply Some_eq in H. subst scores.
  apply ScoringFacts.In_assign_ranks in Hin. destruct Hin as (r0 & z & Hin & ->).
  apply (Permutation.Permutation_in _ (SortFacts.insertionSort_perm by_opportunity _))
    in Hin.
  assert (Hgen : forall (names : list string) (acc : list SectorScore) (P : SectorScore -> Prop),
            (forall x, In x acc -> P x) ->
            (forall sector, P (sector_score s allData ms
                                 (CalculateValuationScore [] (data.AllData.SectorInfo allData))
                                 gs (CalculateInnovationScore (data.AllData.RDData allData))
                                 mcs pr rs eg sector)) ->
            forall x,
              In x (fold_left
                      (fun scores sector =>
                         scores ++ [sector_score s allData ms
                                      (CalculateValuationScore [] (data.AllData.SectorInfo allData))
                                      gs (CalculateInnovationScore (data.AllData.RDData allData))
                                      mcs pr rs eg sector])
                      names acc) -> P x).
  { induction names as [|n names IH]; intros acc P Hacc HP x; simpl; [apply Hacc|].
    apply IH; [|exact HP]. intros y Hy. apply in_app_iff in Hy.
    destruct Hy as [Hy|[<-|[]]]; [now apply Hacc | apply HP]. }
  revert r0 Hin. apply Hgen; [intros x []|].
  intros sector. cbn.
  repeat split; apply getOrDefault_ok.
  - now apply (CalculateMomentumScore_ok _ _ Ems).
  - apply CalculateValuationScore_ok.
  - now apply (CalculateGrowthScore_ok _ _ Egs).
  - apply CalculateInnovationScore_ok.
  - now apply (CalculateMacroScore_ok _ _ _ Emcs).
Qed.

(** A NaN component score makes the opportunity score NaN. *)
Lemma opportunity_not_nan (w : gomap float) (r : SectorScore) :
  is_nan (math_Round (weighted_sum w r * 100) / 100) = false ->
  is_nan (MomentumScore r) = false /\ is_nan (ValuationScore r) = false
  /\ is_nan (GrowthScore r) = false /\ is_nan (InnovationScore r) = false
  /\ is_nan (MacroScore r) = false.
Proof.
  intros H. unfold weighted_sum in H.
  repeat split;
    match goal with
    | |- is_nan ?c = false =>
        destruct (is_nan c) eqn:E; [exfalso|reflexivity]
    end;
    rewrite round2_nan in H; try discriminate H.
  - now apply add_nan_l, add_nan_l, add_nan_l, add_nan_l, mul_nan_r.
  - now apply add_nan_l, add_nan_l, add_nan_l, add_nan_r, mul_nan_r.
  - now apply add_nan_l, add_nan_l, add_nan_r, mul_nan_r.
  - now apply add_nan_l, add_nan_r, mul_nan_r.
  - now apply add_nan_r, mul_nan_r.
Qed.

(** A score that is not NaN is between 0 and 100. *)
Lemma not_nan_in_range (s : float) :
  nan_or_in_range s -> is_nan s = false -> in_range s = true.
Proof. intros [H|H] Hn; [congruence | exact H]. Qed.

Lemma lookup_range_insert_const {V} (c : float) (vs : gomap V)
  (acc : gomap float) (k : string) :
  In k (keys vs) \/ lookup k acc = Some c ->
  lookup k (range_insert (fun _ => c) vs acc) = Some c.
Proof.
  unfold range_insert. revert acc.
  induction vs as [|[k0 v0] vs IH]; intros acc [H|H]; simpl; auto.
  - destruct H.
  - apply IH. simpl in H. destruct H as [H|H]; [|auto].
    right. subst. apply lookup_insert_eq.
  - apply IH. right. rewrite lookup_insert. destruct (String.eqb k k0); auto.
Qed.

(** [NormalizeScoreZScore] gives 50 to every key when the deviation it
    computes compares equal to 0. *)
Lemma NormalizeScoreZScore_no_deviation (values : gomap float)
  (higherIsBetter : bool) (k : string) :
  (stat.StdDev (map snd values) =? 0) = true ->
  In k (keys values) ->
  lookup k (NormalizeScoreZScore values higherIsBetter) = Some 50.
Proof.
  intros Hstd Hk. rewrite NormalizeScoreZScore_eq.
  destruct (len values =? 0)%Z eqn:E.
  { apply len_zero in E. subst. destruct Hk. }
  rewrite Hstd. apply lookup_range_insert_const. now left.
Qed.

End ComponentFacts.

(* ================================================================== *)
(** * The claims *)

Module Claims.
Import GoMapFacts NormalizerFacts PanicFacts SortFacts ScoringFacts ZeroFacts.
Import Binary64Facts ErrorFacts RangeFacts ComponentFacts.
Import Examples.
Local Open Scope float_scope.

(** C1. For every scorer (so for every weight configuration) and every
    snapshot, empty collections included, [CalculateScores] does not panic
    and returns eleven records whose sectors are the configured sector
    list, each sector once. *)
Theorem CalculateScores_complete (s : SectorScorer) (allData : data.AllData.t) :
  exists scores,
    CalculateScores s allData = Some scores
    /\ List.length scores = 11%nat
    /\ Permutation (map Sector scores) config.SectorNames.
Proof.
  destruct (CalculateScores_shape s allData)
    as (ms & gs & mcs & pr & rs & eg & H).
  eexists. split; [exact H|]. split.
  - rewrite length_assign_ranks. unfold sort.Slice.
    rewrite (Permutation_length (insertionSort_perm _ _)), length_map.
    reflexivity.
  - rewrite assign_ranks_map by reflexivity. unfold sort.Slice.
    rewrite (Permutation_map Sector (insertionSort_perm _ _)), map_map.
    rewrite (map_ext _ (fun x => x)) by reflexivity.
    now rewrite map_id.
Qed.







(* ------------------------------------------------------------------ *)
(** ** Normalizer claims *)

(** C3.  Both normalisers keep the key set of their argument, and every
    score they return is between 0 and 100 or is NaN.  NaN does occur: a map
    with a single entry has the sample deviation [0/0]; the test [std == 0]
    fails on that NaN, and the score of the only key is NaN, which passes
    both clamps. *)
Theorem normalizers_keys_and_range :
  (forall values higherIsBetter k,
     (In k (keys (NormalizeScore values higherIsBetter)) <-> In k (keys values))
     /\ (In k (keys (NormalizeScoreZScore values higherIsBetter))
         <-> In k (keys values)))
  /\ (forall values higherIsBetter k s,
        lookup k (NormalizeScore values higherIsBetter) = Some s
        \/ lookup k (NormalizeScoreZScore values higherIsBetter) = Some s ->
        is_nan s = true \/ in_range s = true)
  /\ exists score,
       lookup "Financials" (NormalizeScoreZScore [("Financials", 0.05)] true)
       = Some score
       /\ is_nan score = true /\ in_range score = false.
Proof.
  split; [|split].
  - intros values higherIsBetter k. split.
    + apply NormalizeScore_keys.
    + apply NormalizeScoreZScore_keys.
  - intros values higherIsBetter k s [H|H].
    + exact (NormalizeScore_range _ _ _ _ H).
    + exact (NormalizeScoreZScore_range _ _ _ _ H).
  - eexists. repeat split; vm_compute; reflexivity.
Qed.

(** C4.  Min-max normalisation of a non-empty map whose values are all equal
    gives 50 for every key, and so does z-score normalisation whenever the
    deviation it computes compares equal to 0.  For a map with a single
    entry that deviation is NaN, and z-score normalisation returns NaN where
    min-max normalisation returns 50. *)
Theorem all_equal_scores_fifty :
  (forall values higherIsBetter k,
     (forall v w, In v (map snd values) -> In w (map snd values) ->
                  (v =? w) = true) ->
     In k (keys values) ->
     lookup k (NormalizeScore values higherIsBetter) = Some 50)
  /\ (forall values higherIsBetter k,
        (stat.StdDev (map snd values) =? 0) = true ->
        In k (keys values) ->
        lookup k (NormalizeScoreZScore values higherIsBetter) = Some 50)
  /\ (lookup "A" (NormalizeScore [("A", 10)] true) = Some 50
      /\ is_nan (stat.StdDev [10]) = true
      /\ exists score,
           lookup "A" (NormalizeScoreZScore [("A", 10)] true) = Some score
           /\ is_nan score = true /\ (score =? 50) = false).
Proof.
  split; [|split].
  - intros values higherIsBetter k. apply NormalizeScore_all_equal.
  - intros values higherIsBetter k. apply NormalizeScoreZScore_no_deviation.
  - split; [vm_compute; reflexivity|]. split; [vm_compute; reflexivity|].
    eexists. repeat split; vm_compute; reflexivity.
Qed.







(* ------------------------------------------------------------------ *)
(** ** The innovation calculator *)



Lemma lookup_fill_missing_acc (names : list string) (scores : gomap float)
  (def : float) (k : string) :
  lookup k (fold_left (fun scores sector =>
                         if negb (mem sector scores) then insert sector def scores
                         else scores) names scores)
  = match lookup k scores with
    | Some v => Some v
    | None => if in_dec string_dec k names then Some def else None
    end.
Proof.
  revert scores. induction names as [|n names IH]; intros scores; simpl.
  - destruct (lookup k scores); reflexivity.
  - rewrite IH. unfold mem.
    destruct (lookup n scores) as [vn|] eqn:En; simpl.
    + destruct (lookup k scores) eqn:Ek; [reflexivity|].
      destruct (string_dec n k) as [->|Hne]; [congruence|].
      destruct (in_dec string_dec k names); reflexivity.
    + rewrite lookup_insert.
      destruct (String.eqb k n) eqn:Ekn.
      * apply String.eqb_eq in Ekn. subst. rewrite En.
        destruct (string_dec n n); [reflexivity | congruence].
      * apply String.eqb_neq in Ekn.
        destruct (lookup k scores); [reflexivity|].
        destruct (string_dec n k); [congruence|].
        destruct (in_dec string_dec k names); reflexivity.
Qed.

(** The loop "fill missing sectors" keeps every score and gives the default
    to the configured sectors without one. *)
Lemma lookup_fill_missing (scores : gomap float) (def : float) (k : string) :
  lookup k (fill_missing scores def)
  = match lookup k scores with
    | Some v => Some v
    | None => if in_dec string_dec k config.SectorNames then Some def else None
    end.
Proof. apply lookup_fill_missing_acc. Qed.




(* ------------------------------------------------------------------ *)
(** ** Weights and the opportunity score *)












End Claims.

(* ================================================================== *)
(** * Further properties of the code

    ** The signal calculators: what each returns, and when it panics *)

Module SignalFacts.
Import Examples.
Import FloatFacts GoMapFacts NormalizerFacts PanicFacts SortFacts ScoringFacts ZeroFacts
       Binary64Facts ErrorFacts RangeFacts ComponentFacts.
Local Open Scope Z_scope.

(** The keys of a map written out are pairwise distinct. *)
Ltac wf_concrete :=
  unfold wf;
  match goal with
  | |- NoDup ?k => let k' := eval vm_compute in k in change (NoDup k')
  end;
  repeat (constructor; [cbn [In]; intuition discriminate|]); constructor.

(** A loop [for k, v := range m] that records [g k v] under [k], or skips
    the entry. *)
Lemma foldM_range {V W} (f : gomap W -> string * V -> panics (gomap W))
  (g : string -> V -> option W) (m : gomap V) (acc : gomap W) :
  (forall acc k v, In (k, v) m ->
     f acc (k, v) = Some (match g k v with
                          | Some w => insert k w acc
                          | None => acc
                          end)) ->
  exists r,
    foldM f m acc = Some r
    /\ (wf acc -> wf r)
    /\ (wf m -> forall k,
          lookup k r = match lookup k m with
                       | Some v => match g k v with
                                   | Some w => Some w
                                   | None => lookup k acc
                                   end
                       | None => lookup k acc
                       end).
Proof.
  revert acc. induction m as [|[k0 v0] m IH]; intros acc Hf.
  - exists acc. simpl. auto.
  - simpl. rewrite (Hf acc k0 v0) by now left. simpl.
    destruct (IH (match g k0 v0 with Some w => insert k0 w acc | None => acc end))
      as (r & Hr & Hwf & Hl).
    { intros acc' k v Hin. apply Hf. now right. }
    exists r. split; [exact Hr|]. split.
    + intros Hacc. apply Hwf. destruct (g k0 v0); [now apply wf_insert | exact Hacc].
    + intros Hm k. unfold wf in Hm. simpl in Hm. inversion Hm as [|? ? Hnin Hnd]; subst.
      rewrite (Hl Hnd k).
      destruct (String.eqb k k0) eqn:E.
      * apply String.eqb_eq in E. subst k.
        assert (Hn : lookup k0 m = None) by now apply lookup_None_keys.
        rewrite Hn. destruct (g k0 v0); [apply lookup_insert_eq | reflexivity].
      * apply String.eqb_neq in E.
        destruct (lookup k m) as [v|].
        -- destruct (g k v); [reflexivity|].
           destruct (g k0 v0); [now apply lookup_insert_ne | reflexivity].
        -- destruct (g k0 v0); [now apply lookup_insert_ne | reflexivity].
Qed.

Lemma foldM_pure {A B} (f : B -> A -> B) (l : list A) (b : B) :
  foldM (fun b a => ret (f b a)) l b = Some (fold_left f l b).
Proof. revert b. induction l as [|a l IH]; intros b; simpl; [reflexivity | apply IH]. Qed.

Lemma fold_range {V W} (f : gomap W -> string * V -> gomap W)
  (g : string -> V -> option W) (m : gomap V) (acc : gomap W) :
  (forall acc k v, In (k, v) m ->
     f acc (k, v) = match g k v with
                    | Some w => insert k w acc
                    | None => acc
                    end) ->
  (wf acc -> wf (fold_left f m acc))
  /\ (wf m -> forall k,
        lookup k (fold_left f m acc)
        = match lookup k m with
          | Some v => match g k v with
                      | Some w => Some w
                      | None => lookup k acc
                      end
          | None => lookup k acc
          end).
Proof.
  intros Hf.
  destruct (foldM_range (fun b a => ret (f b a)) g m acc) as (r & Hr & Hwf & Hl).
  { intros acc' k v Hin. unfold ret. now rewrite Hf. }
  rewrite foldM_pure in Hr. apply Some_eq in Hr. subst r. now split.
Qed.


Lemma index_Some {A} (s : list A) (i : Z) :
  0 <= i < len s -> exists a, index s i = Some a.
Proof. apply index_returns. Qed.

Lemma period_return_Some (series : data.PriceSeries) (d : Z) :
  1 <= d <= len series -> exists r, period_return series d = Some r.
Proof.
  intros H. unfold period_return.
  destruct (index_Some series (len series - d)) as [a ->]; [lia|].
  destruct (index_Some series (len series - 1)) as [b ->]; [lia|].
  simpl. eauto.
Qed.


Lemma sector_returns_spec (series : data.PriceSeries) :
  exists rets,
    sector_returns series = Some rets
    /\ ((len rets >? 0)%Z = (63 <=? len series)%Z)
    /\ forall months, In months config.MomentumPeriods ->
         lookup (periodKey months) rets
         = if (months * 21 <=? len series)%Z
           then period_return series (months * 21) else None.
Proof.
  unfold sector_returns, config.MomentumPeriods. cbn [foldM].
  change (3 * 21)%Z with 63%Z. change (6 * 21)%Z with 126%Z.
  change (12 * 21)%Z with 252%Z.
  rewrite !Z.geb_leb.
  assert (Hcases : forall P : Prop,
            (len series < 63 -> P) -> (63 <= len series < 126 -> P) ->
            (126 <= len series < 252 -> P) -> (252 <= len series -> P) -> P)
.
  { intros P H1 H2 H3 H4.
    destruct (Z_lt_le_dec (len series) 63); [auto|].
    destruct (Z_lt_le_dec (len series) 126); [apply H2; lia|].
    destruct (Z_lt_le_dec (len series) 252); [apply H3; lia | auto]. }
  apply Hcases; clear Hcases; intros Hlen.
  - destruct (63 <=? len series) eqn:E1; [lia|].
    destruct (126 <=? len series) eqn:E2; [lia|].
    destruct (252 <=? len series) eqn:E3; [lia|].
    exists []. cbn. split; [reflexivity|]. split.
    + destruct (63 <=? len series) eqn:E; [lia | reflexivity].
    + intros months [<-|[<-|[<-|[]]]];
        match goal with |- context [(?a <=? ?b)%Z] =>
          destruct (a <=? b)%Z eqn:E; [lia | reflexivity] end.
  - destruct (63 <=? len series) eqn:E1; [|lia].
    destruct (126 <=? len series) eqn:E2; [lia|].
    destruct (252 <=? len series) eqn:E3; [lia|].
    destruct (index_Some series (len series - 63)) as [a Ha]; [lia|].
    destruct (index_Some series (len series - 1)) as [b Hb]; [lia|].
    rewrite Ha, Hb. cbn.
    eexists. split; [reflexivity|]. split.
    + destruct (63 <=? len series) eqn:E; [reflexivity | lia].
    + intros months [<-|[<-|[<-|[]]]];
        match goal with |- context [(?a * 21 <=? ?b)%Z] =>
          destruct (a * 21 <=? b)%Z eqn:E; try lia end;
        unfold period_return; cbn; rewrite ?Ha, ?Hb; reflexivity.
  - destruct (63 <=? len series) eqn:E1; [|lia].
    destruct (126 <=? len series) eqn:E2; [|lia].
    destruct (252 <=? len series) eqn:E3; [lia|].
    destruct (index_Some series (len series - 63)) as [a Ha]; [lia|].
    destruct (index_Some series (len series - 126)) as [a2 Ha2]; [lia|].
    destruct (index_Some series (len series - 1)) as [b Hb]; [lia|].
    rewrite Ha, Ha2, Hb. cbn.
    eexists. split; [reflexivity|]. split.
    + destruct (63 <=? len series) eqn:E; [reflexivity | lia].
    + intros months [<-|[<-|[<-|[]]]];
        match goal with |- context [(?a * 21 <=? ?b)%Z] =>
          destruct (a * 21 <=? b)%Z eqn:E; try lia end;
        unfold period_return; cbn; rewrite ?Ha, ?Ha2, ?Hb; reflexivity.
  - destruct (63 <=? len series) eqn:E1; [|lia].
    destruct (126 <=? len series) eqn:E2; [|lia].
    destruct (252 <=? len series) eqn:E3; [|lia].
    destruct (index_Some series (len series - 63)) as [a Ha]; [lia|].
    destruct (index_Some series (len series - 126)) as [a2 Ha2]; [lia|].
    destruct (index_Some series (len series - 252)) as [a3 Ha3]; [lia|].
    destruct (index_Some series (len series - 1)) as [b Hb]; [lia|].
    rewrite Ha, Ha2, Ha3, Hb. cbn.
    eexists. split; [reflexivity|]. split.
    + destruct (63 <=? len series) eqn:E; [reflexivity | lia].
    + intros months [<-|[<-|[<-|[]]]];
        match goal with |- context [(?a * 21 <=? ?b)%Z] =>
          destruct (a * 21 <=? b)%Z eqn:E; try lia end;
        unfold period_return; cbn; rewrite ?Ha, ?Ha2, ?Ha3, ?Hb; reflexivity.
Qed.




(** *** CalculatePriceReturns *)

Lemma CalculatePriceReturns_lookup (prices : data.SectorPrices) :
  wf prices ->
  exists returns,
    CalculatePriceReturns prices = Some returns
    /\ wf returns
    /\ forall sector,
         lookup sector returns
         = match lookup sector prices with
           | Some series =>
               if (sector =? "_benchmark")%string || (len series <? 63)
               then None else sector_returns series
           | None => None
           end.
Proof.
  intros Hwf.
  destruct (foldM_range (V := data.PriceSeries)
              (fun returns '(sector, series) =>
                 if (sector =? "_benchmark")%string || (len series <? 20)%Z
                 then ret returns
                 else
                   sectorReturns <- sector_returns series ;;
                   if (len sectorReturns >? 0)%Z
                   then ret (insert sector sectorReturns returns)
                   else ret returns)
              (fun sector series =>
                 if (sector =? "_benchmark")%string || (len series <? 20)
                 then None
                 else match sector_returns series with
                      | Some rets => if len rets >? 0 then Some rets else None
                      | None => None
                      end)
              prices []) as (returns & Hr & Hw & Hl).
  { intros acc k v _.
    destruct (_ || _); [reflexivity|].
    destruct (sector_returns_spec v) as (rets & -> & _). simpl.
    destruct (len rets >? 0); reflexivity. }
  exists returns. split; [exact Hr|]. split; [apply Hw, wf_nil|].
  intros sector. rewrite (Hl Hwf sector). simpl.
  destruct (lookup sector prices) as [series|]; [|reflexivity].
  destruct (sector =? "_benchmark")%string; [reflexivity|]. cbn [orb].
  destruct (sector_returns_spec series) as (rets & -> & Hlen & _).
  rewrite Hlen.
  destruct (len series <? 20) eqn:E20; destruct (len series <? 63) eqn:E63;
    destruct (63 <=? len series) eqn:E; try lia; reflexivity.
Qed.

(** X1.  [CalculatePriceReturns] never panics.  A sector has returns
    exactly when it is not the benchmark and its series has at least 63
    bars: the guard of 20 bars admits series that no period fits, and they
    are dropped.  The return over [months] months is present exactly when
    the series has [months * 21] bars, and is
    [((end - start) / start) * 100] of the last bar and of the bar
    [months * 21] places from the end. *)
Theorem price_returns_need_63_bars (prices : data.SectorPrices) :
  wf prices ->
  exists returns,
    CalculatePriceReturns prices = Some returns
    /\ forall sector,
         match lookup sector returns with
         | Some rets =>
             sector <> "_benchmark"
             /\ exists series,
                  lookup sector prices = Some series /\ 63 <= len series
                  /\ forall months, In months config.MomentumPeriods ->
                       lookup (periodKey months) rets
                       = if months * 21 <=? len series
                         then period_return series (months * 21) else None
         | None =>
             sector = "_benchmark"
             \/ match lookup sector prices with
                | Some series => len series < 63
                | None => True
                end
         end.
Proof.
  intros Hwf.
  destruct (CalculatePriceReturns_lookup prices Hwf) as (returns & Hr & _ & Hl).
  exists returns. split; [exact Hr|].
  intros sector. rewrite Hl.
  destruct (lookup sector prices) as [series|]; [|cbv iota; now right].
  destruct (sector =? "_benchmark")%string eqn:Eb; cbv iota; cbn [orb].
  { left. now apply String.eqb_eq. }
  apply String.eqb_neq in Eb.
  destruct (len series <? 63) eqn:E63; cbv iota.
  { right. lia. }
  destruct (sector_returns_spec series) as (rets & -> & _ & Hrets).
  split; [exact Eb|]. exists series. split; [reflexivity|]. split; [lia|exact Hrets].
Qed.

Lemma price_returns_need_63_bars_witness :
  wf quarter_prices
  /\ exists returns,
       CalculatePriceReturns quarter_prices = Some returns
       /\ forall sector,
            match lookup sector returns with
            | Some rets =>
                sector <> "_benchmark"
                /\ exists series,
                     lookup sector quarter_prices = Some series /\ 63 <= len series
                     /\ forall months, In months config.MomentumPeriods ->
                          lookup (periodKey months) rets
                          = if months * 21 <=? len series
                            then period_return series (months * 21) else None
            | None =>
                sector = "_benchmark"
                \/ match lookup sector quarter_prices with
                   | Some series => len series < 63
                   | None => True
                   end
            end.
Proof.
  assert (Hw : wf quarter_prices) by wf_concrete.
  split; [exact Hw | exact (price_returns_need_63_bars quarter_prices Hw)].
Defined.

(** *** CalculateRelativeStrength *)

Lemma ratio_return_Some (series : data.PriceSeries) (d : Z) :
  1 <= d <= len series -> exists r, ratio_return series d = Some r.
Proof.
  intros H. unfold ratio_return.
  destruct (index_Some series (len series - 1)) as [a ->]; [lia|].
  destruct (index_Some series (len series - d)) as [b ->]; [lia|].
  simpl. eauto.
Qed.

Lemma CalculateRelativeStrength_lookup (prices : data.SectorPrices)
  (periodMonths : Z) :
  wf prices -> 0 < periodMonths ->
  exists relStrength,
    CalculateRelativeStrength prices periodMonths = Some relStrength
    /\ wf relStrength
    /\ forall sector,
         lookup sector relStrength
         = match lookup "_benchmark" prices, lookup sector prices with
           | Some benchmarkSeries, Some series =>
               if (sector =? "_benchmark")%string
                  || (len benchmarkSeries <? periodMonths * 21)
                  || (len series <? periodMonths * 21)
               then None
               else
                 sectorReturn <- ratio_return series (periodMonths * 21) ;;
                 benchmarkReturn <-
                   ratio_return benchmarkSeries (periodMonths * 21) ;;
                 ret (sectorReturn - benchmarkReturn)%float
           | _, _ => None
           end.
Proof.
  intros Hwf Hp. unfold CalculateRelativeStrength.
  set (tradingDays := periodMonths * 21).
  assert (Hd : 21 <= tradingDays) by (unfold tradingDays; lia).
  destruct (lookup "_benchmark" prices) as [b|];
    [|exists []; split; [reflexivity|]; split; [apply wf_nil|]; reflexivity].
  pose proof (len_nonneg b) as Hb0.
  destruct (len b =? 0) eqn:E0.
  { exists []. split; [reflexivity|]. split; [apply wf_nil|].
    intros sector. destruct (lookup sector prices); [|reflexivity].
    destruct (len b <? tradingDays) eqn:E; [|lia].
    now rewrite orb_true_r. }
  destruct (len b <? tradingDays) eqn:Ed.
  { exists []. split; [reflexivity|]. split; [apply wf_nil|].
    intros sector. destruct (lookup sector prices); [|reflexivity].
    now rewrite orb_true_r. }
  destruct (index_Some b (len b - 1)) as [bl Hbl]; [lia|].
  destruct (index_Some b (len b - tradingDays)) as [bf Hbf]; [lia|].
  rewrite Hbl, Hbf. simpl.
  set (benchmarkReturn := ((data.Close bl / data.Close bf - 1) * 100)%float).
  destruct (foldM_range (V := data.PriceSeries)
              (fun relStrength '(sector, series) =>
                 if (sector =? "_benchmark")%string
                    || (len series <? tradingDays)%Z
                 then ret relStrength
                 else
                   sLast <- index series (len series - 1) ;;
                   sFirst <- index series (len series - tradingDays) ;;
                   let sectorReturn :=
                     ((data.Close sLast / data.Close sFirst - 1) * 100)%float in
                   ret (insert sector (sectorReturn - benchmarkReturn)%float
                               relStrength))
              (fun sector series =>
                 if (sector =? "_benchmark")%string
                    || (len series <? tradingDays)%Z
                 then None
                 else
                   sectorReturn <- ratio_return series tradingDays ;;
                   ret (sectorReturn - benchmarkReturn)%float)
              prices []) as (rel & Hr & Hw & Hl).
  { intros acc k v _.
    destruct (_ || _) eqn:E; [reflexivity|].
    apply orb_false_iff in E. destruct E as [_ E].
    unfold ratio_return.
    destruct (index_Some v (len v - 1)) as [sl ->]; [lia|].
    destruct (index_Some v (len v - tradingDays)) as [sf ->]; [lia|].
    reflexivity. }
  exists rel. split; [exact Hr|]. split; [apply Hw, wf_nil|].
  intros sector. rewrite (Hl Hwf sector). simpl.
  destruct (lookup sector prices) as [series|]; [|reflexivity].
  rewrite orb_false_r.
  destruct (_ || _); [reflexivity|].
  assert (Hb : ratio_return b tradingDays = Some benchmarkReturn)
    by (unfold ratio_return; rewrite Hbl, Hbf; reflexivity).
  rewrite Hb.
  destruct (ratio_return series tradingDays); reflexivity.
Qed.




(** *** CalculateVolumeTrend *)

Lemma zrange_cons (lo hi : Z) :
  lo < hi -> zrange lo hi = lo :: zrange (lo + 1) hi.
Proof.
  intros H. unfold zrange.
  replace (Z.to_nat (hi - lo)) with (S (Z.to_nat (hi - (lo + 1)))) by lia.
  cbn [seq map]. f_equal; [lia|].
  rewrite <- seq_shift, map_map. apply map_ext. intros k. lia.
Qed.

Lemma zrange_nil (lo hi : Z) : hi <= lo -> zrange lo hi = [].
Proof.
  intros H. unfold zrange. replace (Z.to_nat (hi - lo)) with 0%nat by lia.
  reflexivity.
Qed.


Lemma CalculateVolumeTrend_lookup (prices : data.SectorPrices)
  (shortPeriod longPeriod : Z) :
  wf prices -> shortPeriod <= longPeriod ->
  exists trends,
    CalculateVolumeTrend prices shortPeriod longPeriod = Some trends
    /\ wf trends
    /\ forall sector,
         lookup sector trends
         = match lookup sector prices with
           | Some series =>
               if (sector =? "_benchmark")%string || (len series <? longPeriod)
               then None
               else
                 shortAvg <- average_volume series shortPeriod ;;
                 longAvg <- average_volume series longPeriod ;;
                 if gtb longAvg 0
                 then Some (((shortAvg - longAvg) / longAvg) * 100)%float
                 else None
           | None => None
           end.
Proof.
  intros Hwf Hsl. unfold CalculateVolumeTrend.
  destruct (foldM_range (V := data.PriceSeries)
              (fun trends '(sector, series) =>
                 if (sector =? "_benchmark")%string || (len series <? longPeriod)%Z
                 then ret trends
                 else
                   shortSum <- volume_sum series (len series - shortPeriod) ;;
                   let shortAvg := (of_int shortSum / of_int shortPeriod)%float in
                   longSum <- volume_sum series (len series - longPeriod) ;;
                   let longAvg := (of_int longSum / of_int longPeriod)%float in
                   if gtb longAvg 0 then
                     let trend := (((shortAvg - longAvg) / longAvg) * 100)%float in
                     ret (insert sector trend trends)
                   else ret trends)
              (fun sector series =>
                 if (sector =? "_benchmark")%string || (len series <? longPeriod)
                 then None
                 else
                   shortAvg <- average_volume series shortPeriod ;;
                   longAvg <- average_volume series longPeriod ;;
                   if gtb longAvg 0
                   then Some (((shortAvg - longAvg) / longAvg) * 100)%float
                   else None)
              prices []) as (trends & Hr & Hw & Hl).
  { intros acc k v _.
    destruct (_ || _) eqn:E; [reflexivity|].
    apply orb_false_iff in E. destruct E as [_ E].
    unfold average_volume.
    destruct (volume_sum_returns v (len v - shortPeriod)) as [ss ->]; [lia|].
    destruct (volume_sum_returns v (len v - longPeriod)) as [ls ->]; [lia|].
    simpl. destruct (gtb _ _); reflexivity. }
  exists trends. split; [exact Hr|]. split; [apply Hw, wf_nil|].
  intros sector. rewrite (Hl Hwf sector). simpl.
  destruct (lookup sector prices) as [series|]; [|reflexivity].
  destruct (_ || _); [reflexivity|].
  destruct (average_volume series shortPeriod); [|reflexivity]. simpl.
  destruct (average_volume series longPeriod); [|reflexivity]. simpl.
  destruct (gtb _ _); reflexivity.
Qed.




(** *** The score maps of the calculators *)

(** A loop [for _, sector := range names { scores[sector] = h(sector) }]. *)
Lemma lookup_fold_insert (h : string -> float) (names : list string)
  (acc : gomap float) (k : string) :
  lookup k (fold_left (fun scores sector => insert sector (h sector) scores)
                      names acc)
  = if in_dec string_dec k names then Some (h k) else lookup k acc.
Proof.
  revert acc. induction names as [|n ns IH]; intros acc; [reflexivity|].
  cbn [fold_left]. rewrite IH.
  destruct (in_dec string_dec k ns) as [Hin|Hnin].
  - destruct (in_dec string_dec k (n :: ns)) as [_|Hn]; [reflexivity|].
    exfalso. apply Hn. now right.
  - rewrite lookup_insert.
    destruct (String.eqb k n) eqn:E.
    + apply String.eqb_eq in E. subst n.
      destruct (in_dec string_dec k (k :: ns)) as [_|Hn]; [reflexivity|].
      exfalso. apply Hn. now left.
    + apply String.eqb_neq in E.
      destruct (in_dec string_dec k (n :: ns)) as [[Hn|Hn]|_];
        [congruence | contradiction | reflexivity].
Qed.

Lemma lookup_defaultScores (k : string) :
  lookup k defaultScores
  = if in_dec string_dec k config.SectorNames then Some 50%float else None.
Proof. apply (lookup_fold_insert (fun _ => 50%float)). Qed.

Lemma fill_missing_covers (scores : gomap float) (def : float) (sector : string) :
  In sector config.SectorNames ->
  exists s, lookup sector (fill_missing scores def) = Some s.
Proof.
  intros Hin. rewrite Claims.lookup_fill_missing.
  destruct (lookup sector scores); [eauto|].
  destruct (in_dec string_dec sector config.SectorNames); [eauto | contradiction].
Qed.

Lemma defaultScores_covers (sector : string) :
  In sector config.SectorNames -> lookup sector defaultScores = Some 50%float.
Proof.
  intros Hin. rewrite lookup_defaultScores.
  destruct (in_dec string_dec sector config.SectorNames); [reflexivity | contradiction].
Qed.

Lemma CalculateMomentumScore_keys (prices : data.SectorPrices) (m : gomap float) :
  CalculateMomentumScore prices = Some m -> keys m = config.SectorNames.
Proof.
  unfold CalculateMomentumScore.
  destruct (CalculatePriceReturns prices); [|discriminate]. simpl.
  destruct (CalculateRelativeStrength prices 12); [|discriminate]. simpl.
  destruct (CalculateVolumeTrend prices 20 50); [|discriminate]. simpl.
  intros H. apply Some_eq in H. subst m. reflexivity.
Qed.

Lemma covered (m : gomap float) (sector : string) :
  scores_ok m -> (exists s, lookup sector m = Some s) ->
  exists s, lookup sector m = Some s /\ nan_or_in_range s.
Proof. intros Hok [s Hs]. exists s. split; [exact Hs | now apply (Hok sector)]. Qed.

Lemma calculators_cover_every_sector_lemma
  (prices : data.SectorPrices) (sectorPE : gomap float)
  (sectorInfo : gomap data.SectorInfo) (employment : data.EmploymentData)
  (rdData : data.RDData) (macroData : data.MacroData) :
  exists momentum growth macro,
    CalculateMomentumScore prices = Some momentum
    /\ CalculateGrowthScore employment = Some growth
    /\ CalculateMacroScore prices macroData = Some macro
    /\ keys momentum = config.SectorNames
    /\ forall sector scores,
         In sector config.SectorNames ->
         In scores [momentum; CalculateValuationScore sectorPE sectorInfo;
                    growth; CalculateInnovationScore rdData; macro] ->
         exists s, lookup sector scores = Some s /\ nan_or_in_range s.
Proof.
  destruct (CalculateMomentumScore_returns prices) as [momentum Hm].
  destruct (CalculateGrowthScore_returns employment) as [growth Hg].
  destruct (CalculateMacroScore_returns prices macroData) as [macro Hc].
  exists momentum, growth, macro.
  split; [exact Hm|]. split; [exact Hg|]. split; [exact Hc|].
  pose proof (CalculateMomentumScore_keys _ _ Hm) as Hk.
  split; [exact Hk|].
  intros sector scores Hin [<-|[<-|[<-|[<-|[<-|[]]]]]].
  - apply covered; [now apply (CalculateMomentumScore_ok prices)|].
    assert (Hs : In sector (keys momentum)) by now rewrite Hk.
    apply in_keys_lookup in Hs.
    destruct (lookup sector momentum); [eauto | congruence].
  - apply covered; [apply CalculateValuationScore_ok|].
    unfold CalculateValuationScore.
    destruct (len _ =? 0);
      [rewrite defaultScores_covers by assumption; eauto
      | now apply fill_missing_covers].
  - apply covered; [now apply (CalculateGrowthScore_ok employment)|].
    revert Hg. unfold CalculateGrowthScore.
    destruct (CalculateEmploymentGrowth employment); [|discriminate]. simpl.
    destruct (len _ =? 0); intros H; apply Some_eq in H; subst growth;
      [rewrite defaultScores_covers by assumption; eauto
      | now apply fill_missing_covers].
  - apply covered; [apply CalculateInnovationScore_ok|].
    unfold CalculateInnovationScore.
    destruct (len rdData =? 0);
      [rewrite defaultScores_covers by assumption; eauto|].
    destruct (len (validRD rdData) =? 0);
      [rewrite defaultScores_covers by assumption; eauto
      | now apply fill_missing_covers].
  - apply covered; [now apply (CalculateMacroScore_ok prices macroData)|].
    revert Hc. unfold CalculateMacroScore.
    destruct (lookup "treasury_10y" macroData).
    + destruct (CalculateRateSensitivity prices _); [|discriminate]. simpl.
      destruct (len _ =? 0); intros H; apply Some_eq in H; subst macro;
        [rewrite defaultScores_covers by assumption; eauto
        | now apply fill_missing_covers].
    + intros H; apply Some_eq in H; subst macro.
      rewrite defaultScores_covers by assumption; eauto.
Qed.

(** X4.  Each of the five calculators returns, for every input, a map that
    holds a score for every configured sector, and each of these scores is
    NaN or lies in [0, 100]; the momentum map holds the configured sectors
    and no other key. *)
Theorem calculators_cover_every_sector
  (prices : data.SectorPrices) (sectorPE : gomap float)
  (sectorInfo : gomap data.SectorInfo) (employment : data.EmploymentData)
  (rdData : data.RDData) (macroData : data.MacroData) :
  exists momentum growth macro,
    CalculateMomentumScore prices = Some momentum
    /\ CalculateGrowthScore employment = Some growth
    /\ CalculateMacroScore prices macroData = Some macro
    /\ keys momentum = config.SectorNames
    /\ forall sector scores,
         In sector config.SectorNames ->
         In scores [momentum; CalculateValuationScore sectorPE sectorInfo;
                    growth; CalculateInnovationScore rdData; macro] ->
         exists s, lookup sector scores = Some s /\ nan_or_in_range s.
Proof.
  apply calculators_cover_every_sector_lemma.
Qed.


Lemma NormalizeScoreZScore_None (values : gomap float) (higherIsBetter : bool)
  (k : string) :
  lookup k values = None ->
  lookup k (NormalizeScoreZScore values higherIsBetter) = None.
Proof.
  rewrite !lookup_None_keys, NormalizeScoreZScore_keys. auto.
Qed.

Lemma getOrDefault_None (m : gomap float) (k : string) (def : float) :
  lookup k m = None -> getOrDefault m k def = def.
Proof. unfold getOrDefault. now intros ->. Qed.

(** The loop of [CalculateMomentumScore] that extracts the 12-month
    returns. *)
Lemma returns12mo_lookup (returns : gomap (gomap float)) (sector : string) :
  wf returns ->
  lookup sector
    (fold_left (fun returns12mo '(sector, rets) =>
                  match lookup "12mo" rets with
                  | Some r => insert sector r returns12mo
                  | None => returns12mo
                  end) returns [])
  = (rets <- lookup sector returns ;; lookup "12mo" rets).
Proof.
  intros Hwf.
  destruct (fold_range (V := gomap float)
              (fun returns12mo '(sector, rets) =>
                 match lookup "12mo" rets with
                 | Some r => insert sector r returns12mo
                 | None => returns12mo
                 end)
              (fun _ rets => lookup "12mo" rets) returns []) as [_ Hl].
  { intros acc k v _. reflexivity. }
  rewrite (Hl Hwf sector). simpl.
  destruct (lookup sector returns) as [rets|]; [|reflexivity]. simpl.
  destruct (lookup "12mo" rets); reflexivity.
Qed.

(** X5.  A configured sector whose price series is missing or has fewer
    than 50 bars gets the momentum score 50, whatever the other sectors'
    data: none of its three components can be computed, and each falls back
    to 50. *)
Theorem momentum_neutral_without_history (prices : data.SectorPrices)
  (sector : string) :
  wf prices ->
  In sector config.SectorNames ->
  match lookup sector prices with
  | Some series => len series < 50
  | None => True
  end ->
  exists momentumScores,
    CalculateMomentumScore prices = Some momentumScores
    /\ lookup sector momentumScores = Some 50%float.
Proof.
  intros Hwf Hin Hshort.
  destruct (CalculatePriceReturns_lookup prices Hwf) as (returns & Hr & Hwr & Hlr).
  destruct (CalculateRelativeStrength_lookup prices 12 Hwf) as (rel & Hrel & _ & Hlrel);
    [lia|].
  destruct (CalculateVolumeTrend_lookup prices 20 50 Hwf) as (vol & Hvol & _ & Hlvol);
    [lia|].
  unfold CalculateMomentumScore. rewrite Hr, Hrel, Hvol. cbn [bind ret].
  eexists. split; [reflexivity|].
  rewrite (lookup_fold_insert
             (fun sector =>
                (math_Round
                   ((0.50 * getOrDefault (NormalizeScoreZScore _ true) sector 50
                     + 0.35 * getOrDefault (NormalizeScoreZScore rel true) sector 50
                     + 0.15 * getOrDefault (NormalizeScoreZScore vol true) sector 50)
                    * 100) / 100)%float)).
  destruct (in_dec string_dec sector config.SectorNames); [|contradiction].
  assert (H1 : lookup sector returns = None).
  { rewrite Hlr. destruct (lookup sector prices) as [series|]; [|reflexivity].
    destruct (len series <? 63) eqn:E; [|lia]. now rewrite orb_true_r. }
  assert (H2 : lookup sector rel = None).
  { rewrite Hlrel. destruct (lookup "_benchmark" prices); [|reflexivity].
    destruct (lookup sector prices) as [series|]; [|reflexivity].
    destruct (len series <? 12 * 21) eqn:E; [|lia]. now rewrite orb_true_r. }
  assert (H3 : lookup sector vol = None).
  { rewrite Hlvol. destruct (lookup sector prices) as [series|]; [|reflexivity].
    destruct (len series <? 50) eqn:E; [|lia]. now rewrite orb_true_r. }
  rewrite !getOrDefault_None;
    [reflexivity
    | now apply NormalizeScoreZScore_None
    | now apply NormalizeScoreZScore_None
    | apply NormalizeScoreZScore_None; rewrite returns12mo_lookup by exact Hwr;
      now rewrite H1].
Qed.

Lemma momentum_neutral_without_history_witness :
  wf quarter_prices
  /\ In "Utilities" config.SectorNames
  /\ match lookup "Utilities" quarter_prices with
     | Some series => len series < 50
     | None => True
     end
  /\ exists momentumScores,
       CalculateMomentumScore quarter_prices = Some momentumScores
       /\ lookup "Utilities" momentumScores = Some 50%float.
Proof.
  assert (Hw : wf quarter_prices) by wf_concrete.
  assert (Hin : In "Utilities" config.SectorNames) by (cbn; tauto).
  assert (Hshort : match lookup "Utilities" quarter_prices with
                   | Some series => len series < 50
                   | None => True
                   end) by (vm_compute; reflexivity).
  split; [exact Hw|]. split; [exact Hin|]. split; [exact Hshort|].
  exact (momentum_neutral_without_history quarter_prices "Utilities" Hw Hin Hshort).
Defined.


(** *** CalculateValuationScore *)

Lemma fold_lookup_unchanged {A W} (f : gomap W -> A -> gomap W) (l : list A)
  (acc : gomap W) (k : string) :
  (forall acc a, In a l -> lookup k (f acc a) = lookup k acc) ->
  lookup k (fold_left f l acc) = lookup k acc.
Proof.
  revert acc. induction l as [|a l IH]; intros acc Hf; [reflexivity|].
  cbn [fold_left]. rewrite IH.
  - apply Hf. now left.
  - intros acc' a' Hin. apply Hf. now right.
Qed.

Lemma fill_or_default (scores : gomap float) (sector : string) :
  In sector config.SectorNames ->
  lookup sector scores = None ->
  lookup sector (if len scores =? 0 then defaultScores
                 else fill_missing (NormalizeScoreZScore scores false) 50%float)
  = Some 50%float
  /\ lookup sector (if len scores =? 0 then defaultScores
                    else fill_missing (NormalizeScoreZScore scores true) 50%float)
     = Some 50%float.
Proof.
  intros Hin Hnone.
  destruct (len scores =? 0); [split; now apply defaultScores_covers|].
  rewrite !Claims.lookup_fill_missing, !NormalizeScoreZScore_None by exact Hnone.
  destruct (in_dec string_dec sector config.SectorNames);
    [now split | contradiction].
Qed.

(** X6.  A configured sector for which neither source holds a P/E above
    zero (the entry is missing, zero, negative or NaN) gets the valuation
    score 50, whatever the other sectors' data. *)
Theorem valuation_neutral_without_pe (sectorPE : gomap float)
  (sectorInfo : gomap data.SectorInfo) (sector : string) :
  In sector config.SectorNames ->
  (forall pe, In (sector, pe) sectorPE -> gtb pe 0 = false) ->
  (forall info pe, In (sector, info) sectorInfo ->
                   data.ForwardPE info = Some pe -> gtb pe 0 = false) ->
  lookup sector (CalculateValuationScore sectorPE sectorInfo) = Some 50%float.
Proof.
  intros Hin Hpe Hinfo. unfold CalculateValuationScore.
  apply fill_or_default; [exact Hin|].
  rewrite fold_lookup_unchanged.
  - rewrite fold_lookup_unchanged; [reflexivity|].
    intros acc [s pe] Hs.
    destruct (gtb pe 0) eqn:E; [|reflexivity].
    apply lookup_insert_ne. intros ->. rewrite (Hpe pe Hs) in E. discriminate.
  - intros acc [s info] Hs.
    destruct (data.ForwardPE info) as [fpe|] eqn:Ef; [|reflexivity].
    destruct (negb (mem s acc) && gtb fpe 0) eqn:E; [|reflexivity].
    apply lookup_insert_ne. intros ->.
    apply andb_true_iff in E. destruct E as [_ E].
    rewrite (Hinfo info fpe Hs Ef) in E. discriminate.
Qed.

Lemma valuation_neutral_without_pe_witness :
  In "Utilities" config.SectorNames
  /\ lookup "Utilities" (CalculateValuationScore [] two_pe) = Some 50%float.
Proof.
  assert (Hin : In "Utilities" config.SectorNames) by (cbn; tauto).
  split; [exact Hin|].
  apply (valuation_neutral_without_pe [] two_pe "Utilities" Hin).
  - intros pe [].
  - intros info pe [H|[H|[]]]; discriminate H.
Defined.


(** *** CalculateEmploymentGrowth and CalculateGrowthScore *)

Lemma CalculateEmploymentGrowth_lookup (employment : data.EmploymentData) :
  wf employment ->
  exists growthRates,
    CalculateEmploymentGrowth employment = Some growthRates
    /\ wf growthRates
    /\ forall sector,
         lookup sector growthRates
         = match lookup sector employment with
           | Some ts =>
               let values := data.Values ts in
               if len values <? 13 then None
               else
                 current <- index values (len values - 1) ;;
                 yearAgo <- index values (len values - 13) ;;
                 if gtb yearAgo 0
                 then Some (((current - yearAgo) / yearAgo) * 100)%float
                 else None
           | None => None
           end.
Proof.
  intros Hwf. unfold CalculateEmploymentGrowth.
  destruct (foldM_range (V := data.TimeSeries)
              (fun growthRates '(sector, ts) =>
                 let values := data.Values ts in
                 if (len values <? 13)%Z then ret growthRates
                 else
                   current <- index values (len values - 1) ;;
                   yearAgo <- index values (len values - 13) ;;
                   if gtb yearAgo 0 then
                     let growth := (((current - yearAgo) / yearAgo) * 100)%float in
                     ret (insert sector growth growthRates)
                   else ret growthRates)
              (fun _ ts =>
                 let values := data.Values ts in
                 if len values <? 13 then None
                 else
                   current <- index values (len values - 1) ;;
                   yearAgo <- index values (len values - 13) ;;
                   if gtb yearAgo 0
                   then Some (((current - yearAgo) / yearAgo) * 100)%float
                   else None)
              employment []) as (growth & Hr & Hw & Hl).
  { intros acc k v _. cbv zeta.
    destruct (len (data.Values v) <? 13) eqn:E; [reflexivity|].
    destruct (index_Some (data.Values v) (len (data.Values v) - 1)) as [c ->]; [lia|].
    destruct (index_Some (data.Values v) (len (data.Values v) - 13)) as [y ->]; [lia|].
    simpl. destruct (gtb y 0); reflexivity. }
  exists growth. split; [exact Hr|]. split; [apply Hw, wf_nil|].
  intros sector. rewrite (Hl Hwf sector). cbv zeta.
  destruct (lookup sector employment) as [ts|]; [|reflexivity].
  destruct (len (data.Values ts) <? 13); [reflexivity|].
  destruct (index _ _); [|reflexivity]. simpl.
  destruct (index _ _); [|reflexivity]. simpl.
  destruct (gtb _ _); reflexivity.
Qed.

(** X7.  [CalculateEmploymentGrowth] never panics.  A sector has a growth
    rate exactly when its series has at least 13 values and the value 12
    places before the last is above zero; the rate is
    [((current - yearAgo) / yearAgo) * 100] of the last value and of that
    one. *)
Theorem employment_growth_year_over_year (employment : data.EmploymentData) :
  wf employment ->
  exists growthRates,
    CalculateEmploymentGrowth employment = Some growthRates
    /\ forall sector,
         match lookup sector growthRates with
         | Some growth =>
             exists ts current yearAgo,
               lookup sector employment = Some ts
               /\ 13 <= len (data.Values ts)
               /\ index (data.Values ts) (len (data.Values ts) - 1) = Some current
               /\ index (data.Values ts) (len (data.Values ts) - 13) = Some yearAgo
               /\ gtb yearAgo 0 = true
               /\ growth = (((current - yearAgo) / yearAgo) * 100)%float
         | None =>
             match lookup sector employment with
             | Some ts =>
                 len (data.Values ts) < 13
                 \/ exists yearAgo,
                      index (data.Values ts) (len (data.Values ts) - 13)
                      = Some yearAgo
                      /\ gtb yearAgo 0 = false
             | None => True
             end
         end.
Proof.
  intros Hwf.
  destruct (CalculateEmploymentGrowth_lookup employment Hwf)
    as (growth & Hr & _ & Hl).
  exists growth. split; [exact Hr|].
  intros sector. rewrite Hl. cbv zeta.
  destruct (lookup sector employment) as [ts|]; [|exact I].
  destruct (len (data.Values ts) <? 13) eqn:E; [left; lia|].
  destruct (index_Some (data.Values ts) (len (data.Values ts) - 1)) as [c Hc]; [lia|].
  destruct (index_Some (data.Values ts) (len (data.Values ts) - 13)) as [y Hy]; [lia|].
  rewrite Hc, Hy. cbn [bind].
  destruct (gtb y 0) eqn:Eg.
  - exists ts, c, y. repeat split; try assumption; lia.
  - right. now exists y.
Qed.

Lemma employment_growth_year_over_year_witness :
  wf energy_jobs
  /\ exists growthRates,
       CalculateEmploymentGrowth energy_jobs = Some growthRates
       /\ forall sector,
            match lookup sector growthRates with
            | Some growth =>
                exists ts current yearAgo,
                  lookup sector energy_jobs = Some ts
                  /\ 13 <= len (data.Values ts)
                  /\ index (data.Values ts) (len (data.Values ts) - 1) = Some current
                  /\ index (data.Values ts) (len (data.Values ts) - 13) = Some yearAgo
                  /\ gtb yearAgo 0 = true
                  /\ growth = (((current - yearAgo) / yearAgo) * 100)%float
            | None =>
                match lookup sector energy_jobs with
                | Some ts =>
                    len (data.Values ts) < 13
                    \/ exists yearAgo,
                         index (data.Values ts) (len (data.Values ts) - 13)
                         = Some yearAgo
                         /\ gtb yearAgo 0 = false
                | None => True
                end
            end.
Proof.
  assert (Hw : wf energy_jobs) by wf_concrete.
  split; [exact Hw | exact (employment_growth_year_over_year energy_jobs Hw)].
Defined.

(** X8.  A configured sector whose employment series is missing, has fewer
    than 13 values, or has a value 12 places before the last that is not
    above zero gets the growth score 50. *)
Theorem growth_neutral_without_history (employment : data.EmploymentData)
  (sector : string) :
  wf employment ->
  In sector config.SectorNames ->
  match lookup sector employment with
  | Some ts =>
      len (data.Values ts) < 13
      \/ exists yearAgo,
           index (data.Values ts) (len (data.Values ts) - 13) = Some yearAgo
           /\ gtb yearAgo 0 = false
  | None => True
  end ->
  exists growthScores,
    CalculateGrowthScore employment = Some growthScores
    /\ lookup sector growthScores = Some 50%float.
Proof.
  intros Hwf Hin Hmiss.
  destruct (CalculateEmploymentGrowth_lookup employment Hwf)
    as (growth & Hr & _ & Hl).
  unfold CalculateGrowthScore. rewrite Hr. cbn [bind].
  assert (Hnone : lookup sector growth = None).
  { rewrite Hl. cbv zeta.
    destruct (lookup sector employment) as [ts|]; [|reflexivity].
    destruct (len (data.Values ts) <? 13) eqn:E; [reflexivity|].
    destruct Hmiss as [Hlt|(y & Hy & Hg)]; [lia|].
    rewrite Hy.
    destruct (index (data.Values ts) (len (data.Values ts) - 1)); [|reflexivity].
    simpl. now rewrite Hg. }
  destruct (fill_or_default growth sector Hin Hnone) as [_ H].
  destruct (len growth =? 0); eexists; (split; [reflexivity | exact H]).
Qed.

Lemma growth_neutral_without_history_witness :
  wf energy_jobs
  /\ In "Utilities" config.SectorNames
  /\ exists growthScores,
       CalculateGrowthScore energy_jobs = Some growthScores
       /\ lookup "Utilities" growthScores = Some 50%float.
Proof.
  assert (Hw : wf energy_jobs) by wf_concrete.
  assert (Hin : In "Utilities" config.SectorNames) by (cbn; tauto).
  split; [exact Hw|]. split; [exact Hin|].
  exact (growth_neutral_without_history energy_jobs "Utilities" Hw Hin I).
Defined.


(** *** monthlyChanges and monthlyReturnsFromPrices *)

Lemma len_app {A} (l l' : list A) : len (l ++ l') = len l + len l'.
Proof. unfold len. rewrite length_app. lia. Qed.

Lemma len_cons {A} (a : A) (l : list A) : len (a :: l) = len l + 1.
Proof. unfold len. cbn [List.length]. lia. Qed.

Lemma index_app_mid {A} (pre : list A) (x : A) (rest : list A) :
  index (pre ++ x :: rest) (len pre) = Some x.
Proof.
  unfold index, len. destruct (Z.of_nat (List.length pre) <? 0) eqn:E.
  { exfalso. apply Z.ltb_lt in E. lia. }
  rewrite Nat2Z.id, nth_error_app2 by apply Nat.le_refl.
  now rewrite Nat.sub_diag.
Qed.

Lemma monthlyChanges_loop (values pre : list float) (prev : float)
  (rest changes0 : list float) :
  values = pre ++ prev :: rest ->
  foldM (fun changes i =>
           prev <- index values (i - 1) ;;
           if negb (prev =? 0)%float then
             cur <- index values i ;;
             ret (changes ++ [((cur - prev) / prev)%float])
           else ret changes)
        (zrange (len pre + 1) (len values)) changes0
  = Some (changes0 ++ changes prev rest).
Proof.
  revert pre prev changes0. induction rest as [|cur rest IH];
    intros pre prev changes0 Hv.
  - rewrite zrange_nil by (subst values; rewrite len_app, len_cons; unfold len; simpl; lia).
    simpl. now rewrite app_nil_r.
  - rewrite zrange_cons
      by (subst values; rewrite len_app, !len_cons; pose proof (len_nonneg rest); lia).
    cbn [foldM].
    replace (len pre + 1 - 1) with (len pre) by lia.
    assert (Hp : index values (len pre) = Some prev)
      by (subst values; apply index_app_mid).
    assert (Hc : index values (len pre + 1) = Some cur).
    { subst values.
      replace (pre ++ prev :: cur :: rest) with ((pre ++ [prev]) ++ cur :: rest)
        by (now rewrite <- app_assoc).
      replace (len pre + 1) with (len (pre ++ [prev]))
        by (rewrite len_app; reflexivity).
      apply index_app_mid. }
    rewrite Hp. cbn [bind].
    assert (Hnext : len pre + 1 + 1 = len (pre ++ [prev]) + 1)
      by (rewrite len_app; reflexivity).
    assert (Hv' : values = (pre ++ [prev]) ++ cur :: rest)
      by (subst values; now rewrite <- app_assoc).
    cbn [changes].
    destruct (prev =? 0)%float; cbn [negb].
    + cbn [ret bind]. rewrite Hnext, (IH _ _ _ Hv'). reflexivity.
    + rewrite Hc. cbn [ret bind]. rewrite Hnext, (IH _ _ _ Hv').
      now rewrite <- app_assoc.
Qed.

Lemma monthlyChanges_eq (ts : data.TimeSeries) :
  monthlyChanges ts
  = Some match data.Values ts with
         | [] => []
         | prev :: rest => changes prev rest
         end.
Proof.
  unfold monthlyChanges.
  destruct (data.Values ts) as [|prev rest] eqn:Ev; [reflexivity|].
  destruct (len (prev :: rest) <? 2) eqn:E.
  - destruct rest as [|c rest]; [reflexivity|].
    rewrite !len_cons in E. pose proof (len_nonneg rest). lia.
  - apply (monthlyChanges_loop (prev :: rest) [] prev rest []). reflexivity.
Qed.

Lemma len_changes (prev : float) (rest : list float) :
  len (changes prev rest) <= len rest.
Proof.
  revert prev. induction rest as [|c rest IH]; intros prev; [reflexivity|].
  cbn [changes]. rewrite len_app, len_cons. specialize (IH c).
  destruct (prev =? 0)%float;
    [change (len (@nil float)) with 0 | rewrite len_cons; change (len (@nil float)) with 0];
    lia.
Qed.

(** X9.  [monthlyChanges] never panics and returns, in order, the relative
    change [(cur - prev) / prev] of every two neighbouring values whose
    first is not zero (it is a ratio, not a percentage); a pair whose first
    value is zero is left out, so the result can be shorter than the series
    by more than one. *)
Theorem monthlyChanges_pairwise (ts : data.TimeSeries) :
  monthlyChanges ts
  = Some match data.Values ts with
         | [] => []
         | prev :: rest => changes prev rest
         end
  /\ forall changes,
       monthlyChanges ts = Some changes ->
       len changes <= Z.max 0 (len (data.Values ts) - 1).
Proof.
  split; [apply monthlyChanges_eq|].
  intros c. rewrite monthlyChanges_eq. intros H. apply Some_eq in H. subst c.
  destruct (data.Values ts) as [|prev rest]; [reflexivity|].
  rewrite len_cons. pose proof (len_changes prev rest). lia.
Qed.


Lemma foldM_append_len {A B} (f : list B -> A -> panics (list B)) (l : list A)
  (acc r : list B) :
  (forall acc a r, f acc a = Some r -> len r <= len acc + 1) ->
  foldM f l acc = Some r -> len r <= len acc + len l.
Proof.
  intros Hf. revert acc. induction l as [|a l IH]; intros acc H.
  - simpl in H. apply Some_eq in H. subst r. change (len (@nil A)) with 0. lia.
  - simpl in H. destruct (f acc a) as [acc'|] eqn:E; [|discriminate].
    simpl in H. apply IH in H. apply Hf in E. rewrite len_cons. lia.
Qed.

Lemma len_zstride (lo step hi : Z) :
  len (zstride lo step hi) = Z.max 0 ((hi - lo + step - 1) / step).
Proof. unfold zstride, len. rewrite length_map, length_seq. lia. Qed.

Lemma monthlyReturnsFromPrices_len (series : data.PriceSeries)
  (returns : list float) :
  monthlyReturnsFromPrices series = Some returns ->
  len returns <= Z.max 0 ((len series - 1) / 21).
Proof.
  unfold monthlyReturnsFromPrices.
  destruct (len series <? 21) eqn:E.
  - intros H. apply Some_eq in H. subst returns. change (len (@nil float)) with 0. lia.
  - intros H. apply foldM_append_len in H.
    + rewrite len_zstride in H. change (len (@nil float)) with 0 in H.
      replace (len series - 21 + 21 - 1) with (len series - 1) in H by lia. lia.
    + clear. intros acc i r.
      destruct (index series (i - 21)); [|discriminate]. simpl.
      destruct (index series i); [|discriminate]. simpl.
      destruct (gtb _ _); intros H; apply Some_eq in H; subst r.
      * rewrite len_app, len_cons. change (len (@nil float)) with 0. lia.
      * lia.
Qed.

(** *** CalculateRateSensitivity and CalculateMacroScore *)

Lemma CalculateRateSensitivity_entries (prices : data.SectorPrices)
  (interestRates : data.TimeSeries) :
  wf prices ->
  exists sensitivities,
    CalculateRateSensitivity prices interestRates = Some sensitivities
    /\ wf sensitivities
    /\ forall sector corr,
         lookup sector sensitivities = Some corr ->
         is_nan corr = false
         /\ sector <> "_benchmark"
         /\ 13 <= len (data.Values interestRates)
         /\ exists series,
              lookup sector prices = Some series /\ 253 <= len series.
Proof.
  intros Hwf. unfold CalculateRateSensitivity.
  destruct (len (data.Values interestRates) =? 0) eqn:E0.
  { exists []. split; [reflexivity|]. split; [apply wf_nil|]. discriminate. }
  rewrite monthlyChanges_eq. cbn [bind].
  set (rateChanges := match data.Values interestRates with
                      | [] => []
                      | prev :: rest => changes prev rest
                      end).
  assert (Hrc : len rateChanges <= len (data.Values interestRates) - 1).
  { unfold rateChanges. destruct (data.Values interestRates) as [|p r].
    - discriminate.
    - rewrite len_cons. pose proof (len_changes p r). lia. }
  destruct (foldM_range (V := data.PriceSeries)
              (fun sensitivities '(sector, series) =>
                 if (sector =? "_benchmark")%string || (len series <? 252)%Z
                 then ret sensitivities
                 else
                   sectorReturns <- monthlyReturnsFromPrices series ;;
                   if (len sectorReturns <? 12)%Z || (len rateChanges <? 12)%Z
                   then ret sensitivities
                   else
                     let n := Z.min (len sectorReturns) (len rateChanges) in
                     if (n <? 12)%Z then ret sensitivities
                     else
                       returns <- slice_from sectorReturns (len sectorReturns - n) ;;
                       rates <- slice_from rateChanges (len rateChanges - n) ;;
                       corr <- stat.Correlation returns rates ;;
                       if negb (math_IsNaN corr)
                       then ret (insert sector corr sensitivities)
                       else ret sensitivities)
              (fun sector series =>
                 if (sector =? "_benchmark")%string || (len series <? 252)%Z
                 then None
                 else
                   sectorReturns <- monthlyReturnsFromPrices series ;;
                   if (len sectorReturns <? 12)%Z || (len rateChanges <? 12)%Z
                   then None
                   else
                     let n := Z.min (len sectorReturns) (len rateChanges) in
                     if (n <? 12)%Z then None
                     else
                       returns <- slice_from sectorReturns (len sectorReturns - n) ;;
                       rates <- slice_from rateChanges (len rateChanges - n) ;;
                       corr <- stat.Correlation returns rates ;;
                       if negb (math_IsNaN corr) then Some corr else None)
              prices []) as (sens & Hr & Hw & Hl).
  { intros acc k v _.
    destruct (_ || _); [reflexivity|].
    destruct (monthlyReturnsFromPrices_returns v) as [sr ->]. cbn [bind].
    destruct (_ || _); [reflexivity|]. cbv zeta.
    destruct (_ <? 12); [reflexivity|].
    pose proof (len_nonneg sr). pose proof (len_nonneg rateChanges).
    rewrite !slice_from_returns by lia. cbn [bind].
    destruct (Correlation_returns
                (skipn (Z.to_nat (len sr - Z.min (len sr) (len rateChanges))) sr)
                (skipn (Z.to_nat (len rateChanges - Z.min (len sr) (len rateChanges)))
                       rateChanges)) as [corr ->].
    { rewrite !len_skipn by lia. lia. }
    cbn [bind]. destruct (negb _); reflexivity. }
  exists sens. split; [exact Hr|]. split; [apply Hw, wf_nil|].
  intros sector corr. rewrite (Hl Hwf sector). simpl.
  destruct (lookup sector prices) as [series|]; [|discriminate].
  destruct (sector =? "_benchmark")%string eqn:Eb; [discriminate|]. cbn [orb].
  apply String.eqb_neq in Eb.
  destruct (len series <? 252) eqn:E252; [discriminate|].
  destruct (monthlyReturnsFromPrices series) as [sr|] eqn:Esr; [|discriminate].
  cbn [bind].
  apply monthlyReturnsFromPrices_len in Esr.
  destruct (len sr <? 12) eqn:E1; [discriminate|].
  destruct (len rateChanges <? 12) eqn:E2; [discriminate|]. cbn [orb].
  destruct (Z.min (len sr) (len rateChanges) <? 12); [discriminate|].
  destruct (slice_from sr _); cbn [bind]; [|discriminate].
  destruct (slice_from rateChanges _); cbn [bind]; [|discriminate].
  destruct (stat.Correlation _ _) as [c|]; cbn [bind]; [|discriminate].
  unfold math_IsNaN.
  destruct (is_nan c) eqn:En; cbn [negb]; [discriminate|].
  intros H. apply Some_eq in H. subst c.
  split; [exact En|]. split; [exact Eb|]. split; [lia|].
  exists series. split; [reflexivity|].
  assert (12 <= (len series - 1) / 21) by lia.
  assert (21 * ((len series - 1) / 21) <= len series - 1)
    by (apply Z.mul_div_le; lia).
  lia.
Qed.



(** X11.  A configured sector gets the macro score 50 when the series
    "treasury_10y" is missing or has fewer than 13 values, or when the
    sector's price series is missing or has fewer than 253 bars. *)
Theorem macro_neutral_without_history (prices : data.SectorPrices)
  (macroData : data.MacroData) (sector : string) :
  wf prices ->
  In sector config.SectorNames ->
  match lookup "treasury_10y" macroData with
  | Some interestRates =>
      len (data.Values interestRates) < 13
      \/ match lookup sector prices with
         | Some series => len series < 253
         | None => True
         end
  | None => True
  end ->
  exists macroScores,
    CalculateMacroScore prices macroData = Some macroScores
    /\ lookup sector macroScores = Some 50%float.
Proof.
  intros Hwf Hin Hmiss. unfold CalculateMacroScore.
  destruct (lookup "treasury_10y" macroData) as [rates|].
  2: { eexists. split; [reflexivity | now apply defaultScores_covers]. }
  destruct (CalculateRateSensitivity_entries prices rates Hwf)
    as (sens & -> & _ & Hl).
  cbn [bind].
  assert (Hnone : lookup sector sens = None).
  { destruct (lookup sector sens) as [corr|] eqn:E; [|reflexivity].
    destruct (Hl sector corr E) as (_ & _ & H13 & series & Hs & H253).
    rewrite Hs in Hmiss. lia. }
  destruct (fill_or_default sens sector Hin Hnone) as [H _].
  destruct (len sens =? 0); eexists; (split; [reflexivity | exact H]).
Qed.

Lemma macro_neutral_without_history_witness :
  wf quarter_prices
  /\ In "Energy" config.SectorNames
  /\ exists macroScores,
       CalculateMacroScore quarter_prices three_rates = Some macroScores
       /\ lookup "Energy" macroScores = Some 50%float.
Proof.
  assert (Hw : wf quarter_prices) by wf_concrete.
  assert (Hin : In "Energy" config.SectorNames) by (cbn; tauto).
  split; [exact Hw|]. split; [exact Hin|].
  apply (macro_neutral_without_history quarter_prices three_rates "Energy" Hw Hin).
  left. vm_compute. reflexivity.
Defined.

End SignalFacts.


(** ** The records of the engine and the summary report *)

Module EngineFacts.
Import Examples.
Import FloatFacts GoMapFacts NormalizerFacts PanicFacts SortFacts ScoringFacts ZeroFacts
       Binary64Facts ErrorFacts RangeFacts ComponentFacts.
Import SignalFacts.
Local Open Scope Z_scope.

(** Every returned record is the record [sector_score] builds for a
    configured sector from the maps of the calculators, with its rank set. *)
Lemma CalculateScores_records (s : SectorScorer) (allData : data.AllData.t)
  (scores : list SectorScore) (r : SectorScore) :
  CalculateScores s allData = Some scores ->
  In r scores ->
  exists ms gs mcs pr rs eg sector z,
    CalculateMomentumScore (data.AllData.SectorPrices allData) = Some ms
    /\ CalculateGrowthScore (data.AllData.EmploymentData allData) = Some gs
    /\ CalculateMacroScore (data.AllData.SectorPrices allData)
                           (data.AllData.MacroData allData) = Some mcs
    /\ CalculatePriceReturns (data.AllData.SectorPrices allData) = Some pr
    /\ CalculateRelativeStrength (data.AllData.SectorPrices allData) 12 = Some rs
    /\ CalculateEmploymentGrowth (data.AllData.EmploymentData allData) = Some eg
    /\ In sector config.SectorNames
    /\ r = set_Rank z
             (sector_score s allData ms
                (CalculateValuationScore [] (data.AllData.SectorInfo allData))
                gs (CalculateInnovationScore (data.AllData.RDData allData))
                mcs pr rs eg sector).
Proof.
  unfold CalculateScores.
  destruct (CalculateMomentumScore _) as [ms|]; [|discriminate].
  destruct (CalculateGrowthScore _) as [gs|]; [|discriminate].
  destruct (CalculateMacroScore _ _) as [mcs|]; [|discriminate].
  destruct (CalculatePriceReturns _) as [pr|]; [|discriminate].
  destruct (CalculateRelativeStrength _ _) as [rs|]; [|discriminate].
  destruct (CalculateEmploymentGrowth _) as [eg|]; [|discriminate].
  cbv beta iota delta [bind ret].
  set (mk := sector_score s allData ms _ gs _ mcs pr rs eg).
  intros Hs Hin. apply Some_eq in Hs. subst scores.
  apply In_assign_ranks in Hin. destruct Hin as (r0 & z & Hin & ->).
  apply (Permutation_in _ (insertionSort_perm by_opportunity _)) in Hin.
  change (In r0 (map mk config.SectorNames)) in Hin.
  apply in_map_iff in Hin. destruct Hin as (sector & <- & Hsec).
  exists ms, gs, mcs, pr, rs, eg, sector, z. repeat split; assumption.
Qed.


Lemma covered_entry (m : gomap float) (sector : string) :
  (exists s, lookup sector m = Some s) ->
  lookup sector m = Some (getOrDefault m sector 50%float).
Proof. intros [s Hs]. unfold getOrDefault. now rewrite Hs. Qed.

(** X12.  Every record [CalculateScores] returns belongs to a configured
    sector and carries that sector's own entries: its five component scores
    are the entries of the five calculators' maps (the default 50 of
    [getOrDefault] is never used, since each map covers every configured
    sector), and its raw metrics are the sector's entries of the price
    returns, of the 12-month relative strength, of the employment growth,
    of the sector info and of the R&D data, wherever the sort has moved the
    record. *)
Theorem records_carry_their_sector (s : SectorScorer) (allData : data.AllData.t)
  (scores : list SectorScore) (r : SectorScore) :
  CalculateScores s allData = Some scores ->
  In r scores ->
  In (Sector r) config.SectorNames
  /\ (exists momentum growth macro,
        CalculateMomentumScore (data.AllData.SectorPrices allData) = Some momentum
        /\ CalculateGrowthScore (data.AllData.EmploymentData allData) = Some growth
        /\ CalculateMacroScore (data.AllData.SectorPrices allData)
                               (data.AllData.MacroData allData) = Some macro
        /\ lookup (Sector r) momentum = Some (MomentumScore r)
        /\ lookup (Sector r)
             (CalculateValuationScore [] (data.AllData.SectorInfo allData))
           = Some (ValuationScore r)
        /\ lookup (Sector r) growth = Some (GrowthScore r)
        /\ lookup (Sector r)
             (CalculateInnovationScore (data.AllData.RDData allData))
           = Some (InnovationScore r)
        /\ lookup (Sector r) macro = Some (MacroScore r))
  /\ (exists priceReturns relStrength employmentGrowth,
        CalculatePriceReturns (data.AllData.SectorPrices allData)
        = Some priceReturns
        /\ CalculateRelativeStrength (data.AllData.SectorPrices allData) 12
           = Some relStrength
        /\ CalculateEmploymentGrowth (data.AllData.EmploymentData allData)
           = Some employmentGrowth
        /\ PriceReturn3Mo r
           = (returns <- lookup (Sector r) priceReturns ;; lookup "3mo" returns)
        /\ PriceReturn6Mo r
           = (returns <- lookup (Sector r) priceReturns ;; lookup "6mo" returns)
        /\ PriceReturn12Mo r
           = (returns <- lookup (Sector r) priceReturns ;; lookup "12mo" returns)
        /\ RelativeStrength r = lookup (Sector r) relStrength
        /\ EmploymentGrowth r = lookup (Sector r) employmentGrowth)
  /\ ForwardPE r
     = (info <- lookup (Sector r) (data.AllData.SectorInfo allData) ;;
        data.ForwardPE info)
  /\ RDIntensity r = lookup (Sector r) (data.AllData.RDData allData).
Proof.
  intros Hs Hin.
  destruct (CalculateScores_records s allData scores r Hs Hin)
    as (ms & gs & mcs & pr & rs & eg & sector & z
        & Hms & Hgs & Hmcs & Hpr & Hrs & Heg & Hsec & ->).
  cbn [set_Rank sector_score Sector MomentumScore ValuationScore GrowthScore
       InnovationScore MacroScore PriceReturn3Mo PriceReturn6Mo PriceReturn12Mo
       RelativeStrength ForwardPE EmploymentGrowth RDIntensity].
  destruct (calculators_cover_every_sector_lemma
              (data.AllData.SectorPrices allData) []
              (data.AllData.SectorInfo allData)
              (data.AllData.EmploymentData allData)
              (data.AllData.RDData allData)
              (data.AllData.MacroData allData))
    as (ms' & gs' & mcs' & Hms' & Hgs' & Hmcs' & _ & Hcov).
  assert (ms' = ms) by congruence. assert (gs' = gs) by congruence.
  assert (mcs' = mcs) by congruence. subst ms' gs' mcs'.
  assert (Hc : forall scores0,
             In scores0 [ms; CalculateValuationScore []
                               (data.AllData.SectorInfo allData);
                         gs; CalculateInnovationScore
                               (data.AllData.RDData allData); mcs] ->
             lookup sector scores0 = Some (getOrDefault scores0 sector 50%float)).
  { intros m Hm. apply covered_entry.
    destruct (Hcov sector m Hsec Hm) as (x & Hx & _). eauto. }
  split; [exact Hsec|]. split.
  { exists ms, gs, mcs. repeat split; try assumption; apply Hc; simpl; auto 10. }
  split.
  { exists pr, rs, eg. repeat split; try assumption;
      destruct (lookup sector pr); reflexivity. }
  split; [|reflexivity].
  destruct (lookup sector (data.AllData.SectorInfo allData)); reflexivity.
Qed.

Lemma records_carry_their_sector_witness :
  exists scores r,
    CalculateScores (NewSectorScorer None) single_rd_snapshot = Some scores
    /\ nth_error scores 1 = Some r
    /\ Sector r = "Financials"
    /\ In (Sector r) config.SectorNames
    /\ ForwardPE r
       = (info <- lookup (Sector r) (data.AllData.SectorInfo single_rd_snapshot) ;;
          data.ForwardPE info)
    /\ RDIntensity r
       = lookup (Sector r) (data.AllData.RDData single_rd_snapshot).
Proof.
  do 2 eexists. split; [vm_compute; reflexivity|]. split; [reflexivity|].
  split; [reflexivity|].
  edestruct (records_carry_their_sector (NewSectorScorer None) single_rd_snapshot)
    as (H1 & _ & _ & H4 & H5).
  - vm_compute. reflexivity.
  - right. left. reflexivity.
  - split; [exact H1|]. split; [exact H4 | exact H5].
Defined.


(** *** GetSummaryReport *)

(** A loop [for i := lo; i < hi; i++ { acc = append(acc, g(scores[i])) }]
    over the part [mid] of [scores = pre ++ mid ++ post]. *)
Lemma index_loop {A B} (g : A -> B) (body : list B -> Z -> panics (list B))
  (scores pre mid post : list A) (acc : list B) :
  (forall acc i, 0 <= i ->
     body acc i = (sc <- index scores i ;; ret (acc ++ [g sc]))) ->
  scores = pre ++ mid ++ post ->
  foldM body (zrange (len pre) (len pre + len mid)) acc
  = Some (acc ++ map g mid).
Proof.
  intros Hbody. revert pre acc. induction mid as [|x mid IH]; intros pre acc Hs.
  - rewrite zrange_nil by (change (len (@nil A)) with 0; lia).
    simpl. now rewrite app_nil_r.
  - pose proof (len_nonneg pre). pose proof (len_nonneg mid).
    rewrite zrange_cons by (rewrite len_cons; lia).
    cbn [foldM]. rewrite Hbody by lia.
    assert (Hx : index scores (len pre) = Some x)
      by (subst scores; apply index_app_mid).
    rewrite Hx. cbn [bind ret].
    replace (len pre + 1) with (len (pre ++ [x])) by (now rewrite len_app).
    replace (len pre + len (x :: mid)) with (len (pre ++ [x]) + len mid)
      by (rewrite len_app, !len_cons; change (len (@nil A)) with 0; lia).
    rewrite IH by (subst scores; now rewrite <- app_assoc).
    cbn [map]. now rewrite <- app_assoc.
Qed.

(** The iterations of a loop at negative indices that its body skips. *)
Lemma skip_negative {B} (body : B -> Z -> panics B) (lo hi : Z) (acc : B) :
  (forall acc i, i < 0 -> body acc i = ret acc) ->
  lo <= 0 <= hi ->
  foldM body (zrange lo hi) acc = foldM body (zrange 0 hi) acc.
Proof.
  intros Hbody Hlo.
  remember (Z.to_nat (- lo)) as n eqn:Hn. revert lo Hlo Hn.
  induction n as [|n IH]; intros lo Hlo Hn.
  - replace lo with 0 by lia. reflexivity.
  - destruct (Z.eq_dec hi lo) as [->|Hne]; [replace lo with 0 by lia; reflexivity|].
    rewrite zrange_cons by lia. cbn [foldM].
    rewrite Hbody by lia. cbn [bind ret]. apply IH; lia.
Qed.

Lemma len_firstn_skipn {A} (l : list A) (n : nat) :
  len (firstn n l) = Z.min (Z.of_nat n) (len l)
  /\ len (skipn n l) = Z.max 0 (len l - Z.of_nat n).
Proof. unfold len. rewrite length_firstn, length_skipn. lia. Qed.

Lemma GetSummaryReport_eq (s : SectorScorer) (now : string)
  (top : SectorScore) (rest : list SectorScore) :
  let scores := top :: rest in
  GetSummaryReport s now scores
  = Some
      {| SummaryReport.Timestamp := now;
         SummaryReport.TopSectors := map rank_of (firstn 3 scores);
         SummaryReport.BottomSectors :=
           map rank_of (skipn (List.length scores - 3) scores);
         SummaryReport.ScoreDistribution :=
           let '(sum, maxScore, minScore) := distribution scores in
           {| ScoreDistribution.Average :=
                (math_Round (sum / of_int (len scores) * 100) / 100)%float;
              ScoreDistribution.Max := (math_Round (maxScore * 100) / 100)%float;
              ScoreDistribution.Min := (math_Round (minScore * 100) / 100)%float;
              ScoreDistribution.Spread :=
                (math_Round ((maxScore - minScore) * 100) / 100)%float |};
         SummaryReport.TopSectorDrivers := drivers_of top;
         SummaryReport.WeightsUsed := Weights s |}.
Proof.
  intros scores. unfold GetSummaryReport.
  assert (Hlen : len scores = len rest + 1) by apply len_cons.
  pose proof (len_nonneg rest) as Hrest.
  destruct (len scores =? 0) eqn:E0; [lia|].
  assert (Htop :
    foldM (fun topSectors i =>
             sc <- index scores i ;;
             ret (topSectors ++ [rank_of sc]))
          (zrange 0 (Z.min 3 (len scores))) []
    = Some (map rank_of (firstn 3 scores))).
  { destruct (len_firstn_skipn scores 3) as [Hf _].
    rewrite <- (app_nil_l (map rank_of (firstn 3 scores))).
    replace (Z.min 3 (len scores))
      with (len (@nil SectorScore) + len (firstn 3 scores))
      by (change (len (@nil SectorScore)) with 0; lia).
    change 0 with (len (@nil SectorScore)) at 1.
    apply (index_loop rank_of _ scores [] (firstn 3 scores) (skipn 3 scores) []).
    - reflexivity.
    - cbn [app]. now rewrite firstn_skipn. }
  rewrite Htop.
  cbn [bind app].
  assert (Hbottom :
    foldM (fun bottomSectors i =>
             if i >=? 0 then
               sc <- index scores i ;;
               ret (bottomSectors ++ [rank_of sc])
             else ret bottomSectors)
          (zrange (len scores - 3) (len scores)) []
    = Some (map rank_of (skipn (List.length scores - 3) scores))).
  { set (body := fun bottomSectors i =>
                   if i >=? 0 then
                     sc <- index scores i ;;
                     ret (bottomSectors ++ [rank_of sc])
                   else ret bottomSectors).
    assert (Hb : forall acc i, 0 <= i ->
                 body acc i = (sc <- index scores i ;; ret (acc ++ [rank_of sc]))).
    { intros acc i Hi. unfold body. rewrite Z.geb_leb.
      destruct (0 <=? i) eqn:E; [reflexivity | lia]. }
    assert (Hneg : forall acc i, i < 0 -> body acc i = ret acc).
    { intros acc i Hi. unfold body. rewrite Z.geb_leb.
      destruct (0 <=? i) eqn:E; [lia | reflexivity]. }
    destruct (Z_lt_le_dec (len scores) 3) as [Hlt|Hge].
    - rewrite skip_negative by (assumption || lia).
      replace (List.length scores - 3)%nat with 0%nat by (unfold len in *; lia).
      cbn [skipn].
      rewrite <- (app_nil_l (map rank_of scores)).
      apply (index_loop rank_of body scores [] scores [] [] Hb).
      now rewrite app_nil_r.
    - set (k := (List.length scores - 3)%nat).
      destruct (len_firstn_skipn scores k) as [Hf Hsk].
      assert (Hk : Z.of_nat k = len scores - 3) by (unfold k, len in *; lia).
      rewrite <- (app_nil_l (map rank_of (skipn k scores))).
      assert (E1 : len scores - 3 = len (firstn k scores)) by lia.
      assert (E2 : len scores = len (firstn k scores) + len (skipn k scores))
        by lia.
      rewrite E1, E2.
      apply (index_loop rank_of body scores (firstn k scores) (skipn k scores) [] []
               Hb).
      now rewrite app_nil_r, firstn_skipn. }
  rewrite Hbottom. cbn [bind].
  destruct (distribution scores) as [[sum maxScore] minScore].
  reflexivity.
Qed.


(** X13.  [GetSummaryReport] never panics.  The top sectors are the first
    three records of the list it is given and the bottom sectors the last
    three, in list order, so that a list of fewer than six records has
    records in both, and one of fewer than three has all of them in both;
    the drivers are those of the first record, and the weights are the
    scorer's.  Of an empty list only the time stamp is reported. *)
Theorem summary_top_and_bottom (s : SectorScorer) (now : string)
  (scores : list SectorScore) :
  exists report,
    GetSummaryReport s now scores = Some report
    /\ SummaryReport.Timestamp report = now
    /\ SummaryReport.TopSectors report = map rank_of (firstn 3 scores)
    /\ SummaryReport.BottomSectors report
       = map rank_of (skipn (List.length scores - 3) scores)
    /\ SummaryReport.TopSectorDrivers report
       = match scores with
         | top :: _ => drivers_of top
         | [] => []
         end
    /\ SummaryReport.WeightsUsed report
       = match scores with
         | _ :: _ => Weights s
         | [] => []
         end.
Proof.
  destruct scores as [|top rest].
  - eexists. split; [reflexivity|]. repeat split.
  - rewrite GetSummaryReport_eq. eexists. split; [reflexivity|]. repeat split.
Qed.

Lemma leb_not_nan (x y : float) :
  (x <=? y)%float = true -> is_nan x = false /\ is_nan y = false.
Proof.
  rewrite leb_spec, !is_nan_false.
  destruct (Prim2SF x), (Prim2SF y); simpl; try discriminate;
    intros _; split; discriminate.
Qed.

Lemma distribution_bounds (scores : list SectorScore) :
  bounds_seen (snd (fst (distribution scores))) (snd (distribution scores)) scores.
Proof.
  unfold distribution.
  assert (H0 : bounds_seen 0%float 100%float []).
  { repeat split; auto; try reflexivity; intros r []. }
  revert H0.
  change (@nil SectorScore) with (rev (@nil SectorScore)) at 1.
  assert (Hgen : forall (l seen : list SectorScore) (sum mx mn : float),
            bounds_seen mx mn (rev seen) ->
            let st := fold_left
                        (fun '(sum, maxScore, minScore) score =>
                           ((sum + OpportunityScore score)%float,
                            if gtb (OpportunityScore score) maxScore
                            then OpportunityScore score else maxScore,
                            if (OpportunityScore score <? minScore)%float
                            then OpportunityScore score else minScore))
                        l (sum, mx, mn) in
            bounds_seen (snd (fst st)) (snd st) (rev seen ++ l)).
  { induction l as [|x l IH]; intros seen sum mx mn Hb; cbv zeta.
    - cbn [fold_left fst snd]. now rewrite app_nil_r.
    - cbn [fold_left].
      replace (rev seen ++ x :: l) with (rev (x :: seen) ++ l)
        by (cbn [rev]; now rewrite <- app_assoc).
      apply IH. cbn [rev].
      destruct Hb as [(Hmx & Hmx0 & Hmxall) (Hmn & Hmn0 & Hmnall)].
      set (o := OpportunityScore x).
      split.
      + unfold gtb. destruct (mx <? o)%float eqn:E.
        * split; [right; exists x; split; [apply in_or_app; right; now left | reflexivity]|].
          split; [apply leb_trans with mx; [exact Hmx0 | now apply ltb_leb]|].
          intros r Hr. apply in_app_or in Hr. destruct Hr as [Hr|[<-|[]]].
          -- apply ltb_negtrans with mx.
             ++ now apply leb_not_nan in Hmx0.
             ++ now apply ltb_asym.
             ++ now apply Hmxall.
          -- apply ltb_irrefl.
        * split.
          { destruct Hmx as [->|(r & Hr & ->)]; [now left|].
            right. exists r. split; [apply in_or_app; now left | reflexivity]. }
          split; [exact Hmx0|].
          intros r Hr. apply in_app_or in Hr. destruct Hr as [Hr|[<-|[]]];
            [now apply Hmxall | exact E].
      + destruct (o <? mn)%float eqn:E.
        * split; [right; exists x; split; [apply in_or_app; right; now left | reflexivity]|].
          split; [apply leb_trans with mn; [now apply ltb_leb | exact Hmn0]|].
          intros r Hr. apply in_app_or in Hr. destruct Hr as [Hr|[<-|[]]].
          -- apply ltb_negtrans with mn.
             ++ now apply leb_not_nan in Hmn0.
             ++ now apply Hmnall.
             ++ now apply ltb_asym.
          -- apply ltb_irrefl.
        * split.
          { destruct Hmn as [->|(r & Hr & ->)]; [now left|].
            right. exists r. split; [apply in_or_app; now left | reflexivity]. }
          split; [exact Hmn0|].
          intros r Hr. apply in_app_or in Hr. destruct Hr as [Hr|[<-|[]]];
            [now apply Hmnall | exact E]. }
  intros H0. apply (Hgen scores [] 0%float 0%float 100%float H0).
Qed.

(** X14.  The maximum and the minimum [GetSummaryReport] reports start from
    0 and from 100, not from the first score: the reported [Max] is the
    rounded value of a number that is 0 or one of the scores, is at least 0
    and is exceeded by no score, and the reported [Min] that of a number
    that is 100 or one of the scores, is at most 100 and has no score below
    it; [Spread] is their rounded difference.  A NaN score changes
    neither. *)
Theorem summary_extremes_start_from_0_and_100 (s : SectorScorer) (now : string)
  (top : SectorScore) (rest : list SectorScore) :
  let scores := top :: rest in
  exists report maxScore minScore,
    GetSummaryReport s now scores = Some report
    /\ ScoreDistribution.Max (SummaryReport.ScoreDistribution report)
       = (math_Round (maxScore * 100) / 100)%float
    /\ ScoreDistribution.Min (SummaryReport.ScoreDistribution report)
       = (math_Round (minScore * 100) / 100)%float
    /\ ScoreDistribution.Spread (SummaryReport.ScoreDistribution report)
       = (math_Round ((maxScore - minScore) * 100) / 100)%float
    /\ (maxScore = 0%float \/ exists r, In r scores /\ maxScore = OpportunityScore r)
    /\ (0 <=? maxScore)%float = true
    /\ (forall r, In r scores -> (maxScore <? OpportunityScore r)%float = false)
    /\ (minScore = 100%float \/ exists r, In r scores /\ minScore = OpportunityScore r)
    /\ (minScore <=? 100)%float = true
    /\ (forall r, In r scores -> (OpportunityScore r <? minScore)%float = false).
Proof.
  intros scores. unfold scores. rewrite GetSummaryReport_eq.
  pose proof (distribution_bounds (top :: rest)) as Hb.
  destruct (distribution (top :: rest)) as [[sum mx] mn].
  cbn [fst snd] in Hb. destruct Hb as [(H1 & H2 & H3) (H4 & H5 & H6)].
  eexists. exists mx, mn. split; [reflexivity|].
  cbn [SummaryReport.ScoreDistribution ScoreDistribution.Max ScoreDistribution.Min
       ScoreDistribution.Spread].
  repeat split; assumption.
Qed.

(** X15.  [RunAnalysis] never panics, whatever the data and the weights.
    It returns the scores of [CalculateScores] for the scorer
    [NewSectorScorer] builds, and a summary whose three top sectors are the
    records of rank 1, 2, 3 and whose three bottom sectors those of rank 9,
    10, 11, with the scorer's effective weights. *)
Theorem RunAnalysis_summary (now : string) (allData : data.AllData.t)
  (weights : option (gomap float)) :
  exists scores summary,
    RunAnalysis now allData weights = Some (scores, summary)
    /\ CalculateScores (NewSectorScorer weights) allData = Some scores
    /\ SummaryReport.TopSectors summary = map rank_of (firstn 3 scores)
    /\ map SectorRank.Rank (SummaryReport.TopSectors summary) = [1; 2; 3]
    /\ SummaryReport.BottomSectors summary = map rank_of (skipn 8 scores)
    /\ map SectorRank.Rank (SummaryReport.BottomSectors summary) = [9; 10; 11]
    /\ SummaryReport.WeightsUsed summary = Weights (NewSectorScorer weights).
Proof.
  unfold RunAnalysis. cbv zeta.
  destruct (CalculateScores_shape (NewSectorScorer weights) allData)
    as (ms & gs & mcs & pr & rs & eg & Hs).
  pose proof (ranks_in_order _ _ _ Hs) as Hranks.
  rewrite Hs. cbn [bind].
  set (scores := assign_ranks _) in *.
  destruct scores as [|r1 [|r2 [|r3 [|r4 [|r5 [|r6 [|r7 [|r8 [|r9 [|r10 [|r11
                      [|r12 rest]]]]]]]]]]]]; try discriminate Hranks.
  rewrite GetSummaryReport_eq. cbn [bind ret].
  eexists. eexists. split; [reflexivity|]. split; [reflexivity|].
  cbn [SummaryReport.TopSectors SummaryReport.BottomSectors
       SummaryReport.WeightsUsed firstn skipn map List.length Nat.sub
       rank_of SectorRank.Rank].
  cbn [map] in Hranks.
  injection Hranks as E1 E2 E3 E4 E5 E6 E7 E8 E9 E10 E11.
  rewrite E1, E2, E3, E9, E10, E11. repeat split.
Qed.

End EngineFacts.


(** ** The fetchers: sorting a series, building a price series *)

Module FetcherFacts.
Import Examples.
Import FloatFacts GoMapFacts NormalizerFacts PanicFacts SortFacts ScoringFacts ZeroFacts
       Binary64Facts ErrorFacts RangeFacts ComponentFacts.
Import SignalFacts EngineFacts.
Local Open Scope Z_scope.

Lemma assign_mid {A} (pre : list A) (x v : A) (post : list A) :
  assign (pre ++ x :: post) (len pre) v = Some (pre ++ v :: post).
Proof.
  unfold assign. pose proof (len_nonneg pre).
  destruct (len pre <? 0) eqn:E1; [lia|].
  destruct (len (pre ++ x :: post) <=? len pre) eqn:E2.
  { rewrite len_app, len_cons in E2. pose proof (len_nonneg post). lia. }
  cbn [orb]. unfold len. rewrite Nat2Z.id.
  rewrite firstn_app, firstn_all, Nat.sub_diag. cbn [firstn].
  rewrite app_nil_r.
  replace (S (List.length pre)) with (List.length pre + 1)%nat by lia.
  rewrite skipn_app, skipn_all2 by lia.
  replace (List.length pre + 1 - List.length pre)%nat with 1%nat by lia.
  reflexivity.
Qed.

Lemma index_app_next {A} (pre : list A) (x y : A) (post : list A) :
  index (pre ++ x :: y :: post) (len pre + 1) = Some y.
Proof.
  replace (pre ++ x :: y :: post) with ((pre ++ [x]) ++ y :: post)
    by (now rewrite <- app_assoc).
  replace (len pre + 1) with (len (pre ++ [x])) by (now rewrite len_app).
  apply index_app_mid.
Qed.

Lemma swap_adjacent {A} (pre : list A) (x y : A) (post : list A) :
  swap (pre ++ x :: y :: post) (len pre) (len pre + 1)
  = Some (pre ++ y :: x :: post).
Proof.
  unfold swap. rewrite index_app_next, index_app_mid. cbn [bind].
  rewrite assign_mid. cbn [bind].
  replace (pre ++ y :: y :: post) with ((pre ++ [y]) ++ y :: post)
    by (now rewrite <- app_assoc).
  replace (len pre + 1) with (len (pre ++ [y])) by (now rewrite len_app).
  rewrite assign_mid. now rewrite <- app_assoc.
Qed.


Lemma len_map {A B} (f : A -> B) (l : list A) : len (map f l) = len l.
Proof. unfold len. now rewrite length_map. Qed.

(** One comparison of the bubble sort, on the observations [x], [y] at the
    places [j] and [j + 1]. *)
Lemma inner_step (pre : list (Z * float)) (x y : Z * float)
  (post : list (Z * float)) :
  (let ts := series_of (pre ++ x :: y :: post) in
   let j := len pre in
   a <- index (data.Dates ts) j ;;
   b <- index (data.Dates ts) (j + 1) ;;
   if (b <? a)%Z then
     dates <- swap (data.Dates ts) j (j + 1) ;;
     values <- swap (data.Values ts) j (j + 1) ;;
     ret {| data.Dates := dates; data.Values := values |}
   else ret ts)
  = Some (series_of (if (fst y <? fst x)%Z
                     then pre ++ y :: x :: post
                     else pre ++ x :: y :: post)).
Proof.
  cbv zeta. unfold series_of. cbn [data.Dates data.Values].
  rewrite !map_app. cbn [map].
  assert (Hj : len pre = len (map fst pre)) by (now rewrite len_map).
  assert (Hj' : len pre = len (map snd pre)) by (now rewrite len_map).
  rewrite Hj.
  rewrite index_app_mid, index_app_next. cbn [bind].
  destruct (fst y <? fst x); [|rewrite !map_app; reflexivity].
  rewrite swap_adjacent. cbn [bind].
  rewrite <- Hj, Hj'.
  rewrite swap_adjacent. cbn [bind ret].
  rewrite !map_app. reflexivity.
Qed.

(** The inner loop of [sortTimeSeries] is a bubble pass. *)
Lemma inner_loop (body : data.TimeSeries -> Z -> panics data.TimeSeries)
  (l pre : list (Z * float)) (x : Z * float) (post : list (Z * float)) :
  (forall ts j,
     body ts j
     = (a <- index (data.Dates ts) j ;;
        b <- index (data.Dates ts) (j + 1) ;;
        if (b <? a)%Z then
          dates <- swap (data.Dates ts) j (j + 1) ;;
          values <- swap (data.Values ts) j (j + 1) ;;
          ret {| data.Dates := dates; data.Values := values |}
        else ret ts)) ->
  foldM body (zrange (len pre) (len pre + len l))
        (series_of (pre ++ x :: l ++ post))
  = Some (series_of (pre ++ bubble x l ++ post)).
Proof.
  intros Hbody. revert pre x. induction l as [|y l IH]; intros pre x.
  - rewrite zrange_nil by (change (len (@nil (Z * float))) with 0; lia).
    reflexivity.
  - pose proof (len_nonneg l).
    rewrite zrange_cons by (rewrite len_cons; lia).
    cbn [foldM]. rewrite Hbody.
    cbn [app]. pose proof (inner_step pre x y (l ++ post)) as Hs.
    cbv zeta in Hs. rewrite Hs. clear Hs. cbn [bind bubble].
    replace (len pre + 1) with (len (pre ++ [x])) by (now rewrite len_app).
    replace (len pre + len (y :: l)) with (len (pre ++ [x]) + len l)
      by (rewrite len_app, !len_cons; change (len (@nil (Z * float))) with 0; lia).
    destruct (fst y <? fst x).
    + replace (len (pre ++ [x])) with (len (pre ++ [y]))
        by (rewrite !len_app; reflexivity).
      replace (pre ++ y :: x :: l ++ post) with ((pre ++ [y]) ++ x :: l ++ post)
        by (now rewrite <- app_assoc).
      rewrite IH. now rewrite <- app_assoc.
    + replace (pre ++ x :: y :: l ++ post) with ((pre ++ [x]) ++ y :: l ++ post)
        by (now rewrite <- app_assoc).
      rewrite IH. now rewrite <- app_assoc.
Qed.

Lemma bubble_perm (x : Z * float) (l : list (Z * float)) :
  Permutation (bubble x l) (x :: l).
Proof.
  revert x. induction l as [|y l IH]; intros x; cbn [bubble]; [reflexivity|].
  destruct (fst y <? fst x).
  - rewrite IH. apply perm_swap.
  - now rewrite IH.
Qed.

(** A bubble pass ends with an observation no earlier than any other. *)
Lemma bubble_last (x : Z * float) (l : list (Z * float)) :
  exists init m,
    bubble x l = init ++ [m]
    /\ List.length init = List.length l
    /\ forall e, In e (x :: l) -> fst e <= fst m.
Proof.
  revert x. induction l as [|y l IH]; intros x; cbn [bubble].
  - exists [], x. split; [reflexivity|]. split; [reflexivity|].
    intros e [<-|[]]. lia.
  - destruct (fst y <? fst x) eqn:E.
    + destruct (IH x) as (init & m & -> & Hlen & Hm).
      exists (y :: init), m. split; [reflexivity|].
      split; [simpl; now rewrite Hlen|].
      intros e [<-|[<-|He]].
      * apply Hm. now left.
      * specialize (Hm x (or_introl eq_refl)). lia.
      * apply Hm. now right.
    + destruct (IH y) as (init & m & -> & Hlen & Hm).
      exists (x :: init), m. split; [reflexivity|].
      split; [simpl; now rewrite Hlen|].
      intros e [<-|[<-|He]].
      * specialize (Hm y (or_introl eq_refl)). lia.
      * apply Hm. now left.
      * apply Hm. now right.
Qed.


(** The outer loop of [sortTimeSeries] with [rem] passes to go: the
    observations [back] are in their final places. *)
Lemma outer_loop (n : Z) (rem : nat) :
  forall front back : list (Z * float),
  len (front ++ back) = n ->
  len front = Z.of_nat rem + 1 ->
  StronglySorted Z.le (map fst back) ->
  (forall f b, In f front -> In b back -> fst f <= fst b) ->
  exists zs,
    foldM (fun ts i => foldM fetchers.bubble_step (zrange 0 (n - i - 1)) ts)
          (zrange (n - 1 - Z.of_nat rem) (n - 1))
          (series_of (front ++ back))
    = Some (series_of zs)
    /\ Permutation zs (front ++ back)
    /\ StronglySorted Z.le (map fst zs).
Proof.
  induction rem as [|rem IH]; intros front back Hn Hfront Hsorted Hle.
  - rewrite zrange_nil by lia. cbn [foldM ret].
    exists (front ++ back). split; [reflexivity|]. split; [reflexivity|].
    destruct front as [|f [|f' front]].
    + change (len (@nil (Z * float))) with 0 in Hfront. lia.
    + cbn [app map]. constructor; [exact Hsorted|].
      apply Forall_forall. intros d Hd. apply in_map_iff in Hd.
      destruct Hd as (b & <- & Hb). apply Hle; [now left | exact Hb].
    + rewrite !len_cons in Hfront. pose proof (len_nonneg front). lia.
  - destruct front as [|x l].
    { change (len (@nil (Z * float))) with 0 in Hfront. lia. }
    rewrite len_cons in Hfront.
    rewrite zrange_cons by lia. cbn [foldM].
    replace (n - (n - 1 - Z.of_nat (S rem)) - 1) with (len (@nil (Z * float)) + len l)
      by (change (len (@nil (Z * float))) with 0; lia).
    change 0 with (len (@nil (Z * float))) at 1.
    change ((x :: l) ++ back) with ([] ++ x :: l ++ back).
    rewrite (inner_loop fetchers.bubble_step l [] x back) by reflexivity.
    cbn [bind app].
    destruct (bubble_last x l) as (init & m & Hb & Hlen & Hm).
    pose proof (bubble_perm x l) as Hperm. rewrite Hb in Hperm.
    rewrite Hb, <- app_assoc. cbn [app].
    assert (Hm_in : In m (x :: l)).
    { apply (Permutation_in _ Hperm). apply in_or_app. right. now left. }
    assert (Hinit_in : forall e, In e init -> In e (x :: l)).
    { intros e He. apply (Permutation_in _ Hperm). apply in_or_app. now left. }
    destruct (IH init (m :: back)) as (zs & Hzs & Hp & Hs).
    + rewrite <- Hn. rewrite !len_app, !len_cons.
      unfold len. rewrite Hlen. lia.
    + unfold len in *. rewrite Hlen. lia.
    + cbn [map]. constructor; [exact Hsorted|].
      apply Forall_forall. intros d Hd. apply in_map_iff in Hd.
      destruct Hd as (b & <- & Hb'). now apply Hle.
    + intros f b Hf [<-|Hb'].
      * apply Hm. now apply Hinit_in.
      * apply Hle; [now apply Hinit_in | exact Hb'].
    + exists zs.
      replace (n - 1 - Z.of_nat (S rem) + 1) with (n - 1 - Z.of_nat rem) by lia.
      split; [exact Hzs|]. split; [|exact Hs].
      rewrite Hp.
      change (init ++ m :: back) with (init ++ [m] ++ back).
      rewrite app_assoc. rewrite Hperm. reflexivity.
Qed.

Lemma map_fst_combine {A B} (l : list A) (l' : list B) :
  List.length l = List.length l' -> map fst (combine l l') = l.
Proof.
  revert l'. induction l as [|a l IH]; intros [|b l'] H; try discriminate;
    [reflexivity|]. cbn. f_equal. apply IH. now injection H.
Qed.

Lemma map_snd_combine {A B} (l : list A) (l' : list B) :
  List.length l = List.length l' -> map snd (combine l l') = l'.
Proof.
  revert l'. induction l as [|a l IH]; intros [|b l'] H; try discriminate;
    [reflexivity|]. cbn. f_equal. apply IH. now injection H.
Qed.

Lemma combine_map_fst_snd {A B} (zs : list (A * B)) :
  combine (map fst zs) (map snd zs) = zs.
Proof. induction zs as [|[a b] zs IH]; [reflexivity|]. cbn. now rewrite IH. Qed.

(** X16.  On a series with as many values as dates [sortTimeSeries] never
    panics; the dates it returns are in ascending order, and the
    observations (each date with its value) are those it was given, so
    every value stays with its date. *)
Theorem sortTimeSeries_sorts (ts : data.TimeSeries) :
  len (data.Values ts) = len (data.Dates ts) ->
  exists sorted,
    fetchers.sortTimeSeries ts = Some sorted
    /\ StronglySorted Z.le (data.Dates sorted)
    /\ len (data.Values sorted) = len (data.Dates sorted)
    /\ Permutation (combine (data.Dates sorted) (data.Values sorted))
                   (combine (data.Dates ts) (data.Values ts)).
Proof.
  intros Hlen. destruct ts as [ds vs]. cbn [data.Dates data.Values] in *.
  assert (Hl : List.length ds = List.length vs) by (unfold len in Hlen; lia).
  set (zs := combine ds vs).
  assert (Hts : {| data.Dates := ds; data.Values := vs |} = series_of zs).
  { unfold series_of, zs. now rewrite map_fst_combine, map_snd_combine. }
  unfold fetchers.sortTimeSeries. cbn [data.Dates].
  rewrite Hts.
  assert (Hn : len zs = len ds).
  { unfold zs, len. rewrite length_combine. lia. }
  destruct zs as [|x l] eqn:Ez.
  - change (len (@nil (Z * float))) with 0 in Hn.
    rewrite zrange_nil by lia. cbn [foldM ret].
    exists (series_of []). split; [reflexivity|].
    cbn. split; [constructor|]. split; [reflexivity | constructor].
  - rewrite len_cons in Hn.
    destruct (outer_loop (len ds) (List.length l) (x :: l) []) as (zs' & Hz & Hp & Hs).
    + rewrite app_nil_r, len_cons. lia.
    + rewrite len_cons. reflexivity.
    + constructor.
    + intros f b _ [].
    + rewrite app_nil_r in Hz, Hp.
      replace (len ds - 1 - Z.of_nat (List.length l)) with 0 in Hz
        by (unfold len in *; lia).
      exists (series_of zs'). split; [exact Hz|].
      cbn [series_of data.Dates data.Values].
      split; [exact Hs|]. split; [now rewrite !len_map|].
      now rewrite combine_map_fst_snd.
Qed.

Lemma sortTimeSeries_sorts_witness :
  len (data.Values unsorted_series) = len (data.Dates unsorted_series)
  /\ exists sorted,
       fetchers.sortTimeSeries unsorted_series = Some sorted
       /\ StronglySorted Z.le (data.Dates sorted)
       /\ len (data.Values sorted) = len (data.Dates sorted)
       /\ Permutation (combine (data.Dates sorted) (data.Values sorted))
                      (combine (data.Dates unsorted_series)
                               (data.Values unsorted_series)).
Proof.
  split; [reflexivity | exact (sortTimeSeries_sorts unsorted_series eq_refl)].
Defined.


(** *** The series built from a Yahoo Finance quote *)

Lemma foldM_invariant {A B} (P : B -> Prop) (f : B -> A -> panics B)
  (l : list A) (b : B) :
  P b ->
  (forall b a, In a l -> P b -> exists b', f b a = Some b' /\ P b') ->
  exists r, foldM f l b = Some r /\ P r.
Proof.
  revert b. induction l as [|a l IH]; intros b Hb Hf.
  - exists b. now split.
  - cbn [foldM]. destruct (Hf b a (or_introl eq_refl) Hb) as (b' & -> & Hb').
    cbn [bind]. apply IH; [exact Hb'|].
    intros b0 a0 Hin. apply Hf. now right.
Qed.

Lemma at_or_Some {A} (a : list A) (i : Z) (zero : A) :
  0 <= i -> exists v, fetchers.at_or a i zero = Some v.
Proof.
  intros Hi. unfold fetchers.at_or.
  destruct (i <? len a) eqn:E; [apply index_Some; lia | now exists zero].
Qed.

Lemma index_In {A} (s : list A) (i : Z) (a : A) : index s i = Some a -> In a s.
Proof.
  unfold index. destruct (i <? 0); [discriminate|]. apply nth_error_In.
Qed.

(** X17.  The loop of [fetchYahooHistory] that builds a price series never
    panics, whatever the lengths of the five arrays of the quote.  No bar it
    builds has a close equal to zero; every bar takes its date from the
    timestamps and its close from the quote, and there are at most as many
    bars as timestamps. *)
Theorem price_bars_have_a_close (timestamps : list Z) (quote : fetchers.Quote.t) :
  exists series,
    fetchers.price_bars timestamps quote = Some series
    /\ len series <= len timestamps
    /\ forall bar,
         In bar series ->
         (data.Close bar =? 0)%float = false
         /\ In (data.Close bar) (fetchers.Quote.Close quote)
         /\ In (data.Date bar) timestamps.
Proof.
  unfold fetchers.price_bars.
  match goal with |- context [foldM ?f _ _] => set (body := f) end.
  set (good := fun bar : data.PriceBar =>
                 (data.Close bar =? 0)%float = false
                 /\ In (data.Close bar) (fetchers.Quote.Close quote)
                 /\ In (data.Date bar) timestamps).
  destruct (foldM_invariant (fun series => forall bar, In bar series -> good bar)
              body (combine (zrange 0 (len timestamps)) timestamps) [])
    as (series & Hs & Hgood).
  - intros bar [].
  - intros series [i ts] Hin Hall. unfold body.
    pose proof (in_combine_l _ _ _ _ Hin) as Hi. apply In_zrange in Hi.
    pose proof (in_combine_r _ _ _ _ Hin) as Hts.
    rewrite Z.geb_leb.
    destruct (len (fetchers.Quote.Close quote) <=? i) eqn:E; [eauto|].
    destruct (index_Some (fetchers.Quote.Close quote) i) as [close Hc]; [lia|].
    rewrite Hc. cbn [bind].
    destruct (close =? 0)%float eqn:Ez; [eauto|].
    destruct (at_or_Some (fetchers.Quote.Open quote) i 0%float) as [o ->]; [lia|].
    destruct (at_or_Some (fetchers.Quote.High quote) i 0%float) as [h ->]; [lia|].
    destruct (at_or_Some (fetchers.Quote.Low quote) i 0%float) as [lo ->]; [lia|].
    destruct (at_or_Some (fetchers.Quote.Volume quote) i 0) as [v ->]; [lia|].
    cbn [bind ret]. eexists. split; [reflexivity|].
    intros bar Hbar. apply in_app_or in Hbar. destruct Hbar as [Hbar|[<-|[]]].
    + now apply Hall.
    + unfold good. cbn [data.Close data.Date].
      split; [exact Ez|]. split; [now apply index_In in Hc | exact Hts].
  - exists series. split; [exact Hs|]. split; [|exact Hgood].
    apply foldM_append_len in Hs.
    + change (len (@nil data.PriceBar)) with 0 in Hs.
      assert (len (combine (zrange 0 (len timestamps)) timestamps)
              <= len timestamps).
      { unfold len. rewrite length_combine. lia. }
      lia.
    + clear. intros acc [i ts] r. unfold body. rewrite Z.geb_leb.
      destruct (len (fetchers.Quote.Close quote) <=? i);
        [intros H; apply Some_eq in H; subst r; lia|].
      destruct (index _ i); cbn [bind]; [|discriminate].
      destruct (_ =? 0)%float; [intros H; apply Some_eq in H; subst r; lia|].
      destruct (fetchers.at_or _ _ _); cbn [bind]; [|discriminate].
      destruct (fetchers.at_or _ _ _); cbn [bind]; [|discriminate].
      destruct (fetchers.at_or _ _ _); cbn [bind]; [|discriminate].
      destruct (fetchers.at_or _ _ _); cbn [bind]; [|discriminate].
      intros H. apply Some_eq in H. subst r.
      rewrite len_app, len_cons. change (len (@nil data.PriceBar)) with 0. lia.
Qed.

End FetcherFacts.


(** ** The weights read from a query *)

Module ApiFacts.
Import Examples.
Import FloatFacts GoMapFacts NormalizerFacts PanicFacts SortFacts ScoringFacts ZeroFacts
       Binary64Facts ErrorFacts RangeFacts ComponentFacts.
Import SignalFacts EngineFacts FetcherFacts.
Local Open Scope Z_scope.

(** The first loop of [parseWeights]. *)
Lemma accepted_loop (query : string -> option float) (names : list string) :
  forall (w0 : gomap float) (a0 : bool),
  let st :=
    fold_left (fun '(weights, hasAny) param =>
                 match query param with
                 | Some f =>
                     if ((0 <=? f) && (f <=? 1))%float
                     then (insert param f weights, true)
                     else (weights, hasAny)
                 | None => (weights, hasAny)
                 end)
              names (w0, a0) in
  (forall k, lookup k (fst st)
             = if in_dec string_dec k names
               then match accepted query k with
                    | Some f => Some f
                    | None => lookup k w0
                    end
               else lookup k w0)
  /\ snd st = a0 || existsb (fun p => match accepted query p with
                                      | Some _ => true
                                      | None => false
                                      end) names
  /\ (wf w0 -> wf (fst st)).
Proof.
  induction names as [|n names IH]; intros w0 a0; cbv zeta.
  - cbn. split; [reflexivity|]. split; [now rewrite orb_false_r | auto].
  - cbn [fold_left existsb].
    set (st1 := match query n with
                | Some f => if ((0 <=? f) && (f <=? 1))%float
                            then (insert n f w0, true) else (w0, a0)
                | None => (w0, a0)
                end).
    assert (H1 : st1 = match accepted query n with
                       | Some f => (insert n f w0, true)
                       | None => (w0, a0)
                       end).
    { unfold st1, accepted. destruct (query n) as [f|]; [|reflexivity].
      destruct ((0 <=? f) && (f <=? 1))%float; reflexivity. }
    destruct st1 as [w1 a1].
    destruct (IH w1 a1) as (Hl & Ha & Hw). cbv zeta in Hl, Ha, Hw.
    split; [|split].
    + intros k. rewrite Hl.
      destruct (in_dec string_dec k names) as [Hin|Hnin].
      * destruct (in_dec string_dec k (n :: names)) as [_|Hn];
          [|exfalso; apply Hn; now right].
        destruct (accepted query k) as [f|] eqn:Ek; [reflexivity|].
        destruct (accepted query n) as [g|] eqn:En; injection H1 as -> ->;
          [|reflexivity].
        apply lookup_insert_ne. intros ->. congruence.
      * destruct (String.eqb k n) eqn:E.
        -- apply String.eqb_eq in E. subst n.
           destruct (in_dec string_dec k (k :: names)) as [_|Hn];
             [|exfalso; apply Hn; now left].
           destruct (accepted query k) as [f|]; injection H1 as -> ->;
             [apply lookup_insert_eq | reflexivity].
        -- apply String.eqb_neq in E.
           destruct (in_dec string_dec k (n :: names)) as [[Hn|Hn]|_];
             [congruence | contradiction |].
           destruct (accepted query n) as [g|]; injection H1 as -> ->;
             [now apply lookup_insert_ne | reflexivity].
    + rewrite Ha.
      destruct (accepted query n) as [g|]; injection H1 as -> ->;
        [cbn [orb]; now rewrite orb_true_r | reflexivity].
    + intros Hw0. apply Hw.
      destruct (accepted query n) as [g|]; injection H1 as -> ->;
        [now apply wf_insert | exact Hw0].
Qed.

(** The loop of [parseWeights] that fills in the defaults. *)
Lemma defaults_loop (d : string -> float) (names : list string) :
  forall w0 : gomap float,
  let w := fold_left (fun weights param =>
                        if negb (mem param weights)
                        then insert param (d param) weights
                        else weights)
                     names w0 in
  (forall k, lookup k w
             = match lookup k w0 with
               | Some v => Some v
               | None => if in_dec string_dec k names then Some (d k) else None
               end)
  /\ (wf w0 -> wf w).
Proof.
  induction names as [|n names IH]; intros w0; cbv zeta.
  - cbn. split; [|auto]. intros k. now destruct (lookup k w0).
  - cbn [fold_left].
    set (w1 := if negb (mem n w0) then insert n (d n) w0 else w0).
    destruct (IH w1) as [Hl Hw]. cbv zeta in Hl, Hw.
    split.
    + intros k. rewrite Hl. unfold w1, mem.
      destruct (lookup n w0) as [vn|] eqn:En; cbn [negb].
      * destruct (lookup k w0) as [v|] eqn:Ek; [reflexivity|].
        destruct (in_dec string_dec k names) as [Hin|Hnin];
          destruct (in_dec string_dec k (n :: names)) as [Hin'|Hnin'];
          try reflexivity.
        -- exfalso. apply Hnin'. now right.
        -- destruct Hin' as [->|Hin']; [congruence | contradiction].
      * rewrite lookup_insert.
        destruct (String.eqb k n) eqn:E.
        -- apply String.eqb_eq in E. subst n. rewrite En.
           destruct (in_dec string_dec k (k :: names)) as [_|Hn];
             [reflexivity | exfalso; apply Hn; now left].
        -- apply String.eqb_neq in E.
           destruct (lookup k w0) as [v|]; [reflexivity|].
           destruct (in_dec string_dec k names) as [Hin|Hnin];
             destruct (in_dec string_dec k (n :: names)) as [Hin'|Hnin'];
             try reflexivity.
           ++ exfalso. apply Hnin'. now right.
           ++ destruct Hin' as [Hn|Hin']; [congruence | contradiction].
    + intros Hw0. apply Hw. unfold w1.
      destruct (negb (mem n w0)); [now apply wf_insert | exact Hw0].
Qed.

Lemma wf_perm {V} (m m' : gomap V) : Permutation m m' -> wf m -> wf m'.
Proof.
  unfold wf, keys. intros Hp. apply Permutation_NoDup.
  now apply Permutation_map.
Qed.

Lemma lookup_perm {V} (m m' : gomap V) (k : string) :
  Permutation m m' -> wf m -> lookup k m' = lookup k m.
Proof.
  intros Hp Hw. pose proof (wf_perm _ _ Hp Hw) as Hw'.
  destruct (lookup k m) as [v|] eqn:E.
  - apply In_lookup; [exact Hw'|]. apply (Permutation_in _ Hp).
    now apply lookup_In.
  - destruct (lookup k m') as [v|] eqn:E'; [|reflexivity].
    apply lookup_In in E'. apply (Permutation_in _ (Permutation_sym Hp)) in E'.
    apply (In_lookup _ _ _ Hw) in E'. congruence.
Qed.


Lemma existsb_accepted_false (query : string -> option float)
  (names : list string) :
  existsb (fun p => match accepted query p with
                    | Some _ => true
                    | None => false
                    end) names = false ->
  forall p, In p names -> accepted query p = None.
Proof.
  intros H p Hp.
  destruct (accepted query p) eqn:E; [|reflexivity].
  assert (Ht : existsb (fun p => match accepted query p with
                                 | Some _ => true
                                 | None => false
                                 end) names = true)
    by (apply existsb_exists; exists p; split; [exact Hp | now rewrite E]).
  congruence.
Qed.

(** [parseWeights], by cases: the map before the rescaling holds the five
    parameters, each with its accepted number or its default, and the
    result divides each by their sum. *)
Lemma parseWeights_cases (query : string -> option float)
  (visit : gomap float -> gomap float) :
  (forall m, Permutation (visit m) m) ->
  match api.parseWeights query visit with
  | None => forall param, In param api.params -> accepted query param = None
  | Some weights =>
      (exists param, In param api.params /\ accepted query param <> None)
      /\ wf weights
      /\ exists raw,
           wf raw
           /\ (forall k, lookup k raw
                         = if in_dec string_dec k api.params
                           then Some (given_or_default query k) else None)
           /\ let sum := fold_left (fun sum '(_, v) => (sum + v)%float)
                                   (visit raw) 0%float in
              forall k,
                lookup k weights
                = option_map (fun v => if gtb sum 0 then (v / sum)%float else v)
                             (lookup k raw)
  end.
Proof.
  intros Hvisit. unfold api.parseWeights.
  match goal with
  | |- context [fold_left ?f api.params ([], false)] =>
      set (st := fold_left f api.params ([], false))
  end.
  assert (H1 : (forall k, lookup k (fst st)
                          = if in_dec string_dec k api.params
                            then match accepted query k with
                                 | Some f => Some f
                                 | None => lookup k []
                                 end
                            else lookup k [])
               /\ snd st = false || existsb (fun p => match accepted query p with
                                                      | Some _ => true
                                                      | None => false
                                                      end) api.params
               /\ (wf (@nil (string * float)) -> wf (fst st)))
    by exact (accepted_loop query api.params [] false).
  clearbody st. destruct st as [w1 any].
  cbn [fst snd] in H1. destruct H1 as (Hl1 & Hany & Hw1).
  cbn [orb] in Hany. specialize (Hw1 wf_nil).
  destruct any; cbn [negb]; cbv beta iota.
  2: { now apply existsb_accepted_false. }
  pose proof (defaults_loop (at_key config.DefaultWeights) api.params w1) as H2.
  cbv zeta in H2.
  set (raw := fold_left _ api.params w1) in *.
  destruct H2 as [Hl2 Hw2]. specialize (Hw2 Hw1).
  assert (Hraw : forall k, lookup k raw
                           = if in_dec string_dec k api.params
                             then Some (given_or_default query k) else None).
  { intros k. rewrite Hl2, Hl1. unfold given_or_default. cbn [lookup].
    destruct (in_dec string_dec k api.params); [|reflexivity].
    destruct (accepted query k); reflexivity. }
  assert (Hex : exists param, In param api.params /\ accepted query param <> None).
  { symmetry in Hany. apply existsb_exists in Hany.
    destruct Hany as (p & Hp & Ha). exists p. split; [exact Hp|].
    destruct (accepted query p); [discriminate | discriminate Ha]. }
  set (sum := fold_left (fun sum '(_, v) => (sum + v)%float) (visit raw) 0%float).
  destruct (gtb sum 0) eqn:Eg.
  - split; [exact Hex|]. split.
    + apply (wf_range_insert (fun v => (v / sum)%float) (visit raw) raw Hw2).
    + exists raw. split; [exact Hw2|]. split; [exact Hraw|].
      cbv zeta. fold sum. rewrite Eg. intros k.
      change (lookup k (range_insert (fun v => (v / sum)%float) (visit raw) raw)
              = option_map (fun v => (v / sum)%float) (lookup k raw)).
      rewrite lookup_range_insert by (apply (wf_perm raw); [symmetry; apply Hvisit | exact Hw2]).
      rewrite (lookup_perm raw (visit raw)) by (try exact Hw2; symmetry; apply Hvisit).
      destruct (lookup k raw); reflexivity.
  - split; [exact Hex|]. split; [exact Hw2|].
    exists raw. split; [exact Hw2|]. split; [exact Hraw|].
    cbv zeta. fold sum. rewrite Eg. intros k.
    destruct (lookup k raw); reflexivity.
Qed.


Lemma backwards_perm (m : gomap float) : Permutation (backwards m) m.
Proof. symmetry. apply Permutation_rev. Qed.



(** *** The weights of [parseWeights] lie in [0, 1] *)

Section UnitRange.
Local Open Scope R_scope.

Lemma unit_ranged (x : float) :
  ((0 <=? x) && (x <=? 1))%float = true <-> ranged 0 1 x.
Proof.
  unfold ranged, fin. rewrite andb_true_iff, !leb_spec.
  pose proof (Prim2SF_valid x) as Vx. pose proof (Prim2SF_valid 0) as V0.
  pose proof (Prim2SF_valid 1) as V1.
  assert (F0 : SFfin (Prim2SF 0)) by exact I.
  assert (F1 : SFfin (Prim2SF 1)) by exact I.
  pose proof to_R_0 as E0. pose proof to_R_1 as E1. unfold to_R in *.
  split.
  - intros [H0 H1].
    assert (Fx : SFfin (Prim2SF x)).
    { destruct (Prim2SF x) as [s|s| |s m e]; try exact I;
        try destruct s; discriminate. }
    apply SFleb_fin in H0; try assumption.
    apply SFleb_fin in H1; try assumption.
    split; [exact Fx|]. lra.
  - intros [Fx [H0 H1]]. split; apply SFleb_fin; try assumption; lra.
Qed.

(** Adding a number that is not negative does not decrease a sum. *)
Lemma add_increases (x y : float) :
  fin x -> fin y -> 0 <= to_R x -> 0 <= to_R y -> fin (x + y) ->
  to_R x <= to_R (x + y) /\ to_R y <= to_R (x + y).
Proof.
  intros Fx Fy X0 Y0 Fs. unfold fin, to_R in *. rewrite add_spec in *.
  assert (Rs : rounding (SF2R (Prim2SF x) + SF2R (Prim2SF y))
                        (SFadd prec emax (Prim2SF x) (Prim2SF y)))
    by (apply SFadd_rounding; try apply Prim2SF_valid; assumption).
  assert (Rx : rounding (SF2R (Prim2SF x)) (Prim2SF x))
    by (apply valid_rounding; [apply Prim2SF_valid | exact Fx]).
  assert (Ry : rounding (SF2R (Prim2SF y)) (Prim2SF y))
    by (apply valid_rounding; [apply Prim2SF_valid | exact Fy]).
  split.
  - destruct (rounding_mono _ _ _ _ Rx Rs) as (_ & _ & H); [lra | exact Fs | exact H].
  - destruct (rounding_mono _ _ _ _ Ry Rs) as (_ & _ & H); [lra | exact Fs | exact H].
Qed.

(** The sum [parseWeights] computes, over any order of the entries: it is
    finite and at least as large as each entry. *)
Lemma sum_dominates (l : list (string * float)) :
  forall (acc : float) (n : nat),
  (forall k v, In (k, v) l -> ranged 0 1 v) ->
  ranged 0 (INR n * (1 + / 1048576)) acc ->
  (n + List.length l <= 1000)%nat ->
  let sum := fold_left (fun sum '(_, v) => (sum + v)%float) l acc in
  fin sum
  /\ to_R acc <= to_R sum
  /\ (forall k v, In (k, v) l -> to_R v <= to_R sum).
Proof.
  induction l as [|[k0 v0] l IH]; intros acc n Hl Hacc Hn; cbv zeta.
  - cbn [fold_left]. destruct Hacc as [Fa _].
    split; [exact Fa|]. split; [lra|]. intros k v [].
  - cbn [fold_left].
    destruct Hacc as [Fa [A0 A1]].
    destruct (Hl k0 v0 (or_introl eq_refl)) as [Fv [V0 V1]].
    assert (Hn' : INR n <= 999).
    { replace 999 with (INR 999) by (simpl; lra).
      apply le_INR. cbn [List.length] in Hn. lia. }
    destruct (add_abs acc v0 2000) as [Fs Es]; try assumption.
    { apply Rabs_within. lra. }
    { lra. }
    apply Rabs_bound in Es.
    destruct (add_increases acc v0 Fa Fv A0 V0 Fs) as [Ia Iv].
    destruct (IH (acc + v0)%float (S n)) as (Fsum & Hge & Hall).
    + intros k v Hin. apply (Hl k v). now right.
    + split; [exact Fs|]. rewrite S_INR. split; [lra|]. lra.
    + cbn [List.length] in Hn. lia.
    + cbv zeta in Fsum, Hge, Hall.
      split; [exact Fsum|]. split; [lra|].
      intros k v [Hin|Hin].
      * injection Hin as _ <-. lra.
      * now apply (Hall k).
Qed.

Lemma positive_finite (x : float) :
  fin x -> gtb x 0 = true ->
  0 < to_R x /\ exists m e, Prim2SF x = S754_finite false m e.
Proof.
  unfold fin, gtb, to_R. rewrite ltb_spec.
  change (Prim2SF 0) with (S754_zero false).
  destruct (Prim2SF x) as [s|s| |s m e]; try contradiction; intros _ H.
  - discriminate.
  - destruct s; [discriminate|]. split; [|eauto].
    cbn [SF2R sgn]. apply Rmult_lt_0_compat; [apply IZR_lt; reflexivity | apply bpow_pos].
Qed.

(** A quotient of a number by one that is at least as large. *)
Lemma div_unit (v sum : float) :
  fin v -> 0 <= to_R v <= to_R sum -> fin sum -> gtb sum 0 = true ->
  ranged 0 1 (v / sum).
Proof.
  intros Fv [V0 V1] Fs Hpos.
  destruct (positive_finite sum Fs Hpos) as [Spos (m & e & Es)].
  unfold ranged, fin, to_R in *. rewrite div_spec, Es in *.
  apply rounding_le_representable
    with (V := SF2R (Prim2SF v) / SF2R (S754_finite false m e)).
  - now apply SFdiv_rounding.
  - split.
    + apply Rmult_le_pos; [exact V0 | left; now apply Rinv_0_lt_compat].
    + apply Rmult_le_reg_r with (SF2R (S754_finite false m e)); [exact Spos|].
      unfold Rdiv. rewrite Rmult_assoc, Rinv_l by lra. lra.
  - exact representable_1.
Qed.

End UnitRange.

Lemma default_weight_unit (param : string) :
  In param api.params ->
  ((0 <=? at_key config.DefaultWeights param)
   && (at_key config.DefaultWeights param <=? 1))%float = true.
Proof. intros [<-|[<-|[<-|[<-|[<-|[]]]]]]; reflexivity. Qed.

Lemma given_or_default_unit (query : string -> option float) (param : string) :
  In param api.params ->
  ((0 <=? given_or_default query param)
   && (given_or_default query param <=? 1))%float = true.
Proof.
  intros Hp. unfold given_or_default.
  destruct (accepted query param) as [f|] eqn:E;
    [|now apply default_weight_unit].
  unfold accepted in E. destruct (query param) as [g|]; [|discriminate].
  destruct ((0 <=? g) && (g <=? 1))%float eqn:Eg; [|discriminate].
  now injection E as <-.
Qed.

(** X19.  Every weight [parseWeights] returns lies in [0, 1], whatever the
    query and in whatever order the map is visited: the sum is at least as
    large as each of the five numbers it adds. *)
Theorem parseWeights_unit_weights (query : string -> option float)
  (visit : gomap float -> gomap float) (weights : gomap float)
  (k : string) (v : float) :
  (forall m, Permutation (visit m) m) ->
  api.parseWeights query visit = Some weights ->
  lookup k weights = Some v ->
  ((0 <=? v) && (v <=? 1))%float = true.
Proof.
  intros Hvisit Hw Hk.
  pose proof (parseWeights_cases query visit Hvisit) as H. rewrite Hw in H.
  destruct H as (_ & _ & raw & Hwr & Hraw & Hl). cbv zeta in Hl.
  rewrite Hl in Hk.
  assert (Hentry : forall k v, In (k, v) raw ->
                     In k api.params /\ v = given_or_default query k).
  { intros k' v' Hin. apply (In_lookup _ _ _ Hwr) in Hin. rewrite Hraw in Hin.
    destruct (in_dec string_dec k' api.params); [|discriminate].
    injection Hin as <-. now split. }
  assert (Hunit : forall k v, In (k, v) (visit raw) -> ranged 0 1 v).
  { intros k' v' Hin. apply (Permutation_in _ (Hvisit raw)) in Hin.
    destruct (Hentry k' v' Hin) as [Hp ->].
    now apply unit_ranged, given_or_default_unit. }
  assert (Hlen : (List.length (visit raw) <= 5)%nat).
  { rewrite (Permutation_length (Hvisit raw)).
    change 5%nat with (List.length api.params).
    rewrite <- (length_map fst raw).
    apply NoDup_incl_length; [exact Hwr|].
    intros k' Hk'. apply in_map_iff in Hk'.
    destruct Hk' as ([k'' v'] & <- & Hin). now apply (Hentry k'' v'). }
  destruct (sum_dominates (visit raw) 0%float 0 Hunit) as (Fsum & _ & Hdom).
  { split; [exact I|]. rewrite to_R_0. simpl. lra. }
  { lia. }
  cbv zeta in Fsum, Hdom.
  set (sum := fold_left (fun sum '(_, v) => (sum + v)%float) (visit raw) 0%float) in *.
  destruct (lookup k raw) as [r|] eqn:Er; [|discriminate].
  cbn [option_map] in Hk. injection Hk as <-.
  assert (Hin : In (k, r) (visit raw)).
  { apply (Permutation_in _ (Permutation_sym (Hvisit raw))). now apply lookup_In. }
  pose proof (Hunit k r Hin) as Hr.
  destruct (gtb sum 0) eqn:Eg; [|now apply unit_ranged].
  apply unit_ranged. destruct Hr as [Fr [R0 R1]].
  apply div_unit; try assumption. split; [exact R0 | now apply (Hdom k)].
Qed.

Lemma parseWeights_unit_weights_witness :
  (forall m, Permutation (backwards m) m)
  /\ exists weights v,
       api.parseWeights momentum_only backwards = Some weights
       /\ lookup "momentum" weights = Some v
       /\ ((0 <=? v) && (v <=? 1))%float = true.
Proof.
  split; [exact backwards_perm|].
  do 2 eexists. split; [vm_compute; reflexivity|]. split; [reflexivity|].
  eapply (parseWeights_unit_weights momentum_only backwards _ "momentum" _
            backwards_perm).
  - vm_compute. reflexivity.
  - reflexivity.
Defined.

End ApiFacts.


(** ** Opportunity scores on the scale from 0 to 100 *)

Module ScaleFacts.
Import Examples.
Import FloatFacts GoMapFacts NormalizerFacts PanicFacts SortFacts ScoringFacts ZeroFacts
       Binary64Facts ErrorFacts RangeFacts ComponentFacts.
Import SignalFacts EngineFacts FetcherFacts ApiFacts.
Local Open Scope R_scope.

(** [math.Round] of a number between -1/2 and 10000 + 1/2. *)
Lemma math_Round_near (y : float) :
  fin y -> - / 2 < to_R y < 10000 + / 2 -> ranged 0 10000 (math_Round y).
Proof.
  intros Fy [H0 H1]. unfold ranged, fin, to_R, math_Round in *.
  destruct (Prim2SF y) as [s|s| |s m e] eqn:E; try contradiction.
  - rewrite E. split; [exact I|]. cbn [SF2R]. lra.
  - assert (Pv : 0 < IZR (Zpos m) * bpow e).
    { apply Rmult_lt_0_compat; [apply IZR_lt; reflexivity | apply bpow_pos]. }
    cbn [SF2R] in H0, H1.
    destruct (Z.leb_spec 0 e) as [He|He].
    + rewrite E. split; [exact I|]. cbn [SF2R].
      assert (Hint : IZR (Zpos m) * bpow e = IZR (Zpos m * 2 ^ e)).
      { rewrite mult_IZR, IZR_pow2 by lia. reflexivity. }
      assert (Hpos : (1 <= Zpos m * 2 ^ e)%Z).
      { assert (0 < 2 ^ e)%Z by (apply Z.pow_pos_nonneg; lia). nia. }
      apply IZR_le in Hpos.
      destruct s; cbn [sgn] in *; [lra|].
      split; [lra|]. rewrite Hint in *.
      assert (Hlt : (Zpos m * 2 ^ e < 10001)%Z) by (apply lt_IZR; lra).
      assert (Hle : (Zpos m * 2 ^ e <= 10000)%Z) by lia.
      apply IZR_le in Hle. lra.
    + set (d := (2 ^ (- e))%Z).
      assert (Hd : (0 < d)%Z) by (apply Z.pow_pos_nonneg; lia).
      assert (Hval : IZR (Zpos m) * bpow e * IZR d = IZR (Zpos m)).
      { unfold d. rewrite IZR_pow2 by lia. rewrite Rmult_assoc, <- bpow_add.
        replace (e + - e)%Z with 0%Z by lia. rewrite bpow_0. lra. }
      assert (Hdpos : 0 < IZR d) by (apply IZR_lt; exact Hd).
      pose proof (Z.div_mod (Zpos m) d ltac:(lia)) as Hdm.
      pose proof (Z.mod_pos_bound (Zpos m) d Hd) as Hr.
      set (q := (Zpos m / d)%Z) in *. set (r := (Zpos m mod d)%Z) in *.
      set (n := if (d <=? 2 * r)%Z then (q + 1)%Z else q).
      destruct s; cbn [sgn] in H0, H1.
      * assert (Hm : (2 * Zpos m < d)%Z).
        { apply lt_IZR. rewrite mult_IZR. rewrite <- Hval. nra. }
        assert (Hn : n = 0%Z).
        { unfold n. destruct (Z.leb_spec d (2 * r)); nia. }
        rewrite Hn. cbn. split; [exact I|]. lra.
      * assert (Hm : (2 * Zpos m < 20001 * d)%Z).
        { apply lt_IZR. rewrite !mult_IZR. rewrite <- Hval. nra. }
        assert (Hn : (0 <= n <= 10000)%Z).
        { unfold n. destruct (Z.leb_spec d (2 * r)); nia. }
        assert (Hrd : rounding (IZR n * bpow 0)
                        (binary_normalize prec emax n 0 false))
          by apply binary_normalize_rounding.
        pose proof (rounding_valid _ _ Hrd) as V.
        rewrite (Prim2SF_SF2Prim _ V).
        apply rounding_le_representable with (V := IZR n * bpow 0);
          [exact Hrd | | exact representable_10000].
        rewrite bpow_0, Rmult_1_r. destruct Hn as [Hn0 Hn1].
        apply IZR_le in Hn0, Hn1. lra.
Qed.


Lemma unit_weight_bounded (x : float) :
  unit_weight x = true -> bounded x /\ 0 <= to_R x <= 1.
Proof.
  intros H. apply unit_ranged in H. destruct H as [F [H0 H1]].
  split; [|now split]. split; [exact F|]. apply Rabs_within. lra.
Qed.

(** The rounded weighted sum of five scores in [0, 100], with weights in
    [0, 1] whose sum is at most 1.00001. *)
Lemma weighted_scale (w1 c1 w2 c2 w3 c3 w4 c4 w5 c5 : float) :
  unit_weight w1 = true -> unit_weight w2 = true -> unit_weight w3 = true ->
  unit_weight w4 = true -> unit_weight w5 = true ->
  to_R w1 + to_R w2 + to_R w3 + to_R w4 + to_R w5 <= 1 + / 100000 ->
  in_range c1 = true -> in_range c2 = true -> in_range c3 = true ->
  in_range c4 = true -> in_range c5 = true ->
  in_range (math_Round ((w1 * c1 + w2 * c2 + w3 * c3 + w4 * c4 + w5 * c5) * 100)
            / 100)%float = true.
Proof.
  intros U1 U2 U3 U4 U5 Htotal C1 C2 C3 C4 C5.
  destruct (unit_weight_bounded _ U1) as [B1 [L1 H1]].
  destruct (unit_weight_bounded _ U2) as [B2 [L2 H2]].
  destruct (unit_weight_bounded _ U3) as [B3 [L3 H3]].
  destruct (unit_weight_bounded _ U4) as [B4 [L4 H4]].
  destruct (unit_weight_bounded _ U5) as [B5 [L5 H5]].
  pose proof (proj1 (in_range_ranged _) C1) as [_ [P1 Q1]].
  pose proof (proj1 (in_range_ranged _) C2) as [_ [P2 Q2]].
  pose proof (proj1 (in_range_ranged _) C3) as [_ [P3 Q3]].
  pose proof (proj1 (in_range_ranged _) C4) as [_ [P4 Q4]].
  pose proof (proj1 (in_range_ranged _) C5) as [_ [P5 Q5]].
  destruct (weighted_sum_abs w1 c1 w2 c2 w3 c3 w4 c4 w5 c5)
    as (F & Hsum & _); try assumption; try (now apply in_range_bounded).
  set (x := (w1 * c1 + w2 * c2 + w3 * c3 + w4 * c4 + w5 * c5)%float) in *.
  apply Rabs_bound in Hsum.
  assert (Hexact : 0 <= to_R w1 * to_R c1 + to_R w2 * to_R c2 + to_R w3 * to_R c3
                        + to_R w4 * to_R c4 + to_R w5 * to_R c5
                   <= 100 * (1 + / 100000)).
  { split; [nra|].
    assert (to_R w1 * to_R c1 <= to_R w1 * 100) by nra.
    assert (to_R w2 * to_R c2 <= to_R w2 * 100) by nra.
    assert (to_R w3 * to_R c3 <= to_R w3 * 100) by nra.
    assert (to_R w4 * to_R c4 <= to_R w4 * 100) by nra.
    assert (to_R w5 * to_R c5 <= to_R w5 * 100) by nra.
    lra. }
  assert (Hx : Rabs (to_R x) <= 101) by (apply Rabs_within; lra).
  destruct (mul_abs x 100 101 100) as (Fy & Hy & _); try assumption.
  { exact I. }
  { rewrite to_R_100. apply Rabs_within. lra. }
  { lra. }
  rewrite to_R_100 in Hy. apply Rabs_bound in Hy.
  apply in_range_ranged.
  apply (div_100_ranged _ 10000); [|lra|exact representable_100].
  apply math_Round_near; [exact Fy|]. lra.
Qed.

(** X20.  When the five weights a scorer reads lie in [0, 1] and their exact
    sum is at most 1.00001 (the default weights are such), every opportunity
    score [CalculateScores] returns is NaN or lies in [0, 100]. *)
Theorem opportunity_on_the_scale (s : SectorScorer) (allData : data.AllData.t)
  (scores : list SectorScore) (r : SectorScore) :
  unit_weights (Weights s) = true ->
  weight_total (Weights s) <= 1 + / 100000 ->
  CalculateScores s allData = Some scores ->
  In r scores ->
  nan_or_in_range (OpportunityScore r).
Proof.
  intros Hunit Htotal H Hin.
  assert (E : OpportunityScore r
              = (math_Round (weighted_sum (Weights s) r * 100) / 100)%float).
  { destruct (In_scores _ _ _ _ H Hin)
      as (ms & vs & gs & ins & mcs & pr & rs & eg & sector & z & ->).
    reflexivity. }
  destruct (is_nan (OpportunityScore r)) eqn:Hnan; [now left|]. right.
  rewrite E in Hnan |- *.
  destruct (opportunity_not_nan _ _ Hnan) as (N1 & N2 & N3 & N4 & N5).
  destruct (component_scores_range _ _ _ _ H Hin) as (R1 & R2 & R3 & R4 & R5).
  unfold unit_weights in Hunit. cbn [forallb] in Hunit.
  rewrite !andb_true_iff in Hunit.
  destruct Hunit as (W1 & W2 & W3 & W4 & W5 & _).
  unfold weighted_sum.
  apply weighted_scale; try assumption; try (now apply not_nan_in_range).
Qed.

Lemma opportunity_on_the_scale_witness :
  exists scores r,
    CalculateScores (NewSectorScorer None) pe_snapshot = Some scores
    /\ nth_error scores 0 = Some r
    /\ unit_weights (Weights (NewSectorScorer None)) = true
    /\ weight_total (Weights (NewSectorScorer None)) <= 1 + / 100000
    /\ nan_or_in_range (OpportunityScore r).
Proof.
  assert (Ht : weight_total (Weights (NewSectorScorer None)) <= 1 + / 100000).
  { unfold weight_total.
    change (at_key (Weights (NewSectorScorer None)) "momentum") with 0.25%float.
    change (at_key (Weights (NewSectorScorer None)) "valuation") with 0.2%float.
    change (at_key (Weights (NewSectorScorer None)) "growth") with 0.2%float.
    change (at_key (Weights (NewSectorScorer None)) "innovation") with 0.2%float.
    change (at_key (Weights (NewSectorScorer None)) "macro") with 0.15%float.
    assert (H1 : to_R 0.25 = / 4) by float_value.
    assert (H2 : to_R 0.2 <= 2 / 10 + / 1000000) by float_value.
    assert (H3 : to_R 0.15 <= 15 / 100) by float_value.
    lra. }
  do 2 eexists. split; [vm_compute; reflexivity|]. split; [reflexivity|].
  split; [vm_compute; reflexivity|]. split; [exact Ht|].
  eapply (opportunity_on_the_scale (NewSectorScorer None) pe_snapshot).
  - vm_compute. reflexivity.
  - exact Ht.
  - vm_compute. reflexivity.
  - left. reflexivity.
Defined.

End ScaleFacts.


(** ** The ends of the min-max scale *)

Module ExtremeFacts.
Import Examples.
Import FloatFacts GoMapFacts NormalizerFacts PanicFacts SortFacts ScoringFacts ZeroFacts
       Binary64Facts ErrorFacts RangeFacts ComponentFacts.
Import SignalFacts EngineFacts FetcherFacts ApiFacts ScaleFacts.
Local Open Scope R_scope.

(** Zero rounds to a zero. *)
Lemma rounding_zero (res : spec_float) : rounding 0 res -> SFzero res.
Proof.
  intros H. destruct (rounding_analysis 0 res H (Rle_refl 0))
    as (e1 & z & He1 & Hz & Hz0 & Hlt & Hge & Hres).
  rewrite Rmult_0_l in Hz. change 0 with (IZR 0) in Hz. rewrite rne_IZR in Hz.
  subst z.
  destruct Hres as [[_ Hs]|[(m & e & _ & Hv)|[_ Hinf]]].
  - exact Hs.
  - exfalso. rewrite Rmult_0_l in Hv.
    assert (0 < IZR (Zpos m) * bpow e)
      by (apply Rmult_lt_0_compat; [apply IZR_lt; reflexivity | apply bpow_pos]).
    lra.
  - exfalso. rewrite Rmult_0_l in Hinf. pose proof (bpow_pos 1024). lra.
Qed.

(** A real at least as large as the smallest positive binary64 number
    rounds to a positive number or to the positive infinity. *)
Lemma rounding_positive (V : R) (res : spec_float) :
  rounding V res -> bpow (-1074) <= V ->
  (exists m e, res = S754_finite false m e) \/ res = S754_infinity false.
Proof.
  intros H HV. pose proof (bpow_pos (-1074)) as Hp.
  destruct (rounding_analysis V res H ltac:(lra))
    as (e1 & z & He1 & Hz & Hz0 & Hlt & Hge & Hres).
  destruct Hres as [[Hz' _]|[(m & e & Hr & _)|[Hr _]]]; [|left; eauto|now right].
  exfalso. subst z.
  assert (H1 : (1 <= rne (V * bpow (- e1)))%Z).
  { apply rne_ge_int.
    destruct (Z.eq_dec e1 (-1074)) as [->|Hne].
    - change (- -1074)%Z with 1074%Z.
      apply Rmult_le_reg_r with (bpow (-1074)); [exact Hp|].
      rewrite Rmult_assoc, <- bpow_add. change (1074 + -1074)%Z with 0%Z.
      rewrite bpow_0. lra.
    - assert (Hb : bpow (e1 + 52) <= V) by (apply Hge; lia).
      apply Rmult_le_reg_r with (bpow e1); [apply bpow_pos|].
      rewrite Rmult_assoc, <- bpow_add.
      replace (- e1 + e1)%Z with 0%Z by lia. rewrite bpow_0, Rmult_1_r, Rmult_1_l.
      apply Rle_trans with (bpow (e1 + 52)); [apply bpow_le; lia | exact Hb]. }
  lia.
Qed.

(** Every binary64 number is a multiple of the smallest positive one. *)
Lemma on_the_grid (x : spec_float) :
  valid_binary x = true -> exists N : Z, SF2R x = IZR N * bpow (-1074).
Proof.
  intros V. destruct x as [s|s| |s m e];
    try (exists 0%Z; cbn [SF2R]; lra).
  apply valid_finite in V. destruct V as [C _].
  rewrite fexp64_eq in C.
  assert (He : (-1074 <= e)%Z) by lia.
  exists (if s then (- (Zpos m * 2 ^ (e + 1074)))%Z else (Zpos m * 2 ^ (e + 1074))%Z).
  assert (E : IZR (Zpos m * 2 ^ (e + 1074)) * bpow (-1074) = IZR (Zpos m) * bpow e).
  { rewrite mult_IZR, IZR_pow2 by lia. rewrite Rmult_assoc, <- bpow_add.
    replace (e + 1074 + -1074)%Z with e by lia. reflexivity. }
  cbn [SF2R]. destruct s; cbn [sgn]; [rewrite opp_IZR|]; lra.
Qed.

(** The difference of two binary64 numbers, the first the greater, is not
    rounded to zero. *)
Lemma SFsub_positive (x y : spec_float) :
  valid_binary x = true -> valid_binary y = true -> SFfin x -> SFfin y ->
  SF2R y < SF2R x ->
  (exists m e, SFsub prec emax x y = S754_finite false m e)
  \/ SFsub prec emax x y = S754_infinity false.
Proof.
  intros Vx Vy Fx Fy Hlt.
  apply rounding_positive with (V := SF2R x - SF2R y).
  - now apply SFsub_rounding.
  - destruct (on_the_grid x Vx) as [Nx Hx]. destruct (on_the_grid y Vy) as [Ny Hy].
    rewrite Hx, Hy in *. pose proof (bpow_pos (-1074)) as Hp.
    assert (Hn : (Ny < Nx)%Z).
    { apply lt_IZR. apply Rmult_lt_reg_r with (bpow (-1074)); assumption. }
    assert (Hn' : (Ny + 1 <= Nx)%Z) by lia.
    apply IZR_le in Hn'. rewrite plus_IZR in Hn'. nra.
Qed.

(** Two binary64 numbers that denote the same real are the same. *)
Lemma SF2R_inj (s1 s2 : bool) (m1 m2 : positive) (e1 e2 : Z) :
  valid_binary (S754_finite s1 m1 e1) = true ->
  valid_binary (S754_finite s2 m2 e2) = true ->
  SF2R (S754_finite s1 m1 e1) = SF2R (S754_finite s2 m2 e2) ->
  S754_finite s1 m1 e1 = S754_finite s2 m2 e2.
Proof.
  intros V1 V2 E.
  pose proof (SFcompare_fin _ _ V1 V2 I I) as H.
  destruct (SFcompare (S754_finite s1 m1 e1) (S754_finite s2 m2 e2))
    as [[| |]|] eqn:Ec; try lra; try contradiction.
  clear H E. unfold SFcompare in Ec.
  destruct s1, s2; try discriminate;
    destruct (Z.compare_spec e1 e2) as [He|He|He]; try discriminate;
    subst e2; assert (Hm : Pos.compare m1 m2 = Eq);
    try (change (Pos.compare_cont Eq m1 m2) with (Pos.compare m1 m2) in Ec;
         destruct (Pos.compare m1 m2); try discriminate; reflexivity);
    apply Pos.compare_eq in Hm; now subst m2.
Qed.

(** One rounds to one. *)
Lemma rounding_one (res : spec_float) : rounding 1 res -> res = Prim2SF 1.
Proof.
  intros H.
  destruct (rounding_le_representable 1 res 1 H ltac:(lra) representable_1)
    as [F [_ Hle]].
  assert (R1 : rounding (SF2R (Prim2SF 1)) (Prim2SF 1))
    by (apply valid_rounding; [apply Prim2SF_valid | exact I]).
  pose proof to_R_1 as E1. unfold to_R in E1. rewrite E1 in R1.
  destruct (rounding_mono 1 (Prim2SF 1) 1 res R1 H ltac:(lra) F) as (_ & _ & Hge).
  rewrite E1 in Hge.
  assert (E : SF2R res = 1) by lra.
  pose proof (rounding_valid _ _ H) as V.
  destruct res as [s|s| |s m e]; try contradiction; cbn [SF2R] in E; try lra.
  change (Prim2SF 1) with (S754_finite false 4503599627370496 (-52)).
  apply SF2R_inj; [exact V | reflexivity|].
  change (S754_finite false 4503599627370496 (-52)) with (Prim2SF 1).
  cbn [SF2R]. lra.
Qed.


(** A real that rounds to two finite numbers rounds to the same. *)
Lemma rounding_fun (V : R) (r1 r2 : spec_float) :
  rounding V r1 -> rounding V r2 -> 0 <= V -> SFfin r1 -> SFfin r2 ->
  SF2R r1 = SF2R r2.
Proof.
  intros H1 H2 HV F1 F2.
  destruct (rounding_mono V r1 V r2 H1 H2 ltac:(lra) F2) as (_ & _ & Ha).
  destruct (rounding_mono V r2 V r1 H2 H1 ltac:(lra) F1) as (_ & _ & Hb).
  lra.
Qed.

Local Open Scope float_scope.

Lemma leb_real (x y : float) :
  fin x -> fin y -> ((x <=? y) = true <-> (to_R x <= to_R y)%R).
Proof.
  intros Fx Fy. rewrite leb_spec.
  apply SFleb_fin; try apply Prim2SF_valid; assumption.
Qed.

Lemma eqb_real (x y : float) :
  fin x -> fin y -> ((x =? y) = true <-> to_R x = to_R y).
Proof.
  intros Fx Fy. rewrite eqb_spec. unfold SFeqb, to_R.
  pose proof (SFcompare_fin _ _ (Prim2SF_valid x) (Prim2SF_valid y) Fx Fy) as H.
  destruct (SFcompare (Prim2SF x) (Prim2SF y)) as [[| |]|];
    split; intros E; try reflexivity; try discriminate; try lra; try contradiction.
Qed.

(** A finite difference has finite operands. *)
Lemma sub_finite_operands (x y : float) :
  is_finite (x - y) = true -> fin x /\ fin y.
Proof.
  intros H. apply is_finite_spec in H. rewrite sub_spec in H. unfold fin.
  destruct (Prim2SF x) as [s|s| |s m e], (Prim2SF y) as [s'|s'| |s' m' e'];
    try (split; exact I); exfalso; revert H;
    try destruct s; try destruct s'; simpl; auto.
Qed.

Lemma sub_equal (x y : float) :
  fin x -> fin y -> to_R x = to_R y -> (x - y =? 0) = true.
Proof.
  intros Fx Fy E. apply is_zero_spec. rewrite sub_spec.
  apply rounding_zero.
  replace 0%R with (to_R x - to_R y)%R by lra.
  apply SFsub_rounding; try apply Prim2SF_valid; assumption.
Qed.

Lemma sub_greater (x y : float) :
  fin x -> fin y -> (to_R y < to_R x)%R -> is_finite (x - y) = true ->
  exists m e, Prim2SF (x - y) = S754_finite false m e.
Proof.
  intros Fx Fy Hlt Hf. apply is_finite_spec in Hf. rewrite sub_spec in *.
  destruct (SFsub_positive (Prim2SF x) (Prim2SF y)) as [H|H];
    try apply Prim2SF_valid; try assumption.
  unfold SF64sub in Hf. rewrite H in Hf. contradiction.
Qed.

Lemma sub_same_value (x x' y : float) :
  fin x -> fin x' -> fin y -> to_R x = to_R x' -> (to_R y < to_R x)%R ->
  is_finite (x - y) = true -> is_finite (x' - y) = true ->
  x - y = x' - y.
Proof.
  intros Fx Fx' Fy E Hlt Hf Hf'.
  destruct (sub_greater x y Fx Fy Hlt Hf) as (m & e & Em).
  destruct (sub_greater x' y Fx' Fy ltac:(lra) Hf') as (m' & e' & Em').
  apply Prim2SF_inj. rewrite Em, Em'.
  apply SF2R_inj.
  - rewrite <- Em. apply Prim2SF_valid.
  - rewrite <- Em'. apply Prim2SF_valid.
  - rewrite <- Em, <- Em', !sub_spec.
    apply rounding_fun with (V := (to_R x - to_R y)%R).
    + apply SFsub_rounding; try apply Prim2SF_valid; assumption.
    + rewrite E. apply SFsub_rounding; try apply Prim2SF_valid; assumption.
    + lra.
    + apply is_finite_spec in Hf. now rewrite sub_spec in Hf.
    + apply is_finite_spec in Hf'. now rewrite sub_spec in Hf'.
Qed.

Lemma div_self (d : float) (m : positive) (e : Z) :
  Prim2SF d = S754_finite false m e -> d / d = 1.
Proof.
  intros E. apply Prim2SF_inj. rewrite div_spec, E.
  apply rounding_one.
  replace 1%R with (SF2R (S754_finite false m e) / SF2R (S754_finite false m e))%R.
  - apply SFdiv_rounding. exact I.
  - apply Rinv_r. apply SF2R_finite_neq.
Qed.

Lemma zero_div (a d : float) (m : positive) (e : Z) :
  (a =? 0) = true -> Prim2SF d = S754_finite false m e -> (a / d =? 0) = true.
Proof.
  rewrite !is_zero_spec, div_spec. intros [s ->] ->.
  unfold SF64div, SFdiv, SFzero. eauto.
Qed.

Lemma sub_zero_r (x : float) : (x =? 0) = true -> 100 - x = 100.
Proof.
  rewrite is_zero_spec. intros [s E]. apply Prim2SF_inj.
  rewrite sub_spec, E. destruct s; reflexivity.
Qed.


(** The extremes [minmax] finds, when every difference of two values is
    finite: they are values of the map and bound every value. *)
Lemma minmax_bounds (values : gomap float) :
  values <> [] ->
  (forall u w, In u (map snd values) -> In w (map snd values) ->
               is_finite (w - u) = true) ->
  let mn := fst (fst (minmax values)) in
  let mx := snd (fst (minmax values)) in
  In mn (map snd values) /\ In mx (map snd values)
  /\ forall w, In w (map snd values) ->
       fin w /\ (to_R mn <= to_R w <= to_R mx)%R.
Proof.
  intros Hne Hfin mn mx.
  destruct (minmax_In values Hne) as (Hmn & Hmx & _). fold mn in Hmn. fold mx in Hmx.
  assert (Hf : forall w, In w (map snd values) -> fin w).
  { intros w Hw. now destruct (sub_finite_operands w w (Hfin w w Hw Hw)). }
  split; [exact Hmn|]. split; [exact Hmx|].
  pose proof (minmax_extremes values Hne) as He. fold mn mx in He.
  assert (Nn : forall w, fin w -> is_nan w = false).
  { intros w Fw. apply is_nan_false. unfold fin in Fw.
    destruct (Prim2SF w); try contradiction; discriminate. }
  destruct He as [He|(_ & _ & He)].
  { rewrite (Nn mn (Hf mn Hmn)) in He. discriminate. }
  intros w Hw. split; [now apply Hf|].
  destruct (He w Hw) as [Hnan|[H1 H2]].
  { rewrite (Nn w (Hf w Hw)) in Hnan. discriminate. }
  apply leb_real in H1; [|now apply Hf|now apply Hf].
  apply leb_real in H2; [|now apply Hf|now apply Hf].
  now split.
Qed.

(** X21.  Min-max normalisation sends the ends of the range to the ends of
    the scale.  When every difference of two values of the map is finite
    and the values are not all equal, the key of a smallest value gets a
    score equal to 0 and the key of a largest value the score 100 when
    higher is better, and the other way round when lower is better. *)
Theorem NormalizeScore_ends (values : gomap float) (k : string) (v : float) :
  wf values ->
  lookup k values = Some v ->
  (forall u w, In u (map snd values) -> In w (map snd values) ->
               is_finite (w - u) = true) ->
  (exists w, In w (map snd values) /\ (w =? v) = false) ->
  ((forall w, In w (map snd values) -> (v <=? w) = true) ->
   (exists s, lookup k (NormalizeScore values true) = Some s /\ (s =? 0) = true)
   /\ lookup k (NormalizeScore values false) = Some 100)
  /\ ((forall w, In w (map snd values) -> (w <=? v) = true) ->
      lookup k (NormalizeScore values true) = Some 100
      /\ lookup k (NormalizeScore values false) = Some 0).
Proof.
  intros Hwf Hk Hfin (w0 & Hw0 & Hneq).
  assert (Hne : values <> []) by (intros ->; discriminate Hk).
  assert (Hv : In v (map snd values)).
  { apply in_map_iff. exists (k, v). split; [reflexivity | now apply lookup_In]. }
  destruct (minmax_bounds values Hne Hfin) as (Hmn & Hmx & Hb).
  set (mn := fst (fst (minmax values))) in *.
  set (mx := snd (fst (minmax values))) in *.
  destruct (Hb v Hv) as [Fv [Hv1 Hv2]].
  destruct (Hb w0 Hw0) as [Fw0 [Hw1 Hw2]].
  destruct (Hb mn Hmn) as [Fmn _]. destruct (Hb mx Hmx) as [Fmx _].
  assert (Hw0v : to_R w0 <> to_R v).
  { intros E. apply eqb_real in E; [congruence | assumption | assumption]. }
  assert (Hspread : (to_R mn < to_R mx)%R) by lra.
  assert (Hbranch : (mx =? mn) = false).
  { destruct (mx =? mn) eqn:E; [|reflexivity].
    apply eqb_real in E; [lra | assumption | assumption]. }
  assert (Hlook : forall hib,
            lookup k (NormalizeScore values hib)
            = Some (let s := ((v - mn) / (mx - mn)) * 100 in
                    let score := if hib then s else 100 - s in
                    math_Round (score * 100) / 100)).
  { intros hib. rewrite NormalizeScore_eq.
    destruct (len values =? 0)%Z eqn:E0; [apply len_zero in E0; contradiction|].
    fold mn mx. rewrite Hbranch.
    rewrite lookup_range_insert by exact Hwf. rewrite Hk.
    now rewrite minmax_of_alt. }
  destruct (sub_greater mx mn Fmx Fmn Hspread (Hfin mn mx Hmn Hmx)) as (m & e & Ed).
  split.
  - intros Hlow.
    assert (E : to_R v = to_R mn).
    { pose proof (Hlow mn Hmn) as H. apply leb_real in H; [lra | assumption | assumption]. }
    assert (Hz : (((v - mn) / (mx - mn)) * 100 =? 0) = true).
    { apply mul_zero_fin; [|exact I].
      apply (zero_div _ _ m e); [|exact Ed]. now apply sub_equal. }
    split.
    + eexists. split; [apply (Hlook true)|]. cbv zeta. now apply round2_zero.
    + rewrite (Hlook false). cbv zeta. rewrite (sub_zero_r _ Hz). reflexivity.
  - intros Hhigh.
    assert (E : to_R v = to_R mx).
    { pose proof (Hhigh mx Hmx) as H. apply leb_real in H; [lra | assumption | assumption]. }
    assert (Hq : (v - mn) / (mx - mn) = 1).
    { rewrite (sub_same_value v mx mn Fv Fmx Fmn E ltac:(lra)
                 (Hfin mn v Hmn Hv) (Hfin mn mx Hmn Hmx)).
      now apply (div_self _ m e). }
    split; rewrite Hlook; cbv zeta; rewrite Hq; reflexivity.
Qed.

Lemma NormalizeScore_ends_witness :
  wf wide_three
  /\ lookup "A" (NormalizeScore wide_three true) = Some 0
  /\ lookup "A" (NormalizeScore wide_three false) = Some 100
  /\ lookup "C" (NormalizeScore wide_three true) = Some 100
  /\ lookup "C" (NormalizeScore wide_three false) = Some 0.
Proof.
  assert (Hw : wf wide_three)
    by (unfold wf; cbn; repeat (constructor; [cbn [In]; intuition discriminate|]);
        constructor).
  assert (Hfin : forall u w, In u (map snd wide_three) -> In w (map snd wide_three) ->
                             is_finite (w - u) = true).
  { intros u w [<-|[<-|[<-|[]]]] [<-|[<-|[<-|[]]]]; reflexivity. }
  split; [exact Hw|].
  destruct (NormalizeScore_ends wide_three "A" 0 Hw eq_refl Hfin) as [Hlow _].
  { exists 1. split; [cbn; tauto | reflexivity]. }
  destruct (NormalizeScore_ends wide_three "C" 800 Hw eq_refl Hfin) as [_ Hhigh].
  { exists 1. split; [cbn; tauto | reflexivity]. }
  destruct Hlow as [_ Hl].
  { intros w [<-|[<-|[<-|[]]]]; reflexivity. }
  destruct Hhigh as [Hh1 Hh2].
  { intros w [<-|[<-|[<-|[]]]]; reflexivity. }
  split; [reflexivity|]. split; [exact Hl|]. split; [exact Hh1 | exact Hh2].
Defined.

End ExtremeFacts.


(** ** From the query to the scores *)

Module PipelineFacts.
Import Examples.
Import FloatFacts GoMapFacts NormalizerFacts PanicFacts SortFacts ScoringFacts ZeroFacts
       Binary64Facts ErrorFacts RangeFacts ComponentFacts.
Import SignalFacts EngineFacts FetcherFacts ApiFacts ScaleFacts ExtremeFacts.
Local Open Scope R_scope.

(** The sum of two finite numbers that are not negative is rounded with a
    relative error of at most [2^-52]: a sum below the normal range is
    exact, since both numbers are multiples of [2^-1074]. *)
Lemma add_relative (x y : float) :
  fin x -> fin y -> 0 <= to_R x -> 0 <= to_R y ->
  to_R x + to_R y <= bpow 1023 ->
  fin (x + y)
  /\ Rabs (to_R (x + y) - (to_R x + to_R y)) <= bpow (-52) * (to_R x + to_R y).
Proof.
  intros Fx Fy X0 Y0 Hb.
  assert (Hv : Rabs (to_R x + to_R y) <= bpow 1023) by (apply Rabs_within; lra).
  destruct (add_error x y Fx Fy Hv) as [Fs E].
  split; [exact Fs|].
  destruct (on_the_grid (Prim2SF x) (Prim2SF_valid x)) as [Nx Ex].
  destruct (on_the_grid (Prim2SF y) (Prim2SF_valid y)) as [Ny Ey].
  destruct (on_the_grid (Prim2SF (x + y)) (Prim2SF_valid (x + y))) as [Nw Ew].
  fold (to_R x) in Ex. fold (to_R y) in Ey. fold (to_R (x + y)) in Ew.
  unfold round_err in E.
  assert (V0 : 0 <= to_R x + to_R y) by lra.
  set (v := to_R x + to_R y) in *. set (w := to_R (x + y)) in *.
  rewrite (Rabs_pos_eq v) in E by lra.
  assert (B1 : bpow (-52) = 2 * bpow (-53)).
  { change (-52)%Z with (-53 + 1)%Z. rewrite bpow_add, bpow_1. lra. }
  assert (B2 : bpow (-1075) = bpow (-53) * bpow (-1022)).
  { change (-1075)%Z with (-53 + -1022)%Z. now rewrite bpow_add. }
  assert (B3 : bpow (-1074) = 2 * bpow (-1075)).
  { change (-1074)%Z with (-1075 + 1)%Z. rewrite bpow_add, bpow_1. lra. }
  pose proof (bpow_pos (-53)) as P53. pose proof (bpow_pos (-1075)) as P1075.
  destruct (Rlt_le_dec v (bpow (-1022))) as [Hsmall|Hbig].
  - assert (Hk : w - v = IZR (Nw - Nx - Ny) * bpow (-1074)).
    { unfold v. rewrite Ew, Ex, Ey, !minus_IZR. ring. }
    assert (Hlt : Rabs (w - v) < bpow (-1074)).
    { apply Rle_lt_trans with (1 := E). rewrite B3, B2.
      assert (bpow (-53) * v < bpow (-53) * bpow (-1022))
        by (apply Rmult_lt_compat_l; assumption).
      lra. }
    rewrite Hk, Rabs_mult, (Rabs_pos_eq (bpow (-1074))) in Hlt
      by (left; apply bpow_pos).
    assert (H1 : Rabs (IZR (Nw - Nx - Ny)) < 1).
    { apply Rmult_lt_reg_r with (bpow (-1074)); [apply bpow_pos | lra]. }
    rewrite <- abs_IZR in H1. apply lt_IZR in H1.
    assert (H0 : (Nw - Nx - Ny = 0)%Z) by lia.
    rewrite Hk, H0, Rmult_0_l, Rabs_R0.
    apply Rmult_le_pos; [left; apply bpow_pos | lra].
  - assert (bpow (-53) * bpow (-1022) <= bpow (-53) * v)
      by (apply Rmult_le_compat_l; lra).
    rewrite B1. lra.
Qed.

(** One step of a running sum whose relative error grows by [c] with every
    addition. *)
Lemma relative_step (K c e a v s : R) :
  0 <= K -> 0 < c <= 1 -> K * c <= / 2 -> 0 <= e -> 0 <= v ->
  (1 - K * c) * e <= a <= (1 + K * c) * e ->
  Rabs (s - (a + v)) <= c / 2 * (a + v) ->
  (1 - (K + 1) * c) * (e + v) <= s <= (1 + (K + 1) * c) * (e + v).
Proof.
  intros HK [Hc Hc1] HKc He Hv [Ha1 Ha2] Hs.
  apply Rabs_bound in Hs.
  assert (Q0 : 0 <= K * c) by (apply Rmult_le_pos; lra).
  replace ((K + 1) * c) with (K * c + c) by ring.
  set (q := K * c) in *.
  assert (Qv : 0 <= q * v) by (apply Rmult_le_pos; assumption).
  assert (A0 : 0 <= a) by nra.
  assert (T1 : (1 - q) * (e + v) <= a + v) by nra.
  assert (T2 : a + v <= (1 + q) * (e + v)) by nra.
  assert (T0 : 0 <= e + v) by lra.
  assert (T3 : 0 <= a + v) by lra.
  split.
  - apply Rle_trans with ((1 - c / 2) * (a + v)); [|nra].
    apply Rle_trans with ((1 - c / 2) * ((1 - q) * (e + v))).
    + assert (H : (1 - (q + c)) <= (1 - c / 2) * (1 - q)) by nra.
      rewrite <- Rmult_assoc. apply Rmult_le_compat_r; assumption.
    + apply Rmult_le_compat_l; [nra | exact T1].
  - apply Rle_trans with ((1 + c / 2) * (a + v)); [nra|].
    apply Rle_trans with ((1 + c / 2) * ((1 + q) * (e + v))).
    + apply Rmult_le_compat_l; [lra | exact T2].
    + assert (H : (1 + c / 2) * (1 + q) <= 1 + (q + c)) by nra.
      rewrite <- Rmult_assoc. apply Rmult_le_compat_r; assumption.
Qed.

Lemma bpow_m51 : 0 < bpow (-51) <= / 1000000000000000.
Proof.
  split; [apply bpow_pos|].
  change (-51)%Z with (- (51))%Z. rewrite bpow_opp, bpow_IZR by lia.
  change (2 ^ 51)%Z with 2251799813685248%Z.
  apply Rinv_le_contravar; lra.
Qed.

(** The sum of numbers of [0, 1] in floating point, over any list of
    entries: its relative error is at most [2^-51] for each addition. *)
Lemma sum_relative (l : list (string * float)) :
  forall (acc : float) (e : R) (k : nat),
  (forall key v, In (key, v) l -> ranged 0 1 v) ->
  fin acc -> 0 <= e <= INR k ->
  (1 - INR k * bpow (-51)) * e <= to_R acc <= (1 + INR k * bpow (-51)) * e ->
  (k + List.length l <= 1000)%nat ->
  let sum := fold_left (fun sum '(_, v) => (sum + v)%float) l acc in
  let n := INR (k + List.length l) in
  fin sum
  /\ (1 - n * bpow (-51)) * (e + exact_sum l) <= to_R sum
     <= (1 + n * bpow (-51)) * (e + exact_sum l).
Proof.
  induction l as [|[k0 v0] l IH]; intros acc e k Hl Fa He Ha Hk; cbv zeta.
  - cbn [fold_left List.length exact_sum fold_right].
    rewrite Nat.add_0_r, Rplus_0_r. now split.
  - cbn [fold_left List.length] in *.
    destruct (Hl k0 v0 (or_introl eq_refl)) as [Fv [V0 V1]].
    pose proof bpow_m51 as [C0 C1].
    assert (HK : 0 <= INR k <= 999).
    { split; [apply pos_INR|].
      replace 999 with (INR 999) by (simpl; lra). apply le_INR. lia. }
    assert (HKc : INR k * bpow (-51) <= / 2) by nra.
    assert (A0 : 0 <= to_R acc) by nra.
    assert (A1 : to_R acc <= 2000) by nra.
    assert (B : 2001 <= bpow 1023).
    { apply Rle_trans with (bpow 32); [rewrite bpow_32; lra | apply bpow_32_1023]. }
    destruct (add_relative acc v0 Fa Fv A0 V0) as [Fs Es]; [lra|].
    assert (B1 : bpow (-52) = bpow (-51) / 2).
    { change (-51)%Z with (-52 + 1)%Z. rewrite bpow_add, bpow_1. lra. }
    rewrite B1 in Es.
    assert (C2 : 0 < bpow (-51) <= 1) by lra.
    pose proof (relative_step (INR k) (bpow (-51)) e (to_R acc) (to_R v0)
                  (to_R (acc + v0)) (proj1 HK) C2 HKc (proj1 He)
                  V0 Ha Es) as Hstep.
    destruct (IH (acc + v0)%float (e + to_R v0) (S k)) as [Fsum Hsum].
    + intros key v Hin. apply (Hl key v). now right.
    + exact Fs.
    + rewrite S_INR. lra.
    + rewrite S_INR. exact Hstep.
    + lia.
    + cbv zeta in Fsum, Hsum. split; [exact Fsum|].
      cbn [exact_sum fold_right]. fold (exact_sum l).
      replace (k + S (List.length l))%nat with (S k + List.length l)%nat by lia.
      replace (e + (to_R v0 + exact_sum l)) with (e + to_R v0 + exact_sum l) by ring.
      exact Hsum.
Qed.

Lemma exact_sum_perm (a b : gomap float) :
  Permutation a b -> exact_sum a = exact_sum b.
Proof.
  induction 1 as [|[k v] a b _ IH|[k v] [k' v'] a|a b c _ IH1 _ IH2].
  - reflexivity.
  - change (to_R v + exact_sum a = to_R v + exact_sum b). now rewrite IH.
  - change (to_R v' + (to_R v + exact_sum a) = to_R v + (to_R v' + exact_sum a)).
    ring.
  - now rewrite IH1.
Qed.

(** Two maps with the same entries hold them in some order. *)
Lemma same_lookup_perm {V} (a b : gomap V) :
  wf a -> wf b -> (forall k, lookup k a = lookup k b) -> Permutation a b.
Proof.
  intros Ha Hb Hl.
  assert (Hnd : forall m : gomap V, wf m -> NoDup m).
  { intros m Hm. unfold wf, keys in Hm. now apply NoDup_map_inv in Hm. }
  apply NoDup_Permutation; [now apply Hnd | now apply Hnd|].
  intros [k v]. split; intros Hin.
  - apply lookup_In. rewrite <- Hl. now apply In_lookup.
  - apply lookup_In. rewrite Hl. now apply In_lookup.
Qed.

Lemma ltb_real (x y : float) :
  fin x -> fin y -> ((x <? y)%float = true <-> to_R x < to_R y).
Proof.
  intros Fx Fy. rewrite ltb_spec. unfold SFltb, to_R.
  pose proof (SFcompare_fin _ _ (Prim2SF_valid x) (Prim2SF_valid y) Fx Fy) as H.
  destruct (SFcompare (Prim2SF x) (Prim2SF y)) as [[| |]|];
    split; intros E; try reflexivity; try discriminate; try lra; try contradiction.
Qed.

Lemma abs_real (x : float) : fin x -> fin (abs x) /\ to_R (abs x) = Rabs (to_R x).
Proof.
  unfold fin, to_R. rewrite abs_spec.
  destruct (Prim2SF x) as [s|s| |s m e] eqn:E; try contradiction; intros _;
    cbn [SFabs SFfin SF2R sgn]; (split; [exact I|]).
  - now rewrite Rabs_R0.
  - assert (P : 0 < IZR (Zpos m) * bpow e).
    { apply Rmult_lt_0_compat; [apply IZR_lt; reflexivity | apply bpow_pos]. }
    destruct s; cbn [sgn].
    + rewrite Rabs_Ropp, Rabs_pos_eq; lra.
    + rewrite Rabs_pos_eq; lra.
Qed.

(** The test of [NewSectorScorer] on a sum that is within a thousandth of
    one: the weights are left as they are. *)
Lemma sum_near_one (sum : float) :
  fin sum -> Rabs (to_R sum - 1) <= / 1000 ->
  gtb (math_Abs (sum - 1.0)) 0.01 = false.
Proof.
  intros Fs Hs.
  assert (B : / 1000 <= bpow 1023).
  { apply Rle_trans with (bpow 32); [rewrite bpow_32; lra | apply bpow_32_1023]. }
  destruct (sub_error sum 1 Fs I) as [Fd Ed].
  { rewrite to_R_1. lra. }
  rewrite to_R_1 in Ed. unfold round_err in Ed.
  destruct (abs_real (sum - 1) Fd) as [Fa Ea].
  unfold gtb, math_Abs.
  destruct (0.01 <? abs (sum - 1))%float eqn:E; [|reflexivity].
  apply ltb_real in E; [|exact I | exact Fa].
  rewrite Ea in E.
  assert (L : / 128 <= to_R 0.01).
  { assert (E1 : to_R 0.0078125 = / 128) by float_value.
    rewrite <- E1. apply leb_real; [exact I | exact I | reflexivity]. }
  assert (P53 : bpow (-53) <= 1).
  { change 1 with (bpow 0). apply bpow_le. lia. }
  assert (P1075 : bpow (-1075) <= / 1000).
  { apply Rle_trans with (bpow (-20)); [apply bpow_le; lia | rewrite bpow_m20; lra]. }
  pose proof (bpow_pos (-53)).
  pose proof (Rabs_pos (to_R sum - 1)).
  set (a := Rabs (to_R sum - 1)) in *.
  assert (Ha : Rabs (to_R (sum - 1)) <= a + (bpow (-53) * a + bpow (-1075))).
  { replace (to_R (sum - 1)) with ((to_R (sum - 1) - (to_R sum - 1)) + (to_R sum - 1))
      by ring.
    eapply Rle_trans; [apply Rabs_triang|]. fold a. lra. }
  assert (bpow (-53) * a <= 1 * a) by (apply Rmult_le_compat_r; lra).
  lra.
Qed.

(** A quotient by a sum that is at least as large: it lies in [0, 1] and
    is correctly rounded. *)
Lemma div_relative (v sum : float) :
  fin v -> 0 <= to_R v <= to_R sum -> fin sum -> gtb sum 0 = true ->
  ranged 0 1 (v / sum)
  /\ Rabs (to_R (v / sum) - to_R v / to_R sum)
     <= bpow (-53) * (to_R v / to_R sum) + bpow (-1075).
Proof.
  intros Fv [V0 V1] Fs Hpos.
  split; [now apply div_unit|].
  destruct (positive_finite sum Fs Hpos) as [Spos (m & e & Es)].
  assert (Q : 0 <= to_R v / to_R sum <= 1).
  { split.
    - apply Rmult_le_pos; [exact V0 | left; now apply Rinv_0_lt_compat].
    - apply Rmult_le_reg_r with (to_R sum); [exact Spos|].
      unfold Rdiv. rewrite Rmult_assoc, Rinv_l by lra. lra. }
  assert (B : 1 <= bpow 1023).
  { change 1 with (bpow 0). apply bpow_le. lia. }
  destruct (div_error v sum false m e Fv Es) as [_ E].
  { apply Rabs_within. lra. }
  unfold round_err in E. now rewrite (Rabs_pos_eq (to_R v / to_R sum)) in E by lra.
Qed.

(** The exact total of the quotients of the entries of a list by a sum
    that is at least as large as each. *)
Lemma rescale_total (sum : float) (l : list (string * float)) :
  fin sum -> gtb sum 0 = true ->
  (forall k v, In (k, v) l -> fin v /\ 0 <= to_R v <= to_R sum) ->
  let l' := map (fun '(k, v) => (k, (v / sum)%float)) l in
  (forall k v, In (k, v) l' -> ranged 0 1 v)
  /\ Rabs (exact_sum l' - exact_sum l / to_R sum)
     <= bpow (-53) * (exact_sum l / to_R sum)
        + INR (List.length l) * bpow (-1075)
  /\ 0 <= exact_sum l.
Proof.
  intros Fs Hpos. induction l as [|[k0 v0] l IH]; intros Hl; cbv zeta.
  - cbn [map exact_sum fold_right List.length INR]. split; [intros k v []|].
    split; [|lra].
    unfold Rdiv. rewrite !Rmult_0_l, Rmult_0_r, Rminus_0_r, Rabs_R0. lra.
  - destruct (Hl k0 v0 (or_introl eq_refl)) as [Fv Hv].
    destruct (div_relative v0 sum Fv Hv Fs Hpos) as [Hr Hq].
    destruct IH as (IH1 & IH2 & IH3).
    { intros k v Hin. apply (Hl k v). now right. }
    cbv zeta in IH1, IH2.
    split; [|split].
    + intros k v [Hin|Hin]; [injection Hin as _ <-; exact Hr | now apply (IH1 k)].
    + change (exact_sum (map (fun '(k, v) => (k, (v / sum)%float)) ((k0, v0) :: l)))
        with (to_R (v0 / sum)
              + exact_sum (map (fun '(k, v) => (k, (v / sum)%float)) l)).
      change (exact_sum ((k0, v0) :: l)) with (to_R v0 + exact_sum l).
      change (List.length ((k0, v0) :: l)) with (S (List.length l)).
      rewrite S_INR.
      set (t' := exact_sum (map (fun '(k, v) => (k, (v / sum)%float)) l)) in *.
      set (t := exact_sum l) in *.
      replace (to_R (v0 / sum) + t' - (to_R v0 + t) / to_R sum)
        with ((to_R (v0 / sum) - to_R v0 / to_R sum) + (t' - t / to_R sum))
        by (unfold Rdiv; ring).
      eapply Rle_trans; [apply Rabs_triang|].
      replace ((to_R v0 + t) / to_R sum) with (to_R v0 / to_R sum + t / to_R sum)
        by (unfold Rdiv; ring).
      lra.
    + change (exact_sum ((k0, v0) :: l)) with (to_R v0 + exact_sum l). lra.
Qed.

Lemma lookup_map_values {A B} (f : A -> B) (m : gomap A) (k : string) :
  lookup k (map (fun '(k, v) => (k, f v)) m) = option_map f (lookup k m).
Proof.
  induction m as [|[k' v] m IH]; [reflexivity|].
  cbn [map lookup]. now destruct (String.eqb k k').
Qed.

Lemma keys_map_values {A B} (f : A -> B) (m : gomap A) :
  keys (map (fun '(k, v) => (k, f v)) m) = keys m.
Proof.
  unfold keys. rewrite map_map. apply map_ext. now intros [k v].
Qed.

(** The total of the five weights a scorer reads is the total of a map
    whose keys are the five parameters. *)
Lemma weight_total_exact_sum (ws : gomap float) :
  wf ws ->
  (forall k, lookup k ws = None <-> ~ In k api.params) ->
  weight_total ws = exact_sum ws.
Proof.
  intros Hwf Hkeys.
  set (canon := map (fun p => (p, at_key ws p)) api.params).
  assert (Hp : Permutation ws canon).
  { apply same_lookup_perm; [exact Hwf | |].
    - unfold wf, keys, canon. rewrite map_map. cbn [map fst api.params].
      repeat (constructor; [cbn [In]; intuition discriminate|]). constructor.
    - intros k. unfold canon. cbn [map api.params lookup].
      assert (Hat : In k api.params -> lookup k ws = Some (at_key ws k)).
      { intros Hin. unfold at_key. destruct (lookup k ws) eqn:E; [reflexivity|].
        apply Hkeys in E. contradiction. }
      repeat match goal with
             | |- context [String.eqb k ?p] =>
                 destruct (String.eqb_spec k p) as [->|?];
                 [apply Hat; cbn; tauto|]
             end.
      apply Hkeys. cbn. intuition congruence. }
  rewrite (exact_sum_perm _ _ Hp). unfold canon, weight_total.
  cbn [map api.params exact_sum fold_right]. ring.
Qed.

Lemma exact_sum_zero (l : gomap float) :
  (forall k v, In (k, v) l -> to_R v = 0) -> exact_sum l = 0.
Proof.
  induction l as [|[k v] l IH]; intros H; [reflexivity|].
  change (exact_sum ((k, v) :: l)) with (to_R v + exact_sum l).
  rewrite (H k v (or_introl eq_refl)), IH; [lra|].
  intros k' v' Hin. apply (H k' v'). now right.
Qed.

Lemma tiny_bounds :
  0 < bpow (-53) <= / 1000000000000000
  /\ 0 < bpow (-1075) <= / 1000000000000000.
Proof.
  pose proof bpow_m51 as [_ C].
  split; (split; [apply bpow_pos|]);
    (apply Rle_trans with (bpow (-51)); [apply bpow_le; lia | exact C]).
Qed.

Lemma length_at_most_five {V} (m : gomap V) :
  wf m -> (forall k, In k (keys m) -> In k api.params) ->
  (List.length m <= 5)%nat.
Proof.
  intros Hwf Hk. change 5%nat with (List.length api.params).
  rewrite <- (length_map fst m). now apply NoDup_incl_length.
Qed.

(** The weights [parseWeights] returns, in whatever order they are
    visited: they are the five parameters' weights, each in [0, 1], and
    their exact total is zero or within [10^-5] of one. *)
Lemma query_weights_analysis (query : string -> option float)
  (visit : gomap float -> gomap float) (weights ws : gomap float) :
  (forall m, Permutation (visit m) m) ->
  api.parseWeights query visit = Some weights ->
  Permutation ws weights ->
  wf ws
  /\ (forall k v, In (k, v) ws -> ranged 0 1 v)
  /\ (forall k, lookup k ws = None <-> ~ In k api.params)
  /\ (exact_sum ws = 0 \/ Rabs (exact_sum ws - 1) <= / 100000).
Proof.
  intros Hvisit Hw Hperm.
  pose proof (parseWeights_cases query visit Hvisit) as H. rewrite Hw in H.
  destruct H as (_ & Hww & raw & Hwr & Hraw & Hl). cbv zeta in Hl.
  assert (Hentry : forall k v, In (k, v) raw ->
                     In k api.params /\ v = given_or_default query k).
  { intros k' v' Hin. apply (In_lookup _ _ _ Hwr) in Hin. rewrite Hraw in Hin.
    destruct (in_dec string_dec k' api.params); [|discriminate].
    injection Hin as <-. now split. }
  assert (Hunit : forall k v, In (k, v) raw -> ranged 0 1 v).
  { intros k' v' Hin. destruct (Hentry k' v' Hin) as [Hp ->].
    now apply unit_ranged, given_or_default_unit. }
  assert (Hunit' : forall k v, In (k, v) (visit raw) -> ranged 0 1 v).
  { intros k' v' Hin. apply (Hunit k'). now apply (Permutation_in _ (Hvisit raw)). }
  assert (Hlen : (List.length (visit raw) <= 5)%nat).
  { rewrite (Permutation_length (Hvisit raw)).
    apply length_at_most_five; [exact Hwr|].
    intros k' Hk'. apply in_map_iff in Hk'.
    destruct Hk' as ([k'' v'] & <- & Hin). now apply (Hentry k'' v'). }
  destruct (sum_dominates (visit raw) 0%float 0 Hunit') as (Fsum & _ & Hdom).
  { split; [exact I|]. rewrite to_R_0. simpl. lra. }
  { lia. }
  destruct (sum_relative (visit raw) 0%float 0 0 Hunit' I) as [_ Hrel].
  { simpl. lra. }
  { rewrite to_R_0. simpl. lra. }
  { lia. }
  cbv zeta in Fsum, Hdom, Hrel.
  rewrite (exact_sum_perm _ _ (Hvisit raw)), Rplus_0_l, Nat.add_0_l in Hrel.
  set (sum := fold_left (fun sum '(_, v) => (sum + v)%float) (visit raw) 0%float) in *.
  set (f := fun v : float => if gtb sum 0 then (v / sum)%float else v) in *.
  assert (Hwm : wf (map (fun '(k, v) => (k, f v)) raw)).
  { unfold wf. now rewrite keys_map_values. }
  assert (Hmapped : Permutation ws (map (fun '(k, v) => (k, f v)) raw)).
  { eapply Permutation_trans; [exact Hperm|].
    apply same_lookup_perm; [exact Hww | exact Hwm|].
    intros k. now rewrite Hl, lookup_map_values. }
  assert (Hwf : wf ws) by exact (wf_perm _ _ (Permutation_sym Hperm) Hww).
  split; [exact Hwf|].
  assert (Hkeys : forall k, lookup k ws = None <-> ~ In k api.params).
  { intros k. rewrite (lookup_perm _ _ k (Permutation_sym Hperm) Hww), Hl, Hraw.
    destruct (in_dec string_dec k api.params) as [Hin|Hin]; cbn [option_map].
    - split; [discriminate | contradiction].
    - split; [now intros _ | reflexivity]. }
  assert (Hdom' : forall k v, In (k, v) raw -> fin v /\ 0 <= to_R v <= to_R sum).
  { intros k v Hin. destruct (Hunit k v Hin) as [Fv [V0 V1]].
    split; [exact Fv|]. split; [exact V0|].
    apply (Hdom k). now apply (Permutation_in _ (Permutation_sym (Hvisit raw))). }
  assert (Hn : 0 <= INR (List.length (visit raw)) <= 5).
  { split; [apply pos_INR|].
    replace 5 with (INR 5) by (simpl; lra). now apply le_INR. }
  destruct (gtb sum 0) eqn:Eg.
  - destruct (rescale_total sum raw Fsum Eg Hdom') as (R1 & R2 & R3).
    cbv zeta in R1, R2.
    split; [|split; [exact Hkeys|]].
    + intros k v Hin. apply (R1 k). now apply (Permutation_in _ Hmapped).
    + right. rewrite (exact_sum_perm _ _ Hmapped).
      change (map (fun '(k, v) => (k, f v)) raw)
        with (map (fun '(k, v) => (k, (v / sum)%float)) raw).
      destruct (positive_finite sum Fsum Eg) as [Spos _].
      pose proof bpow_m51 as [C0 C1]. pose proof tiny_bounds as [[D0 D1] [E0 E1]].
      assert (Hl5 : 0 <= INR (List.length raw) <= 5).
      { rewrite <- (Permutation_length (Hvisit raw)). exact Hn. }
      set (n := INR (List.length (visit raw))) in *.
      set (G := exact_sum raw) in *.
      set (rho := G / to_R sum) in *.
      assert (Erho : G = rho * to_R sum).
      { unfold rho, Rdiv. rewrite Rmult_assoc, Rinv_l by lra. ring. }
      assert (Rho0 : 0 <= rho).
      { apply Rmult_le_pos; [exact R3 | left; now apply Rinv_0_lt_compat]. }
      assert (Q : 0 <= n * bpow (-51) <= / 100000000000000) by nra.
      set (q := n * bpow (-51)) in *.
      rewrite Erho in Hrel.
      assert (H1 : (1 - q) * rho <= 1).
      { apply Rmult_le_reg_r with (to_R sum); [exact Spos|]. lra. }
      assert (H2 : 1 <= (1 + q) * rho).
      { apply Rmult_le_reg_r with (to_R sum); [exact Spos|]. lra. }
      assert (H3 : rho <= 1 + / 1000000) by nra.
      assert (H4 : 1 - / 1000000 <= rho) by nra.
      apply Rabs_bound in R2.
      assert (H5 : bpow (-53) * rho <= / 1000000000000000 * 2) by nra.
      assert (H6 : INR (List.length raw) * bpow (-1075) <= 5 * / 1000000000000000)
        by nra.
      apply Rabs_within. lra.
  - assert (S0 : to_R sum <= 0).
    { destruct (Rle_lt_dec (to_R sum) 0) as [Hle|Hlt]; [exact Hle|].
      apply (ltb_real 0 sum I Fsum) in Hlt. unfold gtb in Eg. congruence. }
    assert (Hid : map (fun '(k, v) => (k, f v)) raw = raw).
    { rewrite <- (map_id raw) at 2. apply map_ext. now intros [k v]. }
    rewrite Hid in Hmapped.
    split; [|split; [exact Hkeys|]].
    + intros k v Hin. apply (Hunit k). now apply (Permutation_in _ Hmapped).
    + left. rewrite (exact_sum_perm _ _ Hmapped). apply exact_sum_zero.
      intros k v Hin. destruct (Hdom' k v Hin) as [_ [V0 V1]]. lra.
Qed.

(** X22.  The weights [parseWeights] returns reach the scores unchanged.
    In whatever order the maps are visited, [NewSectorScorer] does not
    rescale them a second time; their exact total is within [10^-5] of one,
    or zero when the five numbers are all zero; and every opportunity score
    [CalculateScores] then returns is NaN or lies in [0, 100]. *)
Theorem query_weights_kept (query : string -> option float)
  (visit : gomap float -> gomap float) (weights ws : gomap float) :
  (forall m, Permutation (visit m) m) ->
  api.parseWeights query visit = Some weights ->
  Permutation ws weights ->
  Weights (NewSectorScorer (Some ws)) = ws
  /\ (weight_total ws = 0 \/ Rabs (weight_total ws - 1) <= / 100000)
  /\ forall allData scores r,
       CalculateScores (NewSectorScorer (Some ws)) allData = Some scores ->
       In r scores ->
       nan_or_in_range (OpportunityScore r).
Proof.
  intros Hvisit Hw Hperm.
  destruct (query_weights_analysis query visit weights ws Hvisit Hw Hperm)
    as (Hwf & Hunit & Hkeys & Htot).
  assert (Et : weight_total ws = exact_sum ws)
    by now apply weight_total_exact_sum.
  assert (Hlen : (List.length ws <= 5)%nat).
  { apply length_at_most_five; [exact Hwf|].
    intros k Hk. apply in_keys_lookup in Hk.
    destruct (in_dec string_dec k api.params) as [Hin|Hin]; [exact Hin|].
    apply Hkeys in Hin. contradiction. }
  assert (Hkeep : Weights (NewSectorScorer (Some ws)) = ws).
  { unfold NewSectorScorer. cbv zeta. cbn [Weights]. unfold weight_sum.
    destruct (sum_relative ws 0%float 0 0 Hunit I) as [Fs Hrel].
    { simpl. lra. }
    { rewrite to_R_0. simpl. lra. }
    { lia. }
    cbv zeta in Fs, Hrel. rewrite Rplus_0_l, Nat.add_0_l in Hrel.
    set (sum := fold_left (fun sum '(_, w) => (sum + w)%float) ws 0%float) in *.
    assert (Hn : 0 <= INR (List.length ws) <= 5).
    { split; [apply pos_INR|].
      replace 5 with (INR 5) by (simpl; lra). now apply le_INR. }
    pose proof bpow_m51 as [C0 C1].
    assert (Q : 0 <= INR (List.length ws) * bpow (-51) <= / 100000000000000)
      by nra.
    set (q := INR (List.length ws) * bpow (-51)) in *.
    destruct (gtb sum 0) eqn:Eg; cbn [andb]; [|reflexivity].
    destruct (positive_finite sum Fs Eg) as [Spos _].
    rewrite sum_near_one; [reflexivity | exact Fs|].
    destruct Htot as [H0|H1].
    - rewrite H0 in Hrel. lra.
    - apply Rabs_bound in H1. apply Rabs_within.
      set (T := exact_sum ws) in *. nra. }
  split; [exact Hkeep|]. split; [rewrite Et; exact Htot|].
  intros allData scores r H Hin.
  set (s := NewSectorScorer (Some ws)) in *.
  assert (At : forall p, In p api.params -> unit_weight (at_key ws p) = true).
  { intros p Hp. unfold at_key.
    destruct (lookup p ws) as [v|] eqn:E; [|apply Hkeys in E; contradiction].
    apply unit_ranged, (Hunit p). now apply lookup_In. }
  assert (E : OpportunityScore r
              = (math_Round (weighted_sum (Weights s) r * 100) / 100)%float).
  { destruct (In_scores _ _ _ _ H Hin)
      as (ms & vs & gs & ins & mcs & pr & rs & eg & sector & z & ->).
    reflexivity. }
  destruct (is_nan (OpportunityScore r)) eqn:Hnan; [now left|]. right.
  rewrite E in Hnan |- *.
  destruct (opportunity_not_nan _ _ Hnan) as (N1 & N2 & N3 & N4 & N5).
  destruct (component_scores_range _ _ _ _ H Hin) as (R1 & R2 & R3 & R4 & R5).
  rewrite Hkeep. unfold weighted_sum.
  apply weighted_scale; try (now apply not_nan_in_range);
    try (apply At; cbn; tauto).
  fold (weight_total ws). rewrite Et.
  destruct Htot as [H0|H1]; [rewrite H0; lra|].
  apply Rabs_bound in H1. lra.
Qed.

Lemma query_weights_kept_witness :
  (forall m, Permutation (backwards m) m)
  /\ exists weights,
       api.parseWeights momentum_only backwards = Some weights
       /\ Weights (NewSectorScorer (Some weights)) = weights
       /\ (weight_total weights = 0
           \/ Rabs (weight_total weights - 1) <= / 100000).
Proof.
  split; [exact backwards_perm|].
  eexists. split; [vm_compute; reflexivity|].
  refine (let H := query_weights_kept momentum_only backwards _ _ backwards_perm
                     eq_refl (Permutation_refl _) in _).
  split; [exact (proj1 H) | exact (proj1 (proj2 H))].
Defined.

End PipelineFacts.
